(** * Voice agent client: turn-taking state machine and jitter-buffer scheduler

    A shallow embedding of the browser client (complete-voice-agent.js): the
    capture encoder, the message dispatcher, the turn-taking state machine,
    the playback scheduler and the timers they arm, followed by the
    properties of the specification that were checked against it.

    Conventions.
    - Audio samples and times on the audio timeline are rationals ([Q]).
      Every sample the code computes is [k / 32768] for a 16-bit [k], and
      the capture path multiplies a float by the power of two [32768]; both
      are exact in IEEE arithmetic, so rationals lose nothing there.  The
      playhead arithmetic ([now + 0.01], [playhead + duration]) is idealised
      to exact rational arithmetic.
    - Wall-clock time (the argument of [setTimeout]) is an integer number of
      milliseconds.
    - The module-level [let] variables of the script are the fields of one
      record [State]; the handlers are state transformers over it.
    - DOM rendering (button classes, transcript pane, chat bubbles) is
      outside the model; [updateStatus] is kept because the status line is
      how notices are surfaced.  What the code emits is recorded, in order,
      in the [trace] field.
    - The settings modal, its four fields and the keys kept in the session
      storage form a layer around the client state ([Settings.Page]);
      [String.prototype.trim] is a parameter of it. *)

From Stdlib Require Import ZArith QArith Qabs Qminmax Qround List String Bool Lia Lqa.
From Stdlib Require Import Strings.Byte.
Import ListNotations.

(* ================================================================== *)
(** ** PCM conversion: capture encoder and playback decoder            *)
(* ================================================================== *)

Module Pcm.

Local Open Scope Z_scope.

(** Truncation toward zero of a rational (ECMAScript ToIntegerOrInfinity
    on a finite number). *)
Definition truncate (x : Q) : Z := Z.quot (Qnum x) (Zpos (Qden x)).

(** Conversion performed by a store into an [Int16Array]: truncate, reduce
    modulo 2^16, reinterpret as a signed 16-bit value. *)
Definition toInt16 (x : Q) : Z :=
  let m := (truncate x) mod 65536 in
  if 32768 <=? m then m - 65536 else m.

(** [Math.max(-32768, Math.min(32767, inputData[i] * 32768))] stored into
    [outputData[i]] (processor.onaudioprocess). *)
Definition floatToInt16 (x : Q) : Z :=
  toInt16 (Qmax (inject_Z (-32768)) (Qmin (inject_Z 32767) (x * inject_Z 32768))).

(** [int16 / 32768.0] (base64ToPCMFloat32). *)
Definition int16ToFloat (v : Z) : Q := inject_Z v / inject_Z 32768.

(** [view.getInt16(i * 2, true)]: two bytes, little endian, signed. *)
Definition getInt16LE (lo hi : byte) : Z :=
  let u := Z.of_N (Byte.to_N lo) + 256 * Z.of_N (Byte.to_N hi) in
  if 32768 <=? u then u - 65536 else u.

(** The sample loop of base64ToPCMFloat32 over the (even-length) bytes that
    follow the offset.  [None] is the [RangeError] of [getInt16] reading
    past the end of the view, which happens when a byte is left over. *)
Fixpoint samples (bytes : list byte) : option (list Q) :=
  match bytes with
  | [] => Some []
  | [_] => None
  | lo :: hi :: rest =>
      match samples rest with
      | Some l => Some (int16ToFloat (getInt16LE lo hi) :: l)
      | None => None
      end
  end.

End Pcm.

(* ================================================================== *)
(** ** The client state and what it emits                              *)
(* ================================================================== *)

Module Agent.

Local Open Scope Z_scope.

(** [conversationState]: 'idle', 'listening', 'processing', 'speaking',
    'ending'. *)
Inductive Phase := Idle | Listening | Processing | Speaking | Ending.

Definition Phase_eqb (a b : Phase) : bool :=
  match a, b with
  | Idle, Idle | Listening, Listening | Processing, Processing
  | Speaking, Speaking | Ending, Ending => true
  | _, _ => false
  end.

(** One entry of [chatHistory]. *)
Record Turn := { sender : string; message : string; timestamp : Z }.

(** [WebSocket.readyState]. *)
Inductive ReadyState := CONNECTING | OPEN | CLOSING | CLOSED.

(** [AudioContext.state], and a context with its clock (seconds). *)
Inductive CtxState := suspended | running | closed.
Record AudioCtx := { ctxState : CtxState; currentTime : Q }.

(** What [new AudioContext({sampleRate})] and the fallback
    [new AudioContext()] produce at the moment they are called; [None] is
    a constructor that throws. *)
Record Platform := {
  newPlaybackContext : option AudioCtx;
  newFallbackContext : option AudioCtx
}.

Record ApiKeys := {
  gemini : option string; weather : option string;
  murf : option string; assemblyai : option string
}.

(** Inbound messages, by [data.type].  [audio_data] is the payload as
    [atob] sees it: the binary string it denotes, or [None] when [atob]
    rejects the text. *)
Inductive Message :=
| connection
| session_opened
| transcript (text : string)
| turn_complete (final_transcript : string)
| chat_started (user_message : string)
| audio_chunk (chunk_index : Z) (audio_data : option (list byte))
| llm_response_complete (llm_response : string)
| chat_complete
| error (err_message : string)
| audio_complete (total_chunks : Z)
| conversation_ended
| unknown (type : string).

(** Callbacks the code hands to the runtime: the three [setTimeout]
    closures and the continuation of [resume()] in startBufferedPlayback. *)
Inductive Callback :=
| SafetyTimeout | DrainTimeout | GoodbyeTimeout | ResumeThenProcess.

Record Task := { due : Z; callback : Callback }.

Inductive Outbound :=
| user_api_keys (keys : ApiKeys)
| end_conversation.

(** Console lines that mark a decision of the scheduler or of a guard. *)
Inductive LogLine :=
| BufferThresholdReached   (* "Buffer threshold reached - starting playback" *)
| SkippingWavHeader        (* "Skipping WAV header from first chunk" *)
| SafetyForcing            (* "Safety timeout - forcing return to listening" *)
| ReturnedToListening      (* "Audio completed - automatically returned to listening" *)
| ContextUnavailable       (* "Audio context unavailable for chunk scheduling" *)
| SchedulingError          (* "Error scheduling chunk:" *)
| DecodeError              (* "Error converting base64 to PCM:" *)
| ContextNull              (* "Audio context is null - reinitializing" *)
| UnknownMessageType.      (* "Unknown message type:" *)

Inductive Effect :=
| Status (msg : string)                 (* updateStatus(msg) *)
| LiveTranscript (text : string)        (* updateLiveTranscript(text) *)
| SendJson (m : Outbound)               (* websocket.send(JSON.stringify(m)) *)
| SendFrame (frame : list Z)            (* websocket.send(outputData.buffer) *)
| Start (when duration : Q)             (* source.start(when), buffer.duration *)
| Log (l : LogLine).

Record State := {
  conversationState : Phase;
  websocket : option ReadyState;
  audioContext : option CtxState;
  isConversationActive : bool;
  chatHistory : list Turn;
  userApiKeys : ApiKeys;
  audioPlaybackContext : option AudioCtx;
  audioPlayheadTime : Q;
  audioBufferQueue : list (list Q);
  isBuffering : bool;
  isAudioPlaying : bool;
  wavHeaderProcessed : bool;
  (* the runtime around the script *)
  platform : Platform;
  clock : Z;
  tasks : list Task;
  trace : list Effect
}.

Definition bufferThreshold : nat := 3.
Definition AUDIO_SAMPLE_RATE : positive := 44100.

(** The values the script's declarations give its variables. *)
Definition initial (k : ApiKeys) (p : Platform) : State :=
  {| conversationState := Idle; websocket := None; audioContext := None;
     isConversationActive := false; chatHistory := []; userApiKeys := k;
     audioPlaybackContext := None; audioPlayheadTime := 0%Q;
     audioBufferQueue := []; isBuffering := true; isAudioPlaying := false;
     wavHeaderProcessed := false;
     platform := p; clock := 0; tasks := []; trace := [] |}.

(** *** Assignments *)

Definition set_conversationState (v : Phase) (s : State) : State :=
  {| conversationState := v; websocket := websocket s; audioContext := audioContext s;
     isConversationActive := isConversationActive s; chatHistory := chatHistory s;
     userApiKeys := userApiKeys s; audioPlaybackContext := audioPlaybackContext s;
     audioPlayheadTime := audioPlayheadTime s; audioBufferQueue := audioBufferQueue s;
     isBuffering := isBuffering s; isAudioPlaying := isAudioPlaying s;
     wavHeaderProcessed := wavHeaderProcessed s;
     platform := platform s; clock := clock s; tasks := tasks s; trace := trace s |}.

Definition set_websocket (v : option ReadyState) (s : State) : State :=
  {| conversationState := conversationState s; websocket := v; audioContext := audioContext s;
     isConversationActive := isConversationActive s; chatHistory := chatHistory s;
     userApiKeys := userApiKeys s; audioPlaybackContext := audioPlaybackContext s;
     audioPlayheadTime := audioPlayheadTime s; audioBufferQueue := audioBufferQueue s;
     isBuffering := isBuffering s; isAudioPlaying := isAudioPlaying s;
     wavHeaderProcessed := wavHeaderProcessed s;
     platform := platform s; clock := clock s; tasks := tasks s; trace := trace s |}.

Definition set_audioContext (v : option CtxState) (s : State) : State :=
  {| conversationState := conversationState s; websocket := websocket s; audioContext := v;
     isConversationActive := isConversationActive s; chatHistory := chatHistory s;
     userApiKeys := userApiKeys s; audioPlaybackContext := audioPlaybackContext s;
     audioPlayheadTime := audioPlayheadTime s; audioBufferQueue := audioBufferQueue s;
     isBuffering := isBuffering s; isAudioPlaying := isAudioPlaying s;
     wavHeaderProcessed := wavHeaderProcessed s;
     platform := platform s; clock := clock s; tasks := tasks s; trace := trace s |}.

Definition set_isConversationActive (v : bool) (s : State) : State :=
  {| conversationState := conversationState s; websocket := websocket s; audioContext := audioContext s;
     isConversationActive := v; chatHistory := chatHistory s;
     userApiKeys := userApiKeys s; audioPlaybackContext := audioPlaybackContext s;
     audioPlayheadTime := audioPlayheadTime s; audioBufferQueue := audioBufferQueue s;
     isBuffering := isBuffering s; isAudioPlaying := isAudioPlaying s;
     wavHeaderProcessed := wavHeaderProcessed s;
     platform := platform s; clock := clock s; tasks := tasks s; trace := trace s |}.

Definition set_chatHistory (v : list Turn) (s : State) : State :=
  {| conversationState := conversationState s; websocket := websocket s; audioContext := audioContext s;
     isConversationActive := isConversationActive s; chatHistory := v;
     userApiKeys := userApiKeys s; audioPlaybackContext := audioPlaybackContext s;
     audioPlayheadTime := audioPlayheadTime s; audioBufferQueue := audioBufferQueue s;
     isBuffering := isBuffering s; isAudioPlaying := isAudioPlaying s;
     wavHeaderProcessed := wavHeaderProcessed s;
     platform := platform s; clock := clock s; tasks := tasks s; trace := trace s |}.

Definition set_audioPlaybackContext (v : option AudioCtx) (s : State) : State :=
  {| conversationState := conversationState s; websocket := websocket s; audioContext := audioContext s;
     isConversationActive := isConversationActive s; chatHistory := chatHistory s;
     userApiKeys := userApiKeys s; audioPlaybackContext := v;
     audioPlayheadTime := audioPlayheadTime s; audioBufferQueue := audioBufferQueue s;
     isBuffering := isBuffering s; isAudioPlaying := isAudioPlaying s;
     wavHeaderProcessed := wavHeaderProcessed s;
     platform := platform s; clock := clock s; tasks := tasks s; trace := trace s |}.

Definition set_audioPlayheadTime (v : Q) (s : State) : State :=
  {| conversationState := conversationState s; websocket := websocket s; audioContext := audioContext s;
     isConversationActive := isConversationActive s; chatHistory := chatHistory s;
     userApiKeys := userApiKeys s; audioPlaybackContext := audioPlaybackContext s;
     audioPlayheadTime := v; audioBufferQueue := audioBufferQueue s;
     isBuffering := isBuffering s; isAudioPlaying := isAudioPlaying s;
     wavHeaderProcessed := wavHeaderProcessed s;
     platform := platform s; clock := clock s; tasks := tasks s; trace := trace s |}.

Definition set_audioBufferQueue (v : list (list Q)) (s : State) : State :=
  {| conversationState := conversationState s; websocket := websocket s; audioContext := audioContext s;
     isConversationActive := isConversationActive s; chatHistory := chatHistory s;
     userApiKeys := userApiKeys s; audioPlaybackContext := audioPlaybackContext s;
     audioPlayheadTime := audioPlayheadTime s; audioBufferQueue := v;
     isBuffering := isBuffering s; isAudioPlaying := isAudioPlaying s;
     wavHeaderProcessed := wavHeaderProcessed s;
     platform := platform s; clock := clock s; tasks := tasks s; trace := trace s |}.

Definition set_isBuffering (v : bool) (s : State) : State :=
  {| conversationState := conversationState s; websocket := websocket s; audioContext := audioContext s;
     isConversationActive := isConversationActive s; chatHistory := chatHistory s;
     userApiKeys := userApiKeys s; audioPlaybackContext := audioPlaybackContext s;
     audioPlayheadTime := audioPlayheadTime s; audioBufferQueue := audioBufferQueue s;
     isBuffering := v; isAudioPlaying := isAudioPlaying s;
     wavHeaderProcessed := wavHeaderProcessed s;
     platform := platform s; clock := clock s; tasks := tasks s; trace := trace s |}.

Definition set_isAudioPlaying (v : bool) (s : State) : State :=
  {| conversationState := conversationState s; websocket := websocket s; audioContext := audioContext s;
     isConversationActive := isConversationActive s; chatHistory := chatHistory s;
     userApiKeys := userApiKeys s; audioPlaybackContext := audioPlaybackContext s;
     audioPlayheadTime := audioPlayheadTime s; audioBufferQueue := audioBufferQueue s;
     isBuffering := isBuffering s; isAudioPlaying := v;
     wavHeaderProcessed := wavHeaderProcessed s;
     platform := platform s; clock := clock s; tasks := tasks s; trace := trace s |}.

Definition set_wavHeaderProcessed (v : bool) (s : State) : State :=
  {| conversationState := conversationState s; websocket := websocket s; audioContext := audioContext s;
     isConversationActive := isConversationActive s; chatHistory := chatHistory s;
     userApiKeys := userApiKeys s; audioPlaybackContext := audioPlaybackContext s;
     audioPlayheadTime := audioPlayheadTime s; audioBufferQueue := audioBufferQueue s;
     isBuffering := isBuffering s; isAudioPlaying := isAudioPlaying s;
     wavHeaderProcessed := v;
     platform := platform s; clock := clock s; tasks := tasks s; trace := trace s |}.

Definition set_platform (v : Platform) (s : State) : State :=
  {| conversationState := conversationState s; websocket := websocket s; audioContext := audioContext s;
     isConversationActive := isConversationActive s; chatHistory := chatHistory s;
     userApiKeys := userApiKeys s; audioPlaybackContext := audioPlaybackContext s;
     audioPlayheadTime := audioPlayheadTime s; audioBufferQueue := audioBufferQueue s;
     isBuffering := isBuffering s; isAudioPlaying := isAudioPlaying s;
     wavHeaderProcessed := wavHeaderProcessed s;
     platform := v; clock := clock s; tasks := tasks s; trace := trace s |}.

Definition set_clock (v : Z) (s : State) : State :=
  {| conversationState := conversationState s; websocket := websocket s; audioContext := audioContext s;
     isConversationActive := isConversationActive s; chatHistory := chatHistory s;
     userApiKeys := userApiKeys s; audioPlaybackContext := audioPlaybackContext s;
     audioPlayheadTime := audioPlayheadTime s; audioBufferQueue := audioBufferQueue s;
     isBuffering := isBuffering s; isAudioPlaying := isAudioPlaying s;
     wavHeaderProcessed := wavHeaderProcessed s;
     platform := platform s; clock := v; tasks := tasks s; trace := trace s |}.

Definition set_tasks (v : list Task) (s : State) : State :=
  {| conversationState := conversationState s; websocket := websocket s; audioContext := audioContext s;
     isConversationActive := isConversationActive s; chatHistory := chatHistory s;
     userApiKeys := userApiKeys s; audioPlaybackContext := audioPlaybackContext s;
     audioPlayheadTime := audioPlayheadTime s; audioBufferQueue := audioBufferQueue s;
     isBuffering := isBuffering s; isAudioPlaying := isAudioPlaying s;
     wavHeaderProcessed := wavHeaderProcessed s;
     platform := platform s; clock := clock s; tasks := v; trace := trace s |}.

Definition set_trace (v : list Effect) (s : State) : State :=
  {| conversationState := conversationState s; websocket := websocket s; audioContext := audioContext s;
     isConversationActive := isConversationActive s; chatHistory := chatHistory s;
     userApiKeys := userApiKeys s; audioPlaybackContext := audioPlaybackContext s;
     audioPlayheadTime := audioPlayheadTime s; audioBufferQueue := audioBufferQueue s;
     isBuffering := isBuffering s; isAudioPlaying := isAudioPlaying s;
     wavHeaderProcessed := wavHeaderProcessed s;
     platform := platform s; clock := clock s; tasks := tasks s; trace := v |}.

(** *** Sequencing

    The handlers read and assign the script's variables one statement
    after the other; [M] threads the state through them. *)

Definition M (A : Type) : Type := State -> A * State.

Definition ret {A} (a : A) : M A := fun s => (a, s).

Definition bind {A B} (m : M A) (f : A -> M B) : M B :=
  fun s => let r := m s in f (fst r) (snd r).

Definition get : M State := fun s => (s, s).

Definition modify (f : State -> State) : M unit := fun s => (tt, f s).

Definition exec {A} (m : M A) (s : State) : State := snd (m s).

Declare Scope agent_scope.
Delimit Scope agent_scope with agent.
Notation "x <- c1 ;; c2" := (bind c1 (fun x => c2))
  (at level 61, c1 at next level, right associativity) : agent_scope.
Notation "c1 ;; c2" := (bind c1 (fun _ => c2))
  (at level 61, right associativity) : agent_scope.
Local Open Scope agent_scope.

Definition when (b : bool) (m : M unit) : M unit := if b then m else ret tt.

Definition emit (e : Effect) : M unit :=
  modify (fun s => set_trace (trace s ++ [e]) s).

Definition updateStatus (msg : string) : M unit := emit (Status msg).

Definition updateLiveTranscript (text : string) : M unit := emit (LiveTranscript text).

(** [setTimeout(cb, delay)]: the callback becomes runnable [delay]
    milliseconds from now.  Nothing in the script ever calls
    [clearTimeout]. *)
Definition setTimeout (cb : Callback) (delay : Z) : M unit :=
  modify (fun s => set_tasks (tasks s ++ [{| due := clock s + delay; callback := cb |}]) s).

(** [promise.then(cb)]: runnable from now on. *)
Definition thenRun (cb : Callback) : M unit := setTimeout cb 0.

Definition isSome {A} (o : option A) : bool :=
  match o with Some _ => true | None => false end.

Definition is_open (w : option ReadyState) : bool :=
  match w with Some OPEN => true | _ => false end.

Definition is_closed (c : AudioCtx) : bool :=
  match ctxState c with closed => true | _ => false end.

Definition is_suspended (c : AudioCtx) : bool :=
  match ctxState c with suspended => true | _ => false end.

(** *** Teardown *)

Definition closeConnections : M unit :=
  s <- get ;;
  when (isSome (audioContext s)) (modify (set_audioContext None)) ;;
  when (isSome (websocket s)) (modify (set_websocket None)) ;;
  when (isSome (audioPlaybackContext s)) (modify (set_audioPlaybackContext None)).

Definition resetToIdle : M unit :=
  modify (set_conversationState Idle) ;;
  modify (set_isConversationActive false) ;;
  closeConnections.

Definition endConversation : M unit :=
  modify (set_conversationState Ending) ;;
  modify (set_isConversationActive false) ;;
  updateStatus "👋 AI saying goodbye..." ;;
  s <- get ;;
  when (is_open (websocket s)) (emit (SendJson end_conversation)) ;;
  setTimeout GoodbyeTimeout 8000.

(** The closure armed by endConversation. *)
Definition goodbyeTimeout : M unit :=
  closeConnections ;;
  resetToIdle ;;
  updateStatus "👋 Conversation ended. Click to start a new one!".

(** *** Chat history *)

Definition addMessageToChat (sender : string) (message : string) : M unit :=
  modify (fun s => set_chatHistory
    (chatHistory s ++ [{| sender := sender; message := message; timestamp := clock s |}]) s).

(** *** Playback scheduler *)

Definition resetAudioPlaybackState : M unit :=
  s <- get ;;
  modify (set_audioPlayheadTime
    (match audioPlaybackContext s with
     | Some ctx => currentTime ctx + (1 # 10)
     | None => 0
     end)%Q) ;;
  modify (set_audioBufferQueue []) ;;
  modify (set_isBuffering true) ;;
  modify (set_isAudioPlaying false) ;;
  modify (set_wavHeaderProcessed false).

(** [try { if (!ctx || closed) ctx = new AudioContext({sampleRate});
          ...; resetAudioPlaybackState() }
    catch { try { ctx = new AudioContext() } catch {} }].
    Only the constructor can throw inside the [try]. *)
Definition initializeAudioPlayback : M unit :=
  s <- get ;;
  let needs_new :=
    match audioPlaybackContext s with
    | None => true
    | Some ctx => is_closed ctx
    end in
  if needs_new then
    match newPlaybackContext (platform s) with
    | Some ctx =>
        modify (set_audioPlaybackContext (Some ctx)) ;;
        resetAudioPlaybackState
    | None =>
        match newFallbackContext (platform s) with
        | Some ctx => modify (set_audioPlaybackContext (Some ctx))
        | None => ret tt
        end
    end
  else resetAudioPlaybackState.

(** Returns [None] for the [null] of the [catch] branch.  The header flag
    is set before the buffer is allocated, so it stays set when the
    allocation ([binary.length - offset < 0]) or the sample loop throws. *)
Definition base64ToPCMFloat32 (audio_data : option (list byte)) : M (option (list Q)) :=
  match audio_data with
  | None => emit (Log DecodeError) ;; ret None
  | Some binary =>
      s <- get ;;
      let offset := if wavHeaderProcessed s then 0%nat else 44%nat in
      when (negb (wavHeaderProcessed s))
        (emit (Log SkippingWavHeader) ;; modify (set_wavHeaderProcessed true)) ;;
      if (List.length binary <? offset)%nat then emit (Log DecodeError) ;; ret None
      else
        match Pcm.samples (skipn offset binary) with
        | Some float32Array => ret (Some float32Array)
        | None => emit (Log DecodeError) ;; ret None
        end
  end.

(** [chunk] is [None] for the [undefined] that [shift()] gives on an empty
    queue.  [createBuffer] rejects a zero-frame buffer and [start] a
    negative time; both land in the [catch]. *)
Definition scheduleChunkAtPlayhead (chunk : option (list Q)) : M unit :=
  s <- get ;;
  match audioPlaybackContext s with
  | None => emit (Log ContextUnavailable)
  | Some ctx =>
      if is_closed ctx then emit (Log ContextUnavailable)
      else
        match chunk with
        | None | Some [] => emit (Log SchedulingError)
        | Some samples =>
            let duration := (Z.of_nat (List.length samples) # AUDIO_SAMPLE_RATE)%Q in
            let now := currentTime ctx in
            when (Qle_bool (audioPlayheadTime s) now)
              (modify (set_audioPlayheadTime (now + (1 # 100))%Q)) ;;
            s1 <- get ;;
            if Qle_bool 0 (audioPlayheadTime s1) then
              emit (Start (audioPlayheadTime s1) duration) ;;
              modify (set_audioPlayheadTime (audioPlayheadTime s1 + duration)%Q)
            else emit (Log SchedulingError)
        end
  end.

(** [audioBufferQueue.shift()]. *)
Definition shift : M (option (list Q)) :=
  fun s =>
    match audioBufferQueue s with
    | [] => (None, s)
    | chunk :: rest => (Some chunk, set_audioBufferQueue rest s)
    end.

(** The [for] loop of processBufferedChunks, [n] iterations. *)
Fixpoint scheduleLoop (n : nat) : M unit :=
  match n with
  | O => ret tt
  | S k => chunk <- shift ;; scheduleChunkAtPlayhead chunk ;; scheduleLoop k
  end.

Definition processBufferedChunks : M unit :=
  s <- get ;;
  scheduleLoop (Nat.min (List.length (audioBufferQueue s)) 5).

Definition startBufferedPlayback : M unit :=
  s <- get ;;
  match audioPlaybackContext s with
  | None => emit (Log ContextNull) ;; initializeAudioPlayback
  | Some ctx =>
      if is_suspended ctx then thenRun ResumeThenProcess
      else processBufferedChunks
  end.

(** *** Completion and the timers *)

(** [Math.max(2000, Math.min(data.total_chunks * 1000, 5000))]. *)
Definition waitTime (total_chunks : Z) : Z :=
  let estimatedPlaybackTime := total_chunks * 1000 in
  Z.max 2000 (Z.min estimatedPlaybackTime 5000).

Definition handleAudioComplete (total_chunks : Z) : M unit :=
  s <- get ;;
  when (0 <? List.length (audioBufferQueue s))%nat processBufferedChunks ;;
  updateStatus "🔊 AI finishing response..." ;;
  setTimeout DrainTimeout (waitTime total_chunks).

(** The closure armed by handleAudioComplete. *)
Definition drainTimeout : M unit :=
  modify (set_isBuffering true) ;;
  modify (set_isAudioPlaying false) ;;
  s <- get ;;
  when (isConversationActive s && Phase_eqb (conversationState s) Speaking)
    (modify (set_conversationState Listening) ;;
     updateStatus "🎤 Ready for your next message... (speak anytime)" ;;
     emit (Log ReturnedToListening)).

(** The closure armed by handleAudioChunk. *)
Definition safetyTimeout : M unit :=
  s <- get ;;
  when (Phase_eqb (conversationState s) Speaking && isConversationActive s)
    (emit (Log SafetyForcing) ;;
     handleAudioComplete (Z.of_nat (List.length (audioBufferQueue s)) + 1)).

(** *** Message handlers *)

Definition handleTranscriptMessage (text : string) : M unit :=
  s <- get ;;
  when (Phase_eqb (conversationState s) Listening)
    (updateLiveTranscript text ;;
     updateStatus "💂 Listening... (keep speaking)").

Definition handleTurnComplete (final_transcript : string) : M unit :=
  modify (set_conversationState Processing) ;;
  updateStatus "🤖 Processing your message..." ;;
  addMessageToChat "user" final_transcript.

Definition dquote : string := String (Ascii.ascii_of_nat 34) EmptyString.

Definition handleChatStarted (user_message : string) : M unit :=
  updateStatus ("🤖 AI is thinking about: " ++ dquote
                ++ substring 0 30 user_message ++ "..." ++ dquote) ;;
  initializeAudioPlayback.

Definition handleAudioChunk (audio_data : option (list byte)) : M unit :=
  s <- get ;;
  when (negb (Phase_eqb (conversationState s) Speaking))
    (modify (set_conversationState Speaking) ;;
     updateStatus "🔊 AI is speaking...") ;;
  pcmData <- base64ToPCMFloat32 audio_data ;;
  match pcmData with
  | Some ((_ :: _) as pcm) =>
      modify (fun s => set_audioBufferQueue (audioBufferQueue s ++ [pcm]) s) ;;
      s1 <- get ;;
      if isBuffering s1 && (bufferThreshold <=? List.length (audioBufferQueue s1))%nat then
        emit (Log BufferThresholdReached) ;;
        modify (set_isBuffering false) ;;
        modify (set_isAudioPlaying true) ;;
        startBufferedPlayback
      else if negb (isBuffering s1) && (0 <? List.length (audioBufferQueue s1))%nat then
        processBufferedChunks
      else ret tt
  | _ => ret tt
  end ;;
  s2 <- get ;;
  when (negb (isAudioPlaying s2))
    (modify (set_isAudioPlaying true) ;;
     setTimeout SafetyTimeout 15000).

Definition handleLLMResponseComplete (llm_response : string) : M unit :=
  addMessageToChat "ai" llm_response.

Definition handleChatComplete : M unit :=
  resetAudioPlaybackState.

Definition handleWebSocketMessage (data : Message) : M unit :=
  match data with
  | connection => updateStatus "✅ Connected! Start speaking..."
  | session_opened => updateStatus "🎤 Session ready - start speaking!"
  | transcript text => handleTranscriptMessage text
  | turn_complete final_transcript => handleTurnComplete final_transcript
  | chat_started user_message => handleChatStarted user_message
  | audio_chunk _ audio_data => handleAudioChunk audio_data
  | llm_response_complete llm_response => handleLLMResponseComplete llm_response
  | chat_complete => handleChatComplete
  | error msg => updateStatus ("❌ Error: " ++ msg)
  | audio_complete total_chunks => handleAudioComplete total_chunks
  | conversation_ended => updateStatus "👋 Thank you for the conversation!"
  | unknown _ => emit (Log UnknownMessageType)
  end.

(** *** Channel events *)

Definition onclose : M unit :=
  s <- get ;;
  when (isConversationActive s)
    (updateStatus "❌ Connection lost" ;;
     resetToIdle).

Definition onerror : M unit :=
  updateStatus "❌ Connection error" ;;
  resetToIdle.

(** *** Starting a conversation and capturing *)

Definition connectToLLMWebSocket : M unit :=
  modify (set_websocket (Some CONNECTING)).

Definition startConversation : M unit :=
  modify (set_conversationState Listening) ;;
  modify (set_isConversationActive true) ;;
  s <- get ;;
  if negb (is_open (websocket s)) then
    modify (set_chatHistory []) ;;
    updateStatus "🔌 Connecting to AI..." ;;
    connectToLLMWebSocket
  else
    updateStatus "🎤 Listening... Speak now!".

Definition handleConversationButton : M unit :=
  s <- get ;;
  match conversationState s with
  | Idle => startConversation
  | Listening | Processing | Speaking => endConversation
  | Ending => ret tt
  end.

(** A key counts when it is a non-empty string. *)
Definition truthy (k : option string) : bool :=
  match k with Some (String _ _) => true | _ => false end.

(** [websocket.onopen]; with the socket variable already cleared the
    [send] throws and the rest of the handler does not run. *)
Definition onopen : M unit :=
  s <- get ;;
  let k := userApiKeys s in
  if truthy (gemini k) || truthy (weather k) || truthy (murf k) || truthy (assemblyai k) then
    match websocket s with
    | None => ret tt
    | Some _ =>
        emit (SendJson (user_api_keys k)) ;;
        updateStatus "🎤 Requesting microphone access..."
    end
  else updateStatus "🎤 Requesting microphone access...".

(** setupAudioRecording after [getUserMedia] settles: [Some c] is the
    capture context obtained, [None] a rejection or a throwing
    constructor. *)
Definition setupAudioRecording (granted : option CtxState) : M unit :=
  match granted with
  | Some c =>
      modify (set_audioContext (Some c)) ;;
      updateStatus "🎤 Listening... Speak now!"
  | None =>
      updateStatus "❌ Microphone access denied" ;;
      resetToIdle
  end.

(** [processor.onaudioprocess]. *)
Definition onaudioprocess (inputData : list Q) : M unit :=
  s <- get ;;
  if negb (Phase_eqb (conversationState s) Listening) then ret tt
  else
    let outputData := map Pcm.floatToInt16 inputData in
    when (is_open (websocket s)) (emit (SendFrame outputData)).

(** *** The event loop

    One event is one callback run to completion.  [Fire n] runs the
    [n]-th pending task, which the runtime only does once it is due;
    [Elapse] lets time pass (the playback clock advances while its
    context is running); the last two are the browser changing the
    playback context or what its constructors would return. *)

Inductive Event :=
| Click
| WsOpen
| WsMessage (data : Message)
| WsClose
| WsError
| MediaSettled (granted : option CtxState)
| AudioProcess (inputData : list Q)
| Fire (n : nat)
| Elapse (dt : Z)
| PlaybackStateChange (st : CtxState)
| PlatformChange (p : Platform).

Definition runCallback (cb : Callback) : M unit :=
  match cb with
  | SafetyTimeout => safetyTimeout
  | DrainTimeout => drainTimeout
  | GoodbyeTimeout => goodbyeTimeout
  | ResumeThenProcess => processBufferedChunks
  end.

Fixpoint remove_nth {A} (n : nat) (l : list A) : list A :=
  match n, l with
  | _, [] => []
  | O, _ :: t => t
  | S k, x :: t => x :: remove_nth k t
  end.

Definition setReadyState (r : ReadyState) (s : State) : State :=
  match websocket s with
  | Some _ => set_websocket (Some r) s
  | None => s
  end.

Definition advance (dt : Z) (s : State) : State :=
  let s1 := set_clock (clock s + dt) s in
  match audioPlaybackContext s1 with
  | Some c =>
      match ctxState c with
      | running =>
          set_audioPlaybackContext
            (Some {| ctxState := running;
                     currentTime := (currentTime c + (dt # 1000))%Q |}) s1
      | _ => s1
      end
  | None => s1
  end.

Definition step (e : Event) (s : State) : option State :=
  match e with
  | Click => Some (exec handleConversationButton s)
  | WsOpen => Some (exec onopen (setReadyState OPEN s))
  | WsMessage data => Some (exec (handleWebSocketMessage data) s)
  | WsClose => Some (exec onclose (setReadyState CLOSED s))
  | WsError => Some (exec onerror s)
  | MediaSettled granted => Some (exec (setupAudioRecording granted) s)
  | AudioProcess inputData => Some (exec (onaudioprocess inputData) s)
  | Fire n =>
      match nth_error (tasks s) n with
      | Some t =>
          if due t <=? clock s
          then Some (exec (runCallback (callback t)) (set_tasks (remove_nth n (tasks s)) s))
          else None
      | None => None
      end
  | Elapse dt => if 0 <=? dt then Some (advance dt s) else None
  | PlaybackStateChange st =>
      match audioPlaybackContext s with
      | Some c =>
          Some (set_audioPlaybackContext
                  (Some {| ctxState := st; currentTime := currentTime c |}) s)
      | None => Some s
      end
  | PlatformChange p => Some (set_platform p s)
  end.

Fixpoint run (es : list Event) (s : State) : option State :=
  match es with
  | [] => Some s
  | e :: rest =>
      match step e s with
      | Some s' => run rest s'
      | None => None
      end
  end.

End Agent.

(* ================================================================== *)
(** ** Reading runs and traces                                         *)
(* ================================================================== *)

Module Observe.

Import Agent.
Local Open Scope Z_scope.

(** The intervals handed to [source.start], in the order of the calls:
    start time and duration. *)
Fixpoint starts (tr : list Effect) : list (Q * Q) :=
  match tr with
  | [] => []
  | Start w d :: rest => (w, d) :: starts rest
  | _ :: rest => starts rest
  end.

(** Interval [a] ends no later than [b] starts, and starts no later. *)
Definition before (a b : Q * Q) : Prop :=
  (fst a + snd a <= fst b)%Q /\ (fst a <= fst b)%Q.

(** Every interval lies before every later one of the list. *)
Fixpoint non_overlapping (l : list (Q * Q)) : Prop :=
  match l with
  | [] => True
  | a :: rest => Forall (before a) rest /\ non_overlapping rest
  end.

(** What was added to the trace between two states of one run. *)
Definition emitted (s s' : State) : list Effect :=
  skipn (List.length (trace s)) (trace s').

Definition LogLine_eqb (a b : LogLine) : bool :=
  match a, b with
  | BufferThresholdReached, BufferThresholdReached
  | SkippingWavHeader, SkippingWavHeader
  | SafetyForcing, SafetyForcing
  | ReturnedToListening, ReturnedToListening
  | ContextUnavailable, ContextUnavailable
  | SchedulingError, SchedulingError
  | DecodeError, DecodeError
  | ContextNull, ContextNull
  | UnknownMessageType, UnknownMessageType => true
  | _, _ => false
  end.

Definition is_log (l : LogLine) (e : Effect) : bool :=
  match e with Log l' => LogLine_eqb l l' | _ => false end.

Definition count_log (l : LogLine) (tr : list Effect) : nat :=
  List.length (filter (is_log l) tr).

Definition Callback_eqb (a b : Callback) : bool :=
  match a, b with
  | SafetyTimeout, SafetyTimeout | DrainTimeout, DrainTimeout
  | GoodbyeTimeout, GoodbyeTimeout | ResumeThenProcess, ResumeThenProcess => true
  | _, _ => false
  end.

Definition pending (cb : Callback) (ts : list Task) : nat :=
  List.length (filter (fun t => Callback_eqb cb (callback t)) ts).

(** The two notices of a lost channel. *)
Definition connection_notice (e : Effect) : bool :=
  match e with
  | Status msg => String.eqb msg "❌ Connection lost" || String.eqb msg "❌ Connection error"
  | _ => false
  end.

Definition notices (tr : list Effect) : nat :=
  List.length (filter connection_notice tr).

(** [lo] if [x] is below it, [hi] if [x] is above it, [x] otherwise. *)
Definition clamp (x lo hi : Z) : Z :=
  if x <? lo then lo else if hi <? x then hi else x.

(** Does the callback of the [n]-th pending task satisfy [p]? *)
Definition nth_callback (p : Callback -> bool) (s : State) (n : nat) : bool :=
  match nth_error (tasks s) n with
  | Some t => p (callback t)
  | None => false
  end.

(** Events of a Speaking phase that is fed audio chunks: the chunks
    themselves, time passing, the browser acting on the playback context,
    and the continuation of a [resume()]. *)
Definition chunk_event (s : State) (e : Event) : bool :=
  match e with
  | WsMessage (audio_chunk _ _) => true
  | Elapse _ | PlaybackStateChange _ | PlatformChange _ => true
  | Fire n => nth_callback (Callback_eqb ResumeThenProcess) s n
  | _ => false
  end.

(** The same, together with the completion message and the guard and
    drain timers. *)
Definition speaking_event (s : State) (e : Event) : bool :=
  match e with
  | WsMessage (audio_chunk _ _) | WsMessage (audio_complete _) => true
  | Elapse _ | PlaybackStateChange _ | PlatformChange _ => true
  | Fire n => nth_callback (fun cb => negb (Callback_eqb GoodbyeTimeout cb)) s n
  | _ => false
  end.

(** [run] restricted to the events a class allows. *)
Fixpoint run_if (allowed : State -> Event -> bool) (es : list Event) (s : State)
  : option State :=
  match es with
  | [] => Some s
  | e :: rest =>
      if allowed s e then
        match step e s with
        | Some s' => run_if allowed rest s'
        | None => None
        end
      else None
  end.

(** The payload of this event is pushed on the queue: it is an audio
    chunk that decodes to at least one sample. *)
Definition accepted (s : State) (e : Event) : bool :=
  match e with
  | WsMessage (audio_chunk _ audio_data) =>
      match fst (base64ToPCMFloat32 audio_data s) with
      | Some (_ :: _) => true
      | _ => false
      end
  | _ => false
  end.

(** Number of chunks pushed on the queue along a run. *)
Fixpoint received (es : list Event) (s : State) : nat :=
  match es with
  | [] => 0
  | e :: rest =>
      match step e s with
      | Some s' => ((if accepted s e then 1 else 0) + received rest s')%nat
      | None => 0
      end
  end.

(** Decoding the bytes that follow [offset]. *)
Definition decodeAt (offset : nat) (binary : list byte) : option (list Q) :=
  if (List.length binary <? offset)%nat then None
  else Pcm.samples (skipn offset binary).

Definition is_start (e : Effect) : bool :=
  match e with Start _ _ => true | _ => false end.

(** Effects that neither schedule audio nor mark a decision of the
    threshold or of the guard. *)
Definition quiet_effect (e : Effect) : bool :=
  negb (is_start e) && negb (is_log BufferThresholdReached e)
  && negb (is_log SafetyForcing e).

(** What the scheduler itself can emit. *)
Definition scheduler_effect (e : Effect) : bool :=
  match e with
  | Start _ _ | Log ContextUnavailable | Log SchedulingError => true
  | _ => false
  end.

(** Every audio message of the list comes after a [turn_complete]. *)
Fixpoint turn_complete_first (seen : bool) (es : list Event) : bool :=
  match es with
  | [] => true
  | WsMessage (turn_complete _) :: rest => turn_complete_first true rest
  | WsMessage (audio_chunk _ _) :: rest
  | WsMessage (audio_complete _) :: rest => seen && turn_complete_first seen rest
  | _ :: rest => turn_complete_first seen rest
  end.

(** Events other than a further completion: no [audio_complete] message
    and no guard timer running. *)
Definition no_completion (s : State) (e : Event) : bool :=
  match e with
  | WsMessage (audio_complete _) => false
  | Fire n => nth_callback (fun cb => negb (Callback_eqb SafetyTimeout cb)) s n
  | _ => true
  end.

End Observe.

(* ================================================================== *)
(** ** Invariants of the handlers                                      *)
(* ================================================================== *)

Module Invariant.

Import Agent Observe.
Local Open Scope Z_scope.
Local Open Scope agent_scope.

(** [m] keeps [I]: run in a state where [I] holds, it ends in one. *)
Definition preserves {A} (I : State -> Prop) (m : M A) : Prop :=
  forall s, I s -> I (snd (m s)).

(** Two states that differ at most in the scheduler's own variables: the
    queue, the playhead, and what was emitted. *)
Definition only_playback (s s' : State) : Prop :=
  conversationState s' = conversationState s /\
  websocket s' = websocket s /\
  audioContext s' = audioContext s /\
  isConversationActive s' = isConversationActive s /\
  chatHistory s' = chatHistory s /\
  userApiKeys s' = userApiKeys s /\
  audioPlaybackContext s' = audioPlaybackContext s /\
  isBuffering s' = isBuffering s /\
  isAudioPlaying s' = isAudioPlaying s /\
  wavHeaderProcessed s' = wavHeaderProcessed s /\
  platform s' = platform s /\
  clock s' = clock s /\
  tasks s' = tasks s.

(** The phase is anything but Listening. *)
Definition not_listening (s : State) : Prop := conversationState s <> Listening.

(** The phase is Speaking. *)
Definition speaking (s : State) : Prop := conversationState s = Speaking.


(** What has been scheduled since the trace was [base] is in order, ends
    at or before the playhead, and is nothing at all while there is no
    playback context. *)
Definition timeline (base : list Effect) (s : State) : Prop :=
  exists new,
    trace s = base ++ new /\
    non_overlapping (starts new) /\
    Forall (fun iv => (fst iv <= audioPlayheadTime s)%Q /\
                      (fst iv + snd iv <= audioPlayheadTime s)%Q) (starts new) /\
    (audioPlaybackContext s = None -> starts new = []).


(** The three blocks of handleAudioChunk around the decoding: the phase
    change, the [if (pcmData && pcmData.length > 0)] block, and the
    [if (!isAudioPlaying)] block. *)
Definition enterSpeaking : M unit :=
  s <- get ;;
  when (negb (Phase_eqb (conversationState s) Speaking))
    (modify (set_conversationState Speaking) ;;
     updateStatus "🔊 AI is speaking...").

Definition enqueueAndPlay (pcm : list Q) : M unit :=
  modify (fun s => set_audioBufferQueue (audioBufferQueue s ++ [pcm]) s) ;;
  s1 <- get ;;
  if isBuffering s1 && (bufferThreshold <=? List.length (audioBufferQueue s1))%nat then
    emit (Log BufferThresholdReached) ;;
    modify (set_isBuffering false) ;;
    modify (set_isAudioPlaying true) ;;
    startBufferedPlayback
  else if negb (isBuffering s1) && (0 <? List.length (audioBufferQueue s1))%nat then
    processBufferedChunks
  else ret tt.

Definition armSafetyTimeout : M unit :=
  s2 <- get ;;
  when (negb (isAudioPlaying s2))
    (modify (set_isAudioPlaying true) ;;
     setTimeout SafetyTimeout 15000).

(** At most one guard timer has been armed since there were [p0] of them
    pending, and once it is armed the playing flag stays set. *)
Definition one_guard (p0 : nat) (s : State) : Prop :=
  audioPlaybackContext s <> None /\
  (pending SafetyTimeout (tasks s) <= p0 + 1)%nat /\
  (pending SafetyTimeout (tasks s) = (p0 + 1)%nat -> isAudioPlaying s = true).

(** [s'] comes from [s] by statements that leave the scheduler, the flags
    and the timers alone and emit quiet effects only. *)
Definition quiet (s s' : State) : Prop :=
  audioPlaybackContext s' = audioPlaybackContext s /\
  audioPlayheadTime s' = audioPlayheadTime s /\
  audioBufferQueue s' = audioBufferQueue s /\
  isBuffering s' = isBuffering s /\
  isAudioPlaying s' = isAudioPlaying s /\
  isConversationActive s' = isConversationActive s /\
  tasks s' = tasks s /\
  clock s' = clock s /\
  platform s' = platform s /\
  exists l, trace s' = trace s ++ l /\ forallb quiet_effect l = true.

(** The trace of [s] is the trace of [s0] followed by effects that all
    satisfy [P]. *)
Definition extends_with (P : Effect -> bool) (s0 s : State) : Prop :=
  exists l, trace s = trace s0 ++ l /\ forallb P l = true.

(** With a playback context in place and [r] chunks pushed since the
    trace was [base]: either the scheduler is still buffering them, below
    the threshold, with nothing scheduled and no threshold line logged, or
    the threshold has been reached and logged exactly once. *)
Definition buffering_inv (base : list Effect) (r : nat) (s : State) : Prop :=
  audioPlaybackContext s <> None /\
  exists new,
    trace s = base ++ new /\
    ((isBuffering s = true /\
      List.length (audioBufferQueue s) = r /\ (r < bufferThreshold)%nat /\
      starts new = [] /\ count_log BufferThresholdReached new = 0%nat /\
      pending ResumeThenProcess (tasks s) = 0%nat)
     \/
     ((bufferThreshold <= r)%nat /\ isBuffering s = false /\
      count_log BufferThresholdReached new = 1%nat)).

(** No pending drain timer is due before [D]. *)
Definition drains_not_before (D : Z) (s : State) : Prop :=
  Forall (fun t => callback t = DrainTimeout -> D <= due t) (tasks s).

End Invariant.

(* ================================================================== *)
(** ** Concrete sessions                                               *)
(* ================================================================== *)

Module Scenario.

Import Agent Observe.
Local Open Scope Z_scope.

Definition no_keys : ApiKeys :=
  {| gemini := None; weather := None; murf := None; assemblyai := None |}.

(** A browser that hands out running contexts whose clock starts at 0. *)
Definition browser : Platform :=
  {| newPlaybackContext := Some {| ctxState := running; currentTime := 0 |};
     newFallbackContext := Some {| ctxState := running; currentTime := 0 |} |}.

Definition fresh : State := initial no_keys browser.

(** A payload of [n] zero bytes. *)
Definition silence (n : nat) : option (list byte) := Some (repeat x00 n).

(** The user starts a conversation, the socket opens, the microphone is
    granted. *)
Definition connect : list Event :=
  [Click; WsOpen; MediaSettled (Some running)].

(** ... the user's turn ends and the response starts. *)
Definition first_response : list Event :=
  connect ++ [WsMessage (turn_complete "What's the weather");
              WsMessage (chat_started "What's the weather")].

(** The state [es] leads to from [s]; [s] itself if the run is refused. *)
Definition after (es : list Event) (s : State) : State :=
  match run es s with Some s' => s' | None => s end.

(** What [f] reads in the state that [es] leads to from [fresh]. *)
Definition observe {A} (f : State -> A) (es : list Event) : option A :=
  option_map f (run es fresh).

(** The session once the first response has started. *)
Definition responding : State := after first_response fresh.

(** Three chunks of 100 samples; the first carries the 44-byte header. *)
Definition three_chunks : list Event :=
  [WsMessage (audio_chunk 0 (silence 244));
   WsMessage (audio_chunk 1 (silence 200));
   WsMessage (audio_chunk 2 (silence 200))].

Definition responded : State := after three_chunks responding.

(** A one-chunk response, completed and drained. *)
Definition short_response : list Event :=
  first_response ++
  [WsMessage (audio_chunk 0 (silence 48)); WsMessage (audio_complete 1);
   Elapse 2000; Fire 1].

(** A long response whose completion arrives a second before the guard
    timer is due. *)
Definition late_completion : list Event :=
  first_response ++
  [WsMessage (audio_chunk 0 (silence 48)); Elapse 14000;
   WsMessage (audio_complete 10); Elapse 1000].

(** Audio that arrives without a [chat_started] before it. *)
Definition unannounced_audio : list Event :=
  connect ++
  [WsMessage (turn_complete "What's the weather");
   WsMessage (audio_chunk 0 (silence 48));
   WsMessage (audio_chunk 1 (silence 4));
   WsMessage (audio_chunk 2 (silence 4));
   Elapse 15000].

(** A response that is interrupted by a transport error while a chunk is
    queued and a drain timer is pending. *)
Definition interrupted_response : list Event :=
  first_response ++
  [WsMessage (audio_chunk 0 (silence 48)); WsMessage (audio_chunk 1 (silence 4));
   WsMessage (audio_complete 2); WsMessage (audio_chunk 2 (silence 4));
   WsError].


End Scenario.

(* ================================================================== *)
(** ** Sample ranges *)
(* ================================================================== *)

Module Wire.

Import Pcm.
Local Open Scope Z_scope.

(** A value an [Int16Array] element can hold. *)
Definition int16 (v : Z) : Prop := -32768 <= v <= 32767.

(** A normalized sample, as the decoder produces them. *)
Definition normalized (x : Q) : Prop := (-1 <= x)%Q /\ (x < 1)%Q.

End Wire.

(* ================================================================== *)
(** ** Batches of the scheduler *)
(* ================================================================== *)

Module Batch.

Import Agent Observe Invariant.
Local Open Scope Z_scope.

(** [buffer.duration] of the buffer made from a chunk: its frame count
    over the sample rate. *)
Definition chunk_duration (chunk : list Q) : Q :=
  (Z.of_nat (List.length chunk) # AUDIO_SAMPLE_RATE)%Q.

(** The test that opens scheduleChunkAtPlayhead passes: there is a
    playback context and it is not closed. *)
Definition usable (s : State) : bool :=
  match audioPlaybackContext s with
  | Some ctx => negb (is_closed ctx)
  | None => false
  end.

(** Where a chunk starts: at the playhead, or just after the clock when
    the playhead is not ahead of it. *)
Definition snap (now playhead : Q) : Q :=
  if Qle_bool playhead now then (now + (1 # 100))%Q else playhead.

(** Chunks played one after the other from [start] on: the start and the
    duration of each. *)
Fixpoint back_to_back (start : Q) (chunks : list (list Q)) : list (Q * Q) :=
  match chunks with
  | [] => []
  | chunk :: rest =>
      (start, chunk_duration chunk)
      :: back_to_back (start + chunk_duration chunk)%Q rest
  end.

(** Where the last of the chunks ends when they are played one after the
    other from [start] on. *)
Definition finish (start : Q) (chunks : list (list Q)) : Q :=
  fold_left (fun p chunk => (p + chunk_duration chunk)%Q) chunks start.

(** What has been scheduled since the trace was [base] starts after [now]
    and not before the origin of the audio clock. *)
Definition ahead_of (now : Q) (base : list Effect) (s : State) : Prop :=
  exists new,
    trace s = base ++ new /\
    Forall (fun iv => (now < fst iv)%Q /\ (0 <= fst iv)%Q) (starts new).

(** The playhead has not gone below [p]. *)
Definition playhead_from (p : Q) (s : State) : Prop :=
  (p <= audioPlayheadTime s)%Q.

(** No chunk of the queue is empty. *)
Definition no_empty_chunk (s : State) : Prop :=
  Forall (fun chunk => chunk <> []) (audioBufferQueue s).

(** Every chunk of the queue is what the decoder returns for a payload it
    accepts: at least one sample, each of them normalized. *)
Definition queue_is_decoded (s : State) : Prop :=
  Forall (fun chunk => chunk <> [] /\ Forall Wire.normalized chunk) (audioBufferQueue s).

End Batch.

(* ================================================================== *)
(** ** States of concrete sessions *)
(* ================================================================== *)

Module Moments.

Import Agent Observe Scenario.
Local Open Scope Z_scope.

(** Half a second into a response, two chunks of 100 samples are queued
    and the scheduler is still buffering: the playhead (0.1 s) is behind
    the audio clock (0.5 s). *)
Definition two_queued : State :=
  after [WsMessage (audio_chunk 0 (silence 244));
         WsMessage (audio_chunk 1 (silence 200)); Elapse 500] responding.

(** The same two chunks after the session was torn down by a transport
    error: they are still queued, and there is no playback context. *)
Definition torn_down : State := after [WsError] two_queued.

(** Seven chunks queued.  The playback context is suspended while they
    arrive, so reaching the threshold only leaves a [resume()] pending,
    and each of four drain timers (armed by four completion messages) puts
    the scheduler back into buffering before the next chunk; the context
    is running again at the end. *)
Definition seven_queued : State :=
  after [PlaybackStateChange suspended;
         WsMessage (audio_complete 1); WsMessage (audio_complete 1);
         WsMessage (audio_complete 1); WsMessage (audio_complete 1);
         WsMessage (audio_chunk 0 (silence 244));
         WsMessage (audio_chunk 1 (silence 200));
         WsMessage (audio_chunk 2 (silence 100));
         Elapse 2000;
         Fire 0; WsMessage (audio_chunk 3 (silence 200));
         Fire 0; WsMessage (audio_chunk 4 (silence 100));
         Fire 0; WsMessage (audio_chunk 5 (silence 200));
         Fire 0; WsMessage (audio_chunk 6 (silence 100));
         PlaybackStateChange running] responding.

(** Two chunks queued with no [chat_started] before them: no playback
    context has been created. *)
Definition unannounced : State :=
  after (connect ++ [WsMessage (turn_complete "What's the weather");
                     WsMessage (audio_chunk 0 (silence 48));
                     WsMessage (audio_chunk 1 (silence 4))]) fresh.

(** A response during which [chat_complete] arrives after three chunks
    and three more chunks follow, with no time passing. *)
Definition reset_in_phase : list Event :=
  three_chunks ++ [WsMessage chat_complete] ++ three_chunks.

(** A long response whose completion arrives at 14000 ms; the guard
    timer runs at 15000 ms and the drain timer it arms at 17000 ms. *)
Definition forced_after_completion : list Event :=
  late_completion ++ [Fire 0; Elapse 2000; Fire 1].

(** The session of [late_completion] when the completion message arrives,
    and when the guard's drain timer is due. *)
Definition completion_arrives : State := after (firstn 7 late_completion) fresh.

Definition forced_drain_due : State :=
  after (late_completion ++ [Fire 0; Elapse 2000]) fresh.

(** A browser whose [AudioContext] constructor rejects the sample rate
    asked for and accepts the default one. *)
Definition fallback_browser : Platform :=
  {| newPlaybackContext := None;
     newFallbackContext := Some {| ctxState := running; currentTime := 0 |} |}.

End Moments.

(* ================================================================== *)
(** ** Sessions: phases, history, timers and frames *)
(* ================================================================== *)

Module Session.

Import Agent Observe Invariant.
Local Open Scope Z_scope.

(** The phases of a turn: the button reads "End Conversation". *)
Definition in_turn (p : Phase) : bool :=
  match p with
  | Listening | Processing | Speaking => true
  | Idle | Ending => false
  end.

(** An active session is in one of the phases of a turn. *)
Definition active_in_turn (s : State) : Prop :=
  isConversationActive s = true -> in_turn (conversationState s) = true.

(** In the Idle phase there is no socket. *)
Definition idle_disconnected (s : State) : Prop :=
  conversationState s = Idle -> websocket s = None.

(** In the Ending phase a goodbye timer is pending. *)
Definition ending_has_goodbye (s : State) : Prop :=
  conversationState s = Ending -> (0 < pending GoodbyeTimeout (tasks s))%nat.

Definition is_frame (e : Effect) : bool :=
  match e with SendFrame _ => true | _ => false end.

(** Messages that only report: the connection and session notices, a live
    transcript, a server error, the end of the conversation, and any
    message of a type the dispatcher does not know. *)
Definition informational (data : Message) : bool :=
  match data with
  | connection | session_opened | transcript _ | error _
  | conversation_ended | unknown _ => true
  | _ => false
  end.

(** All of a state but its trace. *)
Definition same_but_trace (s s' : State) : Prop :=
  conversationState s' = conversationState s /\
  websocket s' = websocket s /\
  audioContext s' = audioContext s /\
  isConversationActive s' = isConversationActive s /\
  chatHistory s' = chatHistory s /\
  userApiKeys s' = userApiKeys s /\
  audioPlaybackContext s' = audioPlaybackContext s /\
  audioPlayheadTime s' = audioPlayheadTime s /\
  audioBufferQueue s' = audioBufferQueue s /\
  isBuffering s' = isBuffering s /\
  isAudioPlaying s' = isAudioPlaying s /\
  wavHeaderProcessed s' = wavHeaderProcessed s /\
  platform s' = platform s /\
  clock s' = clock s /\
  tasks s' = tasks s.

(** The history an event leaves behind. *)
Definition history_after (e : Event) (s : State) : list Turn :=
  match e with
  | Click =>
      if Phase_eqb (conversationState s) Idle && negb (is_open (websocket s))
      then [] else chatHistory s
  | WsMessage (turn_complete final_transcript) =>
      chatHistory s
      ++ [{| sender := "user"; message := final_transcript; timestamp := clock s |}]
  | WsMessage (llm_response_complete llm_response) =>
      chatHistory s
      ++ [{| sender := "ai"; message := llm_response; timestamp := clock s |}]
  | _ => chatHistory s
  end.

(** The pending tasks an event leaves behind are those it found, less the
    one it ran, followed by those it armed. *)
Definition tasks_kept (e : Event) (s : State) : list Task :=
  match e with
  | Fire n => remove_nth n (tasks s)
  | _ => tasks s
  end.

(** The messages whose handlers reset the playback state. *)
Definition resets_playback (e : Event) : bool :=
  match e with
  | WsMessage (chat_started _) | WsMessage chat_complete => true
  | _ => false
  end.

(** [run] within one Speaking phase and between two resets: no event of
    the list resets the playback state, and the phase is Speaking after
    each of them. *)
Fixpoint run_in_phase (es : list Event) (s : State) : option State :=
  match es with
  | [] => Some s
  | e :: rest =>
      if resets_playback e then None
      else
        match step e s with
        | Some s' =>
            if Phase_eqb (conversationState s') Speaking
            then run_in_phase rest s' else None
        | None => None
        end
  end.

(** No pending drain timer is due before [D], and [D] is no later than
    the shortest drain delay from now. *)
Definition drain_floor (D : Z) (s : State) : Prop :=
  drains_not_before D s /\ D <= clock s + 2000.

(** The transition table: the phase an event leaves behind. *)
Definition phase_after (e : Event) (s : State) : Phase :=
  match e with
  | Click =>
      match conversationState s with
      | Idle => Listening
      | Listening | Processing | Speaking | Ending => Ending
      end
  | WsMessage (turn_complete _) => Processing
  | WsMessage (audio_chunk _ _) => Speaking
  | WsClose => if isConversationActive s then Idle else conversationState s
  | WsError => Idle
  | MediaSettled None => Idle
  | Fire n =>
      match nth_error (tasks s) n with
      | Some t =>
          match callback t with
          | DrainTimeout =>
              if isConversationActive s && Phase_eqb (conversationState s) Speaking
              then Listening else conversationState s
          | GoodbyeTimeout => Idle
          | SafetyTimeout | ResumeThenProcess => conversationState s
          end
      | None => conversationState s
      end
  | _ => conversationState s
  end.

(** The phase is [p]. *)
Definition phase_is (p : Phase) (s : State) : Prop := conversationState s = p.

(** The history is [h]. *)
Definition history_is (h : list Turn) (s : State) : Prop := chatHistory s = h.

(** It is [now], and the pending tasks are those of [base] followed by
    tasks armed since, none of them due before [now]. *)
Definition tasks_from (base : list Task) (now : Z) (s : State) : Prop :=
  clock s = now /\
  exists armed, tasks s = base ++ armed /\ Forall (fun t => now <= due t) armed.

(** No frame among the effects. *)
Definition no_frame (e : Effect) : bool := negb (is_frame e).

(** What an audio callback sends: the converted block, while the phase
    is Listening and the socket is open. *)
Definition frame_of (inputData : list Q) (s : State) : list Effect :=
  if Phase_eqb (conversationState s) Listening && is_open (websocket s)
  then [SendFrame (map Pcm.floatToInt16 inputData)] else [].

(** The scheduler is as resetAudioPlaybackState leaves it. *)
Definition freshly_reset (s : State) : Prop :=
  audioBufferQueue s = [] /\ isBuffering s = true /\ isAudioPlaying s = false /\
  wavHeaderProcessed s = false /\
  audioPlayheadTime s
  = match audioPlaybackContext s with
    | Some ctx => (currentTime ctx + (1 # 10))%Q
    | None => 0%Q
    end.

(** The scheduler's own variables are those of [s]. *)
Definition scheduler_untouched (s s' : State) : Prop :=
  audioBufferQueue s' = audioBufferQueue s /\ isBuffering s' = isBuffering s /\
  isAudioPlaying s' = isAudioPlaying s /\
  wavHeaderProcessed s' = wavHeaderProcessed s /\
  audioPlayheadTime s' = audioPlayheadTime s.

End Session.

(* ================================================================== *)
(** ** The settings modal and the stored keys *)
(* ================================================================== *)

Module Settings.

Import Agent.
Local Open Scope Z_scope.
Local Open Scope agent_scope.

(** The values of the four input elements of the settings modal. *)
Record Inputs := {
  gemini_key : string; weather_key : string;
  murf_key : string; assemblyai_key : string
}.

(** The page around the client state: the settings modal, the
    ['userApiKeys'] item of [sessionStorage] (kept as the object its JSON
    text denotes), whether [setItem] would throw, and the due times of the
    status resets that saveApiKeys has armed. *)
Record Page := {
  app : State;
  fields : Inputs;
  modalActive : bool;
  storedKeys : option ApiKeys;
  quotaExceeded : bool;
  statusResets : list Z
}.

Definition set_userApiKeys (v : ApiKeys) (s : State) : State :=
  {| conversationState := conversationState s; websocket := websocket s;
     audioContext := audioContext s;
     isConversationActive := isConversationActive s;
     chatHistory := chatHistory s; userApiKeys := v;
     audioPlaybackContext := audioPlaybackContext s;
     audioPlayheadTime := audioPlayheadTime s;
     audioBufferQueue := audioBufferQueue s;
     isBuffering := isBuffering s; isAudioPlaying := isAudioPlaying s;
     wavHeaderProcessed := wavHeaderProcessed s;
     platform := platform s; clock := clock s; tasks := tasks s;
     trace := trace s |}.

Definition with_app (f : State -> State) (p : Page) : Page :=
  {| app := f (app p); fields := fields p; modalActive := modalActive p;
     storedKeys := storedKeys p; quotaExceeded := quotaExceeded p;
     statusResets := statusResets p |}.

(** [value || null]. *)
Definition orNull (value : string) : option string :=
  match value with
  | EmptyString => None
  | _ => Some value
  end.

(** [key || '']. *)
Definition orEmpty (key : option string) : string :=
  match key with
  | Some value => value
  | None => EmptyString
  end.

Definition noKeys : ApiKeys :=
  {| gemini := None; weather := None; murf := None; assemblyai := None |}.

Definition loadSavedApiKeys (p : Page) : Page :=
  match storedKeys p with
  | Some savedKeys => with_app (set_userApiKeys savedKeys) p
  | None => p
  end.

(** What initializeSettings does besides attaching listeners. *)
Definition initializeSettings (p : Page) : Page := loadSavedApiKeys p.

Definition openSettingsModal (p : Page) : Page :=
  let k := userApiKeys (app p) in
  {| app := app p;
     fields := {| gemini_key := orEmpty (gemini k); weather_key := orEmpty (weather k);
                  murf_key := orEmpty (murf k);
                  assemblyai_key := orEmpty (assemblyai k) |};
     modalActive := true;
     storedKeys := storedKeys p; quotaExceeded := quotaExceeded p;
     statusResets := statusResets p |}.

Definition closeSettingsModal (p : Page) : Page :=
  {| app := app p; fields := fields p; modalActive := false;
     storedKeys := storedKeys p; quotaExceeded := quotaExceeded p;
     statusResets := statusResets p |}.

(** [trim] stands for [String.prototype.trim]. *)
Definition saveApiKeys (trim : string -> string) (p : Page) : Page :=
  let userApiKeys' :=
    {| gemini := orNull (trim (gemini_key (fields p)));
       weather := orNull (trim (weather_key (fields p)));
       murf := orNull (trim (murf_key (fields p)));
       assemblyai := orNull (trim (assemblyai_key (fields p))) |} in
  let p1 := with_app (set_userApiKeys userApiKeys') p in
  if quotaExceeded p then
    with_app (exec (updateStatus "❌ Error saving API keys")) p1
  else
    let p2 := with_app (exec (updateStatus "✅ API keys saved successfully!")) p1 in
    {| app := app p2; fields := fields p2; modalActive := false;
       storedKeys := Some userApiKeys'; quotaExceeded := quotaExceeded p2;
       statusResets := statusResets p2 ++ [clock (app p2) + 3000] |}.

(** The closure armed by saveApiKeys. *)
Definition statusReset : M unit :=
  s <- get ;;
  when (Phase_eqb (conversationState s) Idle)
    (updateStatus "Ready to start your conversation with AI...").

Definition clearApiKeys (p : Page) : Page :=
  {| app := exec (updateStatus "🗑️ All API keys cleared!")
              (set_userApiKeys noKeys (app p));
     fields := {| gemini_key := EmptyString; weather_key := EmptyString;
                  murf_key := EmptyString; assemblyai_key := EmptyString |};
     modalActive := modalActive p;
     storedKeys := None; quotaExceeded := quotaExceeded p;
     statusResets := statusResets p |}.

(** The four values, trimmed. *)
Definition trimmed (trim : string -> string) (i : Inputs) : Inputs :=
  {| gemini_key := trim (gemini_key i); weather_key := trim (weather_key i);
     murf_key := trim (murf_key i); assemblyai_key := trim (assemblyai_key i) |}.

Definition is_empty (v : string) : bool :=
  match v with EmptyString => true | _ => false end.

(** All four values are empty. *)
Definition all_empty (i : Inputs) : bool :=
  is_empty (gemini_key i) && is_empty (weather_key i)
  && is_empty (murf_key i) && is_empty (assemblyai_key i).

(** The configuration messages among the effects. *)
Definition key_messages (tr : list Effect) : list ApiKeys :=
  flat_map (fun e => match e with SendJson (user_api_keys k) => [k] | _ => [] end) tr.

(** The page of a session whose socket is connecting, with one key typed
    into the modal. *)
Definition typing : Page :=
  {| app := exec handleConversationButton
              (initial noKeys {| newPlaybackContext := None; newFallbackContext := None |});
     fields := {| gemini_key := "AIza-123"; weather_key := EmptyString;
                  murf_key := EmptyString; assemblyai_key := EmptyString |};
     modalActive := true; storedKeys := None; quotaExceeded := false;
     statusResets := [] |}.

(** A key is either absent or a non-empty string. *)
Definition well_kept (k : option string) : Prop := k <> Some EmptyString.

End Settings.

(* ================================================================== *)
(** ** Capture and playback conversions                                *)
(* ================================================================== *)

Module PcmFacts.

Import Pcm.
Local Open Scope Q_scope.

Lemma truncate_nonneg (c : Q) : 0 <= c -> truncate c = Qfloor c.
Proof.
  destruct c as [n d]. unfold truncate, Qfloor, Qle. simpl. intros H.
  apply Z.quot_div_nonneg; lia.
Qed.

Lemma truncate_nonpos (c : Q) : c <= 0 -> truncate c = Qceiling c.
Proof.
  destruct c as [n d]. unfold truncate, Qceiling, Qfloor, Qle, Qopp. simpl. intros H.
  assert (Hn : (n = - - n)%Z) by lia. rewrite Hn at 1.
  rewrite Z.quot_opp_l by lia. f_equal. apply Z.quot_div_nonneg; lia.
Qed.

(** Truncation moves a number by less than one, toward zero. *)
Lemma truncate_close (c : Q) :
  (0 <= c -> inject_Z (truncate c) <= c /\ c < inject_Z (truncate c) + 1) /\
  (c <= 0 -> c <= inject_Z (truncate c) /\ inject_Z (truncate c) - 1 < c).
Proof.
  split; intros H.
  - rewrite truncate_nonneg by exact H. split.
    + apply Qfloor_le.
    + generalize (Qlt_floor c). rewrite inject_Z_plus. simpl. auto.
  - rewrite truncate_nonpos by exact H. split.
    + apply Qle_ceiling.
    + generalize (Qceiling_lt c). unfold Z.sub. rewrite inject_Z_plus. simpl. auto.
Qed.

Lemma truncate_bounds (a b : Z) (c : Q) :
  (a <= 0 <= b)%Z -> inject_Z a <= c -> c <= inject_Z b ->
  (a <= truncate c <= b)%Z.
Proof.
  intros [Ha Hb] Hac Hcb.
  destruct (Qlt_le_dec c 0) as [Hneg | Hpos].
  - rewrite truncate_nonpos by (apply Qlt_le_weak; exact Hneg). split.
    + rewrite <- (Qceiling_Z a). apply Qceiling_resp_le. exact Hac.
    + apply Z.le_trans with 0%Z; [| exact Hb].
      change 0%Z with (Qceiling 0). apply Qceiling_resp_le. apply Qlt_le_weak. exact Hneg.
  - rewrite truncate_nonneg by exact Hpos. split.
    + apply Z.le_trans with 0%Z; [exact Ha|].
      change 0%Z with (Qfloor 0). apply Qfloor_resp_le. exact Hpos.
    + rewrite <- (Qfloor_Z b). apply Qfloor_resp_le. exact Hcb.
Qed.

(** Inside the 16-bit range the store into the [Int16Array] only
    truncates: the reduction modulo 2^16 changes nothing. *)
Lemma toInt16_in_range (c : Q) :
  inject_Z (-32768) <= c -> c <= inject_Z 32767 -> toInt16 c = truncate c.
Proof.
  intros H1 H2. unfold toInt16.
  pose proof (truncate_bounds (-32768) 32767 c ltac:(lia) H1 H2) as [Hl Hu].
  destruct (Z_lt_le_dec (truncate c) 0) as [Hn | Hp].
  - assert (E : (truncate c mod 65536 = truncate c + 65536)%Z).
    { symmetry. apply Z.mod_unique with (-1)%Z; lia. }
    rewrite E. destruct (Z.leb_spec 32768 (truncate c + 65536)); lia.
  - rewrite Z.mod_small by lia.
    destruct (Z.leb_spec 32768 (truncate c)); lia.
Qed.

(** C6. A sample [x] in [-1, 1] that goes through the capture conversion
    (scale by 32768, clamp to [-32768, 32767], truncate into an
    [Int16Array]) and then through the playback conversion (divide by
    32768) comes back as a value in [-1, 1) that differs from [x] by at
    most one quantization step, 1/32768. *)
Theorem capture_playback_roundtrip (x : Q) :
  -1 <= x -> x <= 1 ->
  -1 <= int16ToFloat (floatToInt16 x) /\
  int16ToFloat (floatToInt16 x) < 1 /\
  Qabs (int16ToFloat (floatToInt16 x) - x) <= 1 # 32768.
Proof.
  intros Hlo Hhi. unfold floatToInt16.
  set (c := Qmax (inject_Z (-32768)) (Qmin (inject_Z 32767) (x * inject_Z 32768))).
  assert (Hc1 : inject_Z (-32768) <= c) by apply Q.le_max_l.
  assert (Hc2 : c <= inject_Z 32767).
  { apply Q.max_lub; [discriminate | apply Q.le_min_l]. }
  rewrite (toInt16_in_range c Hc1 Hc2).
  pose proof (truncate_bounds (-32768) 32767 c ltac:(lia) Hc1 Hc2) as [Hl Hu].
  pose proof (truncate_close c) as [Hpos Hneg].
  assert (Hcx : (x * inject_Z 32768 <= inject_Z 32767 /\ c == x * inject_Z 32768)
                \/ (inject_Z 32767 < x * inject_Z 32768 /\ c == inject_Z 32767)).
  { subst c. destruct (Qlt_le_dec (inject_Z 32767) (x * inject_Z 32768)) as [H | H].
    - right. split; [exact H|].
      rewrite (Q.min_l (inject_Z 32767)) by (apply Qlt_le_weak; exact H).
      apply Q.max_r. discriminate.
    - left. split; [exact H|].
      rewrite (Q.min_r (inject_Z 32767)) by exact H.
      apply Q.max_r. unfold inject_Z in *. lra. }
  assert (Htop : inject_Z 32767 <= c -> truncate c = 32767%Z).
  { intros H. assert (E : c == inject_Z 32767) by (apply Qle_antisym; assumption).
    rewrite truncate_nonneg by (rewrite E; discriminate).
    rewrite E. apply Qfloor_Z. }
  rewrite Zle_Qle in Hl, Hu.
  unfold int16ToFloat.
  assert (Hdiv : forall t, t / inject_Z 32768 == t * (1 # 32768)) by reflexivity.
  rewrite Hdiv. clear Hdiv.
  rewrite Qabs_Qle_condition.
  destruct Hcx as [[Hx E] | [Hx E]].
  - clear Htop. clearbody c.
    generalize dependent (inject_Z (truncate c)). intros t Hl Hu Hpos Hneg.
    unfold inject_Z in Hl, Hu, Hc1, Hc2, Hx, E.
    destruct (Qlt_le_dec c 0) as [Hc | Hc].
    + destruct (Hneg (Qlt_le_weak _ _ Hc)) as [Ht1 Ht2]. clear Hpos Hneg.
      repeat split; lra.
    + destruct (Hpos Hc) as [Ht1 Ht2]. clear Hpos Hneg.
      repeat split; lra.
  - rewrite Htop by (rewrite E; apply Qle_refl).
    unfold inject_Z in *. repeat split; lra.
Qed.

(** The round trip at full scale, where the clamp acts, and at a third. *)
Lemma roundtrip_at_full_scale :
  (-1 <= 1 /\ 1 <= 1) /\
  -1 <= int16ToFloat (floatToInt16 1) /\
  int16ToFloat (floatToInt16 1) < 1 /\
  Qabs (int16ToFloat (floatToInt16 1) - 1) <= 1 # 32768.
Proof.
  split; [ split; unfold Qle; simpl; lia | ].
  apply (capture_playback_roundtrip 1); unfold Qle; simpl; lia.
Defined.

Example roundtrip_values :
  floatToInt16 1 = 32767%Z /\ floatToInt16 (-1) = (-32768)%Z /\
  floatToInt16 (1 # 3) = 10922%Z /\ floatToInt16 (- (1 # 3)) = (-10922)%Z /\
  floatToInt16 (3 # 2) = 32767%Z /\
  int16ToFloat (floatToInt16 1) == 32767 # 32768.
Proof. repeat split; vm_compute; reflexivity. Qed.

End PcmFacts.

(* ================================================================== *)
(** ** Sequencing rules and what the scheduler leaves alone *)
(* ================================================================== *)

Module Frame.

Import Agent Observe Invariant Scenario.
Local Open Scope Z_scope.
Local Open Scope agent_scope.

(** Splits a conjunction of closed facts and evaluates each one. *)
Ltac by_running :=
  repeat match goal with |- _ /\ _ => split end;
  vm_compute; first [ reflexivity | discriminate ].

Ltac run_monad :=
  cbv [exec bind ret get modify when emit updateStatus updateLiveTranscript
       setTimeout thenRun];
  cbn [fst snd].

Lemma pres_ret {A} (I : State -> Prop) (a : A) : preserves I (ret a).
Proof. intros s H. exact H. Qed.

Lemma pres_get (I : State -> Prop) : preserves I get.
Proof. intros s H. exact H. Qed.

Lemma pres_bind {A B} (I : State -> Prop) (m : M A) (k : A -> M B) :
  preserves I m -> (forall a, preserves I (k a)) -> preserves I (bind m k).
Proof. intros Hm Hk s H. unfold bind. apply Hk, Hm, H. Qed.

Lemma pres_modify (I : State -> Prop) (f : State -> State) :
  (forall s, I s -> I (f s)) -> preserves I (modify f).
Proof. intros Hf s H. apply Hf, H. Qed.

Lemma pres_when (I : State -> Prop) (b : bool) (m : M unit) :
  preserves I m -> preserves I (when b m).
Proof. intros Hm. destruct b; [exact Hm | apply pres_ret]. Qed.

(** *** The monad, traces and task lists *)

Lemma exec_bind {A B} (m : M A) (k : A -> M B) s :
  exec (bind m k) s = exec (k (fst (m s))) (exec m s).
Proof. reflexivity. Qed.

Lemma exec_get_bind {B} (k : State -> M B) s : exec (bind get k) s = exec (k s) s.
Proof. reflexivity. Qed.

Lemma exec_seq {A B} (I : State -> Prop) (m : M A) (k : A -> M B) s :
  I (exec m s) -> (forall a, preserves I (k a)) -> I (exec (bind m k) s).
Proof. intros Hm Hk. rewrite exec_bind. apply Hk, Hm. Qed.

Lemma emitted_app s s' l : trace s' = trace s ++ l -> emitted s s' = l.
Proof.
  unfold emitted. intros ->. induction (trace s); cbn; auto.
Qed.

Lemma emitted_same s s' : trace s' = trace s -> emitted s s' = [].
Proof. intros H. apply emitted_app. rewrite app_nil_r. exact H. Qed.

Lemma Callback_eqb_eq a b : Callback_eqb a b = true <-> a = b.
Proof. destruct a, b; cbn; split; congruence. Qed.

Lemma run_if_run allowed es s s' : run_if allowed es s = Some s' -> run es s = Some s'.
Proof.
  revert s. induction es as [|e es IH]; intros s; cbn; [ auto | ].
  destruct (allowed s e); [ | discriminate ].
  destruct (step e s); [ apply IH | discriminate ].
Qed.

Lemma pres_ext {A} (I : State -> Prop) (m m' : M A) :
  (forall s, m s = m' s) -> preserves I m' -> preserves I m.
Proof. intros E H s Hs. rewrite E. apply H, Hs. Qed.

Lemma pending_app cb l1 l2 :
  pending cb (l1 ++ l2) = (pending cb l1 + pending cb l2)%nat.
Proof. unfold pending. rewrite filter_app, length_app. reflexivity. Qed.

Lemma pending_remove_nth cb n l t :
  nth_error l n = Some t -> Callback_eqb cb (callback t) = false ->
  pending cb (remove_nth n l) = pending cb l.
Proof.
  revert l. induction n as [|n IH]; intros [|x l] Hn Hcb; try discriminate.
  - cbn in Hn. injection Hn as ->. unfold pending. cbn. rewrite Hcb. reflexivity.
  - cbn in Hn. specialize (IH l Hn Hcb). unfold pending in *. cbn.
    destruct (Callback_eqb cb (callback x)); cbn; rewrite IH; reflexivity.
Qed.

Lemma count_log_app x l1 l2 :
  count_log x (l1 ++ l2) = (count_log x l1 + count_log x l2)%nat.
Proof. unfold count_log. rewrite filter_app, length_app. reflexivity. Qed.

Lemma starts_app a b : starts (a ++ b) = starts a ++ starts b.
Proof.
  induction a as [|e a IH]; [ reflexivity | ].
  destruct e; cbn; rewrite ?IH; reflexivity.
Qed.

Lemma pending_positive cb n l t :
  nth_error l n = Some t -> Callback_eqb cb (callback t) = true ->
  (0 < pending cb l)%nat.
Proof.
  revert l. induction n as [|n IH]; intros [|x l] Hn Hcb; try discriminate.
  - cbn in Hn. injection Hn as ->. unfold pending. cbn. rewrite Hcb. cbn. lia.
  - cbn in Hn. specialize (IH l Hn Hcb). unfold pending in *. cbn.
    destruct (Callback_eqb cb (callback x)); cbn; lia.
Qed.

Lemma pending_none cb l :
  pending cb l = 0%nat -> Forall (fun t => callback t <> cb) l.
Proof.
  unfold pending. induction l as [|t l IH]; cbn; [ constructor | ].
  destruct (Callback_eqb cb (callback t)) eqn:E; cbn; [ discriminate | ].
  intros H. constructor; [ | apply IH, H ].
  intros Ec. rewrite Ec in E. destruct cb; discriminate.
Qed.


Lemma Qle_bool_false a b : Qle_bool a b = false -> (b < a)%Q.
Proof.
  intros H. apply Qnot_le_lt. intros Hle.
  apply Qle_bool_iff in Hle. congruence.
Qed.

(** *** What the scheduler leaves alone *)

Lemma only_playback_refl s : only_playback s s.
Proof. repeat split. Qed.

Lemma only_playback_trans s1 s2 s3 :
  only_playback s1 s2 -> only_playback s2 s3 -> only_playback s1 s3.
Proof.
  unfold only_playback. intros H12 H23.
  repeat match goal with H : _ /\ _ |- _ => destruct H end.
  repeat split; congruence.
Qed.

(** Breaks a handler into its statements; what is left are the side
    conditions of the assignments and the calls. *)
Ltac pres_steps :=
  repeat
    match goal with
    | |- preserves _ (let _ := _ in _) => cbv zeta
    | |- preserves _ (ret _) => apply pres_ret
    | |- preserves _ get => apply pres_get
    | |- preserves _ (bind _ _) => apply pres_bind; [ | intros ? ]
    | |- preserves _ (when _ _) => apply pres_when
    | |- preserves _ (modify _) => apply pres_modify; intros ? ?
    | |- preserves _ (emit _) => unfold emit
    | |- preserves _ (updateStatus _) => unfold updateStatus
    | |- preserves _ (updateLiveTranscript _) => unfold updateLiveTranscript
    | |- preserves _ (setTimeout _ _) => unfold setTimeout
    | |- preserves _ (thenRun _) => unfold thenRun
    | |- preserves _ (if ?b then _ else _) => destruct b
    | |- preserves _ (match ?x with _ => _ end) => destruct x
    end.

Lemma scheduleChunkAtPlayhead_playback s0 chunk :
  preserves (only_playback s0) (scheduleChunkAtPlayhead chunk).
Proof.
  unfold scheduleChunkAtPlayhead, emit. pres_steps; assumption.
Qed.

Lemma shift_playback s0 : preserves (only_playback s0) shift.
Proof.
  intros s H. unfold shift. destruct (audioBufferQueue s); exact H.
Qed.

Lemma scheduleLoop_playback s0 n : preserves (only_playback s0) (scheduleLoop n).
Proof.
  induction n; cbn [scheduleLoop]; pres_steps;
    auto using shift_playback, scheduleChunkAtPlayhead_playback.
Qed.

Lemma processBufferedChunks_playback s :
  only_playback s (exec processBufferedChunks s).
Proof.
  unfold processBufferedChunks, exec, bind, get. cbn [fst snd].
  apply scheduleLoop_playback, only_playback_refl.
Qed.

Lemma drainTimeout_phase s :
  conversationState (exec drainTimeout s)
    = if isConversationActive s && Phase_eqb (conversationState s) Speaking
      then Listening else conversationState s.
Proof.
  unfold drainTimeout. run_monad. cbn.
  destruct (isConversationActive s && Phase_eqb (conversationState s) Speaking);
    reflexivity.
Qed.

Lemma waitTime_bounds n : 2000 <= waitTime n <= 5000.
Proof. unfold waitTime. lia. Qed.

Lemma waitTime_clamp n : waitTime n = clamp (n * 1000) 2000 5000.
Proof.
  unfold waitTime, clamp.
  destruct (Z.ltb_spec (n * 1000) 2000), (Z.ltb_spec 5000 (n * 1000)); lia.
Qed.

Lemma pres_processBufferedChunks (I : State -> Prop) :
  (forall s s', only_playback s s' -> I s -> I s') ->
  preserves I processBufferedChunks.
Proof.
  intros HI s H. apply (HI s); [ apply processBufferedChunks_playback | exact H ].
Qed.

Ltac unfold_handlers :=
  cbv delta [handleWebSocketMessage handleTranscriptMessage handleTurnComplete
             handleChatStarted handleAudioChunk handleLLMResponseComplete
             handleChatComplete handleAudioComplete
             startBufferedPlayback initializeAudioPlayback resetAudioPlaybackState
             base64ToPCMFloat32 addMessageToChat
             onclose onerror onopen setupAudioRecording onaudioprocess
             handleConversationButton startConversation connectToLLMWebSocket
             endConversation resetToIdle closeConnections goodbyeTimeout
             safetyTimeout drainTimeout runCallback
             emit updateStatus updateLiveTranscript setTimeout thenRun] ;
  cbv beta iota zeta.
End Frame.

(* ================================================================== *)
(** ** Phase transitions, channel events and teardown *)
(* ================================================================== *)

Module Transitions.

Import Agent Observe Invariant Scenario.
Local Open Scope Z_scope.
Local Open Scope agent_scope.
Import Frame.

Lemma pres_not_listening_pbc : preserves not_listening processBufferedChunks.
Proof.
  apply pres_processBufferedChunks. unfold not_listening, only_playback.
  intros s s' H. destruct H as [H _]. rewrite H. auto.
Qed.

Ltac side_not_listening :=
  match goal with
  | H : not_listening _ |- not_listening _ =>
      first [ exact H | unfold not_listening; cbn; discriminate ]
  end.

Lemma handleWebSocketMessage_not_listening data :
  preserves not_listening (handleWebSocketMessage data).
Proof.
  destruct data; unfold_handlers; pres_steps;
    try side_not_listening; try apply pres_not_listening_pbc.
Qed.

Lemma runCallback_not_listening cb :
  cb <> DrainTimeout -> preserves not_listening (runCallback cb).
Proof.
  intros Hcb. destruct cb; try congruence; unfold_handlers; pres_steps;
    try side_not_listening; try apply pres_not_listening_pbc.
Qed.

Lemma exec_not_listening {A} (m : M A) s :
  preserves not_listening m -> not_listening s ->
  conversationState (exec m s) <> Listening.
Proof. intros Hm Hs. exact (Hm s Hs). Qed.

Lemma to_listening_only_by_drain e s s' :
  step e s = Some s' ->
  conversationState s = Speaking -> conversationState s' = Listening ->
  exists k t, e = Fire k /\ nth_error (tasks s) k = Some t /\
              callback t = DrainTimeout /\ due t <= clock s /\
              isConversationActive s = true.
Proof.
  intros Hstep Hs Hs'.
  assert (Hnl : not_listening s) by (unfold not_listening; congruence).
  destruct e; cbn [step] in Hstep.
  - exfalso. injection Hstep as <-. revert Hs'.
    unfold exec, handleConversationButton, bind, get. cbn [fst snd]. rewrite Hs.
    apply exec_not_listening; [ | exact Hnl ].
    unfold_handlers; pres_steps; side_not_listening.
  - exfalso. injection Hstep as <-. revert Hs'.
    apply exec_not_listening.
    + unfold_handlers; pres_steps; side_not_listening.
    + unfold setReadyState. destruct (websocket s); exact Hnl.
  - exfalso. injection Hstep as <-. revert Hs'.
    apply (handleWebSocketMessage_not_listening data s Hnl).
  - exfalso. injection Hstep as <-. revert Hs'.
    apply exec_not_listening.
    + unfold_handlers; pres_steps; side_not_listening.
    + unfold setReadyState. destruct (websocket s); exact Hnl.
  - exfalso. injection Hstep as <-. revert Hs'.
    apply exec_not_listening; [ | exact Hnl ].
    unfold_handlers; pres_steps; side_not_listening.
  - exfalso. injection Hstep as <-. revert Hs'.
    apply exec_not_listening; [ | exact Hnl ].
    unfold_handlers; pres_steps; side_not_listening.
  - exfalso. injection Hstep as <-. revert Hs'.
    apply exec_not_listening; [ | exact Hnl ].
    unfold_handlers; pres_steps; side_not_listening.
  - destruct (nth_error (tasks s) n) as [t|] eqn:Hn; [ | discriminate ].
    destruct (Z.leb_spec (due t) (clock s)) as [Hdue | ]; [ | discriminate ].
    injection Hstep as <-.
    destruct (callback t) eqn:Hcb.
    1, 3, 4: exfalso; revert Hs'; apply exec_not_listening;
      [ apply runCallback_not_listening; discriminate | exact Hnl ].
    exists n, t. repeat split; auto.
    revert Hs'. unfold runCallback, drainTimeout. run_monad. cbn.
    destruct (isConversationActive s); [ reflexivity | ].
    cbn. rewrite Hs. discriminate.
  - exfalso. destruct (0 <=? dt); [ | discriminate ]. injection Hstep as <-.
    revert Hs'. unfold advance.
    destruct (audioPlaybackContext _) as [c|]; [ destruct (ctxState c) | ];
      cbn; rewrite Hs; discriminate.
  - exfalso. destruct (audioPlaybackContext s); injection Hstep as <-;
      revert Hs'; cbn; rewrite Hs; discriminate.
  - exfalso. injection Hstep as <-. revert Hs'. cbn. rewrite Hs. discriminate.
Qed.

Lemma pres_speaking_pbc : preserves speaking processBufferedChunks.
Proof.
  apply pres_processBufferedChunks. unfold speaking, only_playback.
  intros s s' H. destruct H as [H _]. rewrite H. auto.
Qed.

Lemma handleAudioChunk_speaking d s :
  conversationState (exec (handleAudioChunk d) s) = Speaking.
Proof.
  unfold handleAudioChunk. rewrite exec_get_bind.
  apply (exec_seq speaking).
  - unfold speaking. destruct (conversationState s) eqn:E; try reflexivity. exact E.
  - intros _. unfold_handlers. pres_steps;
      first [ assumption | apply pres_speaking_pbc ].
Qed.

(** C9 (amended). A [turn_complete] message sets the phase to Processing,
    whatever the phase was, and appends exactly one turn to the history:
    sender "user", the final transcript as its text, the current time as
    its timestamp.  The dispatcher does not wait for it: an [audio_chunk]
    message is handled in every state and leaves the phase Speaking. *)
Theorem turn_complete_appends_user_turn :
  (forall s t,
     conversationState (exec (handleWebSocketMessage (turn_complete t)) s) = Processing /\
     chatHistory (exec (handleWebSocketMessage (turn_complete t)) s)
       = chatHistory s ++ [{| sender := "user"; message := t; timestamp := clock s |}]) /\
  (forall s i d,
     conversationState (exec (handleWebSocketMessage (audio_chunk i d)) s) = Speaking) /\
  (forall s n,
     pending DrainTimeout (tasks (exec (handleWebSocketMessage (audio_complete n)) s))
       = S (pending DrainTimeout (tasks s))).
Proof.
  split; [ | split ].
  - intros s t. split; reflexivity.
  - intros s i d. apply handleAudioChunk_speaking.
  - intros s n. cbn [handleWebSocketMessage]. unfold handleAudioComplete.
    rewrite exec_get_bind, !exec_bind.
    set (s2 := exec (when _ processBufferedChunks) s).
    assert (H2 : tasks s2 = tasks s).
    { subst s2. destruct (0 <? _)%nat; cbn [when]; [ | reflexivity ].
      pose proof (processBufferedChunks_playback s) as H.
      unfold only_playback in H. tauto. }
    clearbody s2. cbn -[pending]. rewrite H2, pending_app. cbn. lia.
Qed.

(** C9, counterexample.  Right after the connection is set up, with no
    [turn_complete] received and an empty history, an [audio_chunk] is
    accepted: the phase becomes Speaking and the chunk is queued. *)
Lemma audio_before_turn_complete :
  turn_complete_first false (connect ++ [WsMessage (audio_chunk 0 (silence 48))]) = false /\
  observe conversationState (connect ++ [WsMessage (audio_chunk 0 (silence 48))])
    = Some Speaking /\
  observe chatHistory (connect ++ [WsMessage (audio_chunk 0 (silence 48))]) = Some [] /\
  observe (fun s => List.length (audioBufferQueue s))
    (connect ++ [WsMessage (audio_chunk 0 (silence 48))]) = Some 1%nat.
Proof. by_running. Qed.

Lemma base64_result d s1 s2 :
  wavHeaderProcessed s1 = wavHeaderProcessed s2 ->
  fst (base64ToPCMFloat32 d s1) = fst (base64ToPCMFloat32 d s2).
Proof.
  intros H. unfold base64ToPCMFloat32. destruct d as [b|]; [ | reflexivity ].
  run_monad. rewrite H.
  destruct (wavHeaderProcessed s2); cbn;
    repeat match goal with
      | |- context [if ?c then _ else _] => destruct c
      | |- context [Pcm.samples ?l] => destruct (Pcm.samples l)
      end; reflexivity.
Qed.











Lemma closeConnections_effect s :
  audioContext (exec closeConnections s) = None /\
  websocket (exec closeConnections s) = None /\
  audioPlaybackContext (exec closeConnections s) = None /\
  conversationState (exec closeConnections s) = conversationState s /\
  isConversationActive (exec closeConnections s) = isConversationActive s /\
  tasks (exec closeConnections s) = tasks s /\
  audioBufferQueue (exec closeConnections s) = audioBufferQueue s /\
  audioPlayheadTime (exec closeConnections s) = audioPlayheadTime s /\
  trace (exec closeConnections s) = trace s.
Proof.
  unfold closeConnections. run_monad.
  destruct (audioContext s) eqn:Ea, (websocket s) eqn:Ew,
           (audioPlaybackContext s) eqn:Ep;
    cbn; repeat split; first [ reflexivity | assumption ].
Qed.

Lemma resetToIdle_effect s :
  conversationState (exec resetToIdle s) = Idle /\
  isConversationActive (exec resetToIdle s) = false /\
  audioContext (exec resetToIdle s) = None /\
  websocket (exec resetToIdle s) = None /\
  audioPlaybackContext (exec resetToIdle s) = None /\
  tasks (exec resetToIdle s) = tasks s /\
  audioBufferQueue (exec resetToIdle s) = audioBufferQueue s /\
  audioPlayheadTime (exec resetToIdle s) = audioPlayheadTime s /\
  trace (exec resetToIdle s) = trace s.
Proof.
  unfold resetToIdle. rewrite !exec_bind.
  set (s1 := exec (modify (set_isConversationActive false)) _).
  destruct (closeConnections_effect s1) as (H1 & H2 & H3 & H4 & H5 & H6 & H7 & H8 & H9).
  rewrite H4, H5. repeat split; assumption.
Qed.

(** C8 (amended). When the channel closes while the session is active the
    phase becomes Idle and "Connection lost" is surfaced once; when it
    closes while the session is not active, neither the phase nor the
    trace changes.  When the channel reports an error the phase becomes
    Idle, the session inactive, and "Connection error" is surfaced once,
    whether the session was active or not. *)
Theorem channel_failure_notice :
  (forall s s',
     isConversationActive s = true -> step WsClose s = Some s' ->
     conversationState s' = Idle /\
     trace s' = trace s ++ [Status "❌ Connection lost"] /\
     notices (emitted s s') = 1%nat) /\
  (forall s s',
     isConversationActive s = false -> step WsClose s = Some s' ->
     conversationState s' = conversationState s /\
     trace s' = trace s /\
     notices (emitted s s') = 0%nat) /\
  (forall s s',
     step WsError s = Some s' ->
     conversationState s' = Idle /\
     isConversationActive s' = false /\
     trace s' = trace s ++ [Status "❌ Connection error"] /\
     notices (emitted s s') = 1%nat).
Proof.
  assert (Hready : forall r s,
            isConversationActive (setReadyState r s) = isConversationActive s /\
            conversationState (setReadyState r s) = conversationState s /\
            trace (setReadyState r s) = trace s).
  { intros r s. unfold setReadyState. destruct (websocket s); repeat split. }
  split; [ | split ].
  - intros s s' Hact Hstep. cbn [step] in Hstep. injection Hstep as <-.
    destruct (Hready CLOSED s) as (Ha & Hp & Ht).
    revert Ha Hp Ht. generalize (setReadyState CLOSED s). intros s0 Ha Hp Ht.
    unfold onclose. rewrite exec_get_bind. rewrite Ha, Hact.
    unfold when. rewrite exec_bind.
    destruct (resetToIdle_effect (exec (updateStatus "❌ Connection lost") s0))
      as (H1 & _ & _ & _ & _ & _ & _ & _ & H9).
    assert (H : trace (exec resetToIdle (exec (updateStatus "❌ Connection lost") s0))
                = trace s ++ [Status "❌ Connection lost"]).
    { rewrite H9. cbn. rewrite Ht. reflexivity. }
    repeat split; auto.
    rewrite (emitted_app _ _ _ H). reflexivity.
  - intros s s' Hact Hstep. cbn [step] in Hstep. injection Hstep as <-.
    destruct (Hready CLOSED s) as (Ha & Hp & Ht).
    revert Ha Hp Ht. generalize (setReadyState CLOSED s). intros s0 Ha Hp Ht.
    unfold onclose. rewrite exec_get_bind. rewrite Ha, Hact. cbn.
    repeat split; auto.
    rewrite (emitted_same _ _ Ht). reflexivity.
  - intros s s' Hstep. cbn [step] in Hstep. injection Hstep as <-.
    unfold onerror. rewrite exec_bind.
    destruct (resetToIdle_effect (exec (updateStatus "❌ Connection error") s))
      as (H1 & H2 & _ & _ & _ & _ & _ & _ & H9).
    assert (H : trace (exec resetToIdle (exec (updateStatus "❌ Connection error") s))
                = trace s ++ [Status "❌ Connection error"]).
    { rewrite H9. reflexivity. }
    repeat split; auto.
    rewrite (emitted_app _ _ _ H). reflexivity.
Qed.

(** C8, counterexample.  After the user has ended the conversation the
    session is not active; a channel error then still surfaces a
    notice. *)
Lemma error_notice_when_inactive :
  observe isConversationActive (connect ++ [Click]) = Some false /\
  observe (fun s => notices (trace s)) (connect ++ [Click]) = Some 0%nat /\
  observe (fun s => notices (trace s)) (connect ++ [Click; WsError]) = Some 1%nat.
Proof. by_running. Qed.

(** A failure as browsers report it, an error followed by the close, on
    an active session: one notice in all. *)
Example error_then_close_one_notice :
  observe isConversationActive connect = Some true /\
  observe (fun s => notices (trace s)) connect = Some 0%nat /\
  observe (fun s => notices (trace s)) (connect ++ [WsError; WsClose]) = Some 1%nat /\
  observe conversationState (connect ++ [WsError; WsClose]) = Some Idle.
Proof. by_running. Qed.

(** C7 (amended). Teardown, that is [resetToIdle] and the goodbye timer
    that [endConversation] arms 8000 ms ahead, sets the phase to Idle and
    the session inactive and drops the capture context, the socket and
    the playback context; [endConversation] itself sets the phase to
    Ending and the session inactive.  None of them removes a pending
    timer, empties the queue or moves the playhead.  Once the playback
    context is gone nothing can be scheduled, and a guard, drain or
    resume callback that runs while the session is inactive leaves the
    phase as it is. *)
Theorem teardown_leaves_timers_and_queue :
  (forall s,
     conversationState (exec resetToIdle s) = Idle /\
     isConversationActive (exec resetToIdle s) = false /\
     audioContext (exec resetToIdle s) = None /\
     websocket (exec resetToIdle s) = None /\
     audioPlaybackContext (exec resetToIdle s) = None /\
     tasks (exec resetToIdle s) = tasks s /\
     audioBufferQueue (exec resetToIdle s) = audioBufferQueue s /\
     audioPlayheadTime (exec resetToIdle s) = audioPlayheadTime s) /\
  (forall s,
     conversationState (exec endConversation s) = Ending /\
     isConversationActive (exec endConversation s) = false /\
     tasks (exec endConversation s)
       = tasks s ++ [{| due := clock s + 8000; callback := GoodbyeTimeout |}] /\
     audioPlaybackContext (exec endConversation s) = audioPlaybackContext s /\
     audioBufferQueue (exec endConversation s) = audioBufferQueue s /\
     audioPlayheadTime (exec endConversation s) = audioPlayheadTime s) /\
  (forall s,
     conversationState (exec goodbyeTimeout s) = Idle /\
     audioPlaybackContext (exec goodbyeTimeout s) = None /\
     websocket (exec goodbyeTimeout s) = None /\
     tasks (exec goodbyeTimeout s) = tasks s /\
     audioBufferQueue (exec goodbyeTimeout s) = audioBufferQueue s /\
     audioPlayheadTime (exec goodbyeTimeout s) = audioPlayheadTime s /\
     isConversationActive (exec goodbyeTimeout s) = false /\
     audioContext (exec goodbyeTimeout s) = None) /\
  (forall s chunk,
     audioPlaybackContext s = None ->
     starts (trace (exec (scheduleChunkAtPlayhead chunk) s)) = starts (trace s)) /\
  (forall s cb,
     isConversationActive s = false -> cb <> GoodbyeTimeout ->
     conversationState (exec (runCallback cb) s) = conversationState s).
Proof.
  split; [ | split; [ | split; [ | split ] ] ].
  - intros s. pose proof (resetToIdle_effect s). tauto.
  - intros s. unfold endConversation. run_monad. cbn.
    destruct (is_open (websocket s)); repeat split; reflexivity.
  - intros s. unfold goodbyeTimeout. rewrite !exec_bind.
    destruct (closeConnections_effect s) as (_ & _ & _ & _ & _ & C6 & C7 & C8 & _).
    destruct (resetToIdle_effect (exec closeConnections s))
      as (R1 & R2 & R3 & R4 & R5 & R6 & R7 & R8 & _).
    cbn. repeat split; congruence.
  - intros s chunk Hctx. unfold scheduleChunkAtPlayhead. run_monad. rewrite Hctx.
    cbn. induction (trace s) as [|e tr IH]; [ reflexivity | ].
    destruct e; cbn; rewrite ?IH; reflexivity.
  - intros s cb Hact Hcb. destruct cb; try congruence.
    + unfold runCallback, safetyTimeout. run_monad. rewrite Hact.
      rewrite andb_false_r. reflexivity.
    + unfold runCallback, drainTimeout. run_monad. cbn. rewrite Hact. reflexivity.
    + unfold runCallback.
      pose proof (processBufferedChunks_playback s) as H.
      unfold only_playback in H. tauto.
Qed.
End Transitions.

(* ================================================================== *)
(** ** The jitter buffer and the guard timer *)
(* ================================================================== *)

Module Playback.

Import Agent Observe Invariant Scenario.
Local Open Scope Z_scope.
Local Open Scope agent_scope.
Import Frame Transitions.

Lemma starts_other e : is_start e = false -> starts [e] = [].
Proof. destruct e; cbn; congruence. Qed.

Lemma non_overlapping_snoc l x :
  non_overlapping l -> Forall (fun a => before a x) l -> non_overlapping (l ++ [x]).
Proof.
  induction l as [|a l IH]; cbn; intros Hl Hx.
  - split; [ constructor | exact I ].
  - destruct Hl as [Ha Hl]. inversion Hx as [|? ? Hax Hlx]; subst. split.
    + apply Forall_app. split; [ exact Ha | constructor; [ exact Hax | constructor ] ].
    + apply IH; assumption.
Qed.

Lemma timeline_emit base e s :
  is_start e = false -> timeline base s ->
  timeline base (set_trace (trace s ++ [e]) s).
Proof.
  intros He (new & Ht & Hno & Hend & Hctx).
  exists (new ++ [e]). cbn. rewrite Ht, app_assoc, starts_app, (starts_other e He), app_nil_r.
  repeat split; assumption.
Qed.

Lemma timeline_advance_playhead base p s :
  (audioPlayheadTime s <= p)%Q -> timeline base s ->
  timeline base (set_audioPlayheadTime p s).
Proof.
  intros Hp (new & Ht & Hno & Hend & Hctx).
  exists new. cbn. repeat split; try assumption.
  eapply Forall_impl; [ | exact Hend ]. cbn.
  intros iv [H1 H2]. split; eapply Qle_trans; eassumption.
Qed.

Lemma timeline_schedule base w d s :
  (audioPlayheadTime s <= w)%Q -> (0 <= d)%Q ->
  audioPlaybackContext s <> None ->
  timeline base s ->
  timeline base
    (set_audioPlayheadTime (w + d)%Q (set_trace (trace s ++ [Start w d]) s)).
Proof.
  intros Hw Hd Hc (new & Ht & Hno & Hend & Hctx).
  exists (new ++ [Start w d]). cbn.
  rewrite Ht, app_assoc, starts_app. cbn [starts].
  split; [ reflexivity | ]. split; [ | split ].
  - apply non_overlapping_snoc; [ exact Hno | ].
    eapply Forall_impl; [ | exact Hend ]. cbn.
    intros iv [H1 H2]. split; cbn; eapply Qle_trans; eassumption.
  - apply Forall_app. split.
    + eapply Forall_impl; [ | exact Hend ]. cbn.
      intros iv [H1 H2]. split; lra.
    + constructor; [ | constructor ]. cbn. split; lra.
  - intros Hnone. contradiction.
Qed.

Lemma scheduleChunk_timeline base chunk :
  preserves (timeline base) (scheduleChunkAtPlayhead chunk).
Proof.
  intros s H. unfold scheduleChunkAtPlayhead. run_monad.
  destruct (audioPlaybackContext s) as [ctx|] eqn:Hctx;
    [ | apply timeline_emit; [ reflexivity | exact H ] ].
  destruct (is_closed ctx); [ apply timeline_emit; [ reflexivity | exact H ] | ].
  destruct chunk as [[|x l]|];
    try (apply timeline_emit; [ reflexivity | exact H ]).
  assert (Hd : (0 <= Z.of_nat (Datatypes.length (x :: l)) # AUDIO_SAMPLE_RATE)%Q).
  { unfold Qle. cbn [Qnum Qden]. lia. }
  destruct (Qle_bool (audioPlayheadTime s) (currentTime ctx)) eqn:Hsnap; cbn.
  - apply Qle_bool_iff in Hsnap.
    assert (Hle : (audioPlayheadTime s <= currentTime ctx + (1 # 100))%Q) by lra.
    destruct (Qle_bool 0 (currentTime ctx + (1 # 100))) eqn:Hpos; cbn.
    + apply (timeline_schedule base _ _ (set_audioPlayheadTime (currentTime ctx + (1 # 100))%Q s)).
      * cbn. apply Qle_refl.
      * exact Hd.
      * cbn. congruence.
      * apply timeline_advance_playhead; assumption.
    + apply (timeline_emit base (Log SchedulingError)
               (set_audioPlayheadTime (currentTime ctx + (1 # 100))%Q s));
        [ reflexivity | ].
      apply timeline_advance_playhead; assumption.
  - destruct (Qle_bool 0 (audioPlayheadTime s)) eqn:Hpos; cbn.
    + apply (timeline_schedule base _ _ s).
      * apply Qle_refl.
      * exact Hd.
      * congruence.
      * exact H.
    + apply timeline_emit; [ reflexivity | exact H ].
Qed.

Lemma shift_timeline base : preserves (timeline base) shift.
Proof.
  intros s H. unfold shift. destruct (audioBufferQueue s); exact H.
Qed.

Lemma scheduleLoop_timeline base n : preserves (timeline base) (scheduleLoop n).
Proof.
  induction n; cbn [scheduleLoop]; pres_steps;
    auto using shift_timeline, scheduleChunk_timeline.
Qed.

Lemma processBufferedChunks_timeline base :
  preserves (timeline base) processBufferedChunks.
Proof.
  intros s H. unfold processBufferedChunks, bind, get. cbn [fst snd].
  apply scheduleLoop_timeline, H.
Qed.

Lemma timeline_fresh_context base c p s :
  audioPlaybackContext s = None -> timeline base s ->
  timeline base (set_audioPlayheadTime p (set_audioPlaybackContext c s)).
Proof.
  intros Hnone (new & Ht & Hno & Hend & Hctx).
  exists new. cbn. rewrite (Hctx Hnone) in *. repeat split; auto.
Qed.

Lemma initializeAudioPlayback_timeline base s :
  audioPlaybackContext s = None -> timeline base s ->
  timeline base (exec initializeAudioPlayback s).
Proof.
  intros Hnone H. unfold initializeAudioPlayback, resetAudioPlaybackState.
  run_monad. rewrite Hnone.
  destruct (newPlaybackContext (platform s)) as [c|]; cbn.
  - exact (timeline_fresh_context base (Some c) _ s Hnone H).
  - destruct (newFallbackContext (platform s)) as [c|]; cbn; [ | exact H ].
    exact (timeline_fresh_context base (Some c) (audioPlayheadTime s) s Hnone H).
Qed.

Lemma startBufferedPlayback_timeline base :
  preserves (timeline base) startBufferedPlayback.
Proof.
  intros s H. unfold startBufferedPlayback, bind, get. cbn [fst snd].
  destruct (audioPlaybackContext s) as [ctx|] eqn:Hctx.
  - destruct (is_suspended ctx).
    + exact H.
    + apply processBufferedChunks_timeline, H.
  - apply initializeAudioPlayback_timeline.
    + exact Hctx.
    + apply timeline_emit; [ reflexivity | exact H ].
Qed.

Ltac timeline_side :=
  first
    [ assumption
    | apply timeline_emit; [ reflexivity | assumption ]
    | apply startBufferedPlayback_timeline
    | apply processBufferedChunks_timeline ].

Lemma handleAudioChunk_timeline base d :
  preserves (timeline base) (handleAudioChunk d).
Proof.
  unfold handleAudioChunk, base64ToPCMFloat32, emit, updateStatus, setTimeout.
  pres_steps; timeline_side.
Qed.

Lemma handleAudioComplete_timeline base n :
  preserves (timeline base) (handleAudioComplete n).
Proof.
  unfold handleAudioComplete, emit, updateStatus, setTimeout.
  pres_steps; timeline_side.
Qed.

Lemma runCallback_timeline base cb :
  cb <> GoodbyeTimeout -> preserves (timeline base) (runCallback cb).
Proof.
  intros Hcb. destruct cb; try congruence; cbn [runCallback].
  - unfold safetyTimeout, emit. pres_steps;
      first [ timeline_side | apply handleAudioComplete_timeline ].
  - unfold drainTimeout, emit, updateStatus. pres_steps; timeline_side.
  - apply processBufferedChunks_timeline.
Qed.

Lemma speaking_step_timeline base e s s' :
  speaking_event s e = true -> step e s = Some s' ->
  timeline base s -> timeline base s'.
Proof.
  intros He Hstep H.
  destruct e as [ | | data | | | | | n | dt | st | p ]; try discriminate He;
    cbn [step] in Hstep.
  - injection Hstep as <-.
    destruct data; try discriminate He; cbn [handleWebSocketMessage].
    + apply handleAudioChunk_timeline, H.
    + apply handleAudioComplete_timeline, H.
  - cbn in He. unfold nth_callback in He.
    destruct (nth_error (tasks s) n) as [t|]; [ | discriminate ].
    destruct (due t <=? clock s); [ | discriminate ].
    injection Hstep as <-.
    apply runCallback_timeline; [ | exact H ].
    intros E. rewrite E in He. discriminate.
  - destruct (0 <=? dt); [ | discriminate ]. injection Hstep as <-.
    unfold advance. cbn.
    destruct H as (new & Ht & Hno & Hend & Hctx).
    destruct (audioPlaybackContext s) as [c|] eqn:Ec.
    + destruct (ctxState c); exists new; cbn; rewrite ?Ec;
        repeat split; auto; discriminate.
    + exists new. cbn. rewrite Ec. repeat split; auto.
  - destruct H as (new & Ht & Hno & Hend & Hctx).
    destruct (audioPlaybackContext s) as [c|] eqn:Ec; injection Hstep as <-.
    + exists new. cbn. repeat split; auto. discriminate.
    + exists new. rewrite Ec. repeat split; auto.
  - injection Hstep as <-. exact H.
Qed.

Lemma speaking_run_timeline base es s s' :
  run_if speaking_event es s = Some s' -> timeline base s -> timeline base s'.
Proof.
  revert s. induction es as [|e es IH]; intros s; cbn.
  - intros [= <-]. auto.
  - destruct (speaking_event s e) eqn:He; [ | discriminate ].
    destruct (step e s) as [s1|] eqn:Hstep; [ | discriminate ].
    intros Hrun H. apply (IH s1 Hrun).
    exact (speaking_step_timeline base e s s1 He Hstep H).
Qed.

Lemma timeline_initial s : timeline (trace s) s.
Proof.
  exists []. rewrite app_nil_r. repeat split; constructor.
Qed.

Lemma schedule_at_playhead s ctx x l :
  audioPlaybackContext s = Some ctx -> is_closed ctx = false ->
  (0 <= currentTime ctx)%Q ->
  trace (exec (scheduleChunkAtPlayhead (Some (x :: l))) s)
    = trace s ++
      [Start (if Qle_bool (audioPlayheadTime s) (currentTime ctx)
              then currentTime ctx + (1 # 100) else audioPlayheadTime s)%Q
             (Z.of_nat (List.length (x :: l)) # AUDIO_SAMPLE_RATE)] /\
  audioPlayheadTime (exec (scheduleChunkAtPlayhead (Some (x :: l))) s)
    = ((if Qle_bool (audioPlayheadTime s) (currentTime ctx)
        then currentTime ctx + (1 # 100) else audioPlayheadTime s)
       + (Z.of_nat (List.length (x :: l)) # AUDIO_SAMPLE_RATE))%Q.
Proof.
  intros Hctx Hopen Hnow. unfold scheduleChunkAtPlayhead. run_monad.
  rewrite Hctx, Hopen.
  destruct (Qle_bool (audioPlayheadTime s) (currentTime ctx)) eqn:Hsnap; cbn.
  - assert (Hpos : Qle_bool 0 (currentTime ctx + (1 # 100)) = true).
    { apply Qle_bool_iff. lra. }
    rewrite Hpos. cbn. split; reflexivity.
  - assert (Hpos : Qle_bool 0 (audioPlayheadTime s) = true).
    { apply Qle_bool_iff. apply Qle_bool_false in Hsnap. lra. }
    rewrite Hpos. cbn. split; reflexivity.
Qed.

Lemma base64_decodeAt b s :
  fst (base64ToPCMFloat32 (Some b) s)
    = decodeAt (if wavHeaderProcessed s then 0 else 44)%nat b /\
  wavHeaderProcessed (exec (base64ToPCMFloat32 (Some b)) s) = true.
Proof.
  unfold base64ToPCMFloat32, decodeAt. run_monad.
  destruct (wavHeaderProcessed s) eqn:Hf; cbn [negb];
    match goal with |- context [(?a <? ?b)%nat] => destruct (a <? b)%nat end;
    cbn; try (split; [ reflexivity | assumption || reflexivity ]);
    match goal with |- context [Pcm.samples ?l] => destruct (Pcm.samples l) end;
    cbn; split; first [ reflexivity | assumption ].
Qed.










Lemma handleAudioChunk_blocks d s :
  handleAudioChunk d s =
  (enterSpeaking ;;
   pcmData <- base64ToPCMFloat32 d ;;
   match pcmData with
   | Some ((_ :: _) as pcm) => enqueueAndPlay pcm
   | _ => ret tt
   end ;;
   armSafetyTimeout) s.
Proof.
  unfold handleAudioChunk, enterSpeaking, enqueueAndPlay, armSafetyTimeout, bind, get.
  cbn [fst snd].
  destruct (fst (base64ToPCMFloat32 d _)) as [[|x l]|]; reflexivity.
Qed.

Lemma armSafetyTimeout_effect s :
  exec armSafetyTimeout s =
  if isAudioPlaying s then s
  else set_tasks (tasks s ++ [{| due := clock s + 15000; callback := SafetyTimeout |}])
         (set_isAudioPlaying true s).
Proof.
  unfold armSafetyTimeout. run_monad. destruct (isAudioPlaying s); reflexivity.
Qed.

Lemma one_guard_playback p0 s s' :
  only_playback s s' -> one_guard p0 s -> one_guard p0 s'.
Proof.
  unfold only_playback, one_guard. intros H (H1 & H2 & H3).
  repeat match goal with H : _ /\ _ |- _ => destruct H end.
  repeat split; try congruence.
  match goal with Ht : tasks s' = tasks s |- _ => rewrite Ht end.
  intros E. rewrite (H3 E) in *. assumption.
Qed.

Lemma one_guard_playing p0 s :
  one_guard p0 s -> one_guard p0 (set_isAudioPlaying true s).
Proof. intros (H1 & H2 & H3). repeat split; auto. Qed.

Lemma one_guard_then p0 s :
  one_guard p0 s ->
  one_guard p0 (set_tasks (tasks s ++ [{| due := clock s + 0; callback := ResumeThenProcess |}]) s).
Proof.
  intros (H1 & H2 & H3). unfold one_guard. cbn -[pending].
  rewrite pending_app. cbn. rewrite Nat.add_0_r. repeat split; auto.
Qed.

Lemma startBufferedPlayback_guard p0 :
  preserves (one_guard p0) startBufferedPlayback.
Proof.
  intros s H. unfold startBufferedPlayback, bind, get. cbn [fst snd].
  destruct (audioPlaybackContext s) as [ctx|] eqn:Hctx.
  - destruct (is_suspended ctx).
    + apply one_guard_then, H.
    + apply (pres_processBufferedChunks _ (one_guard_playback p0)), H.
  - destruct H as [H _]. congruence.
Qed.

Ltac guard_side :=
  first
    [ assumption
    | apply one_guard_playing; assumption
    | apply startBufferedPlayback_guard
    | apply (pres_processBufferedChunks _ (one_guard_playback _)) ].

Lemma enqueueAndPlay_guard p0 pcm : preserves (one_guard p0) (enqueueAndPlay pcm).
Proof. unfold enqueueAndPlay. pres_steps; guard_side. Qed.

Lemma armSafetyTimeout_guard p0 s :
  one_guard p0 s -> one_guard p0 (exec armSafetyTimeout s).
Proof.
  intros H. rewrite armSafetyTimeout_effect.
  destruct (isAudioPlaying s) eqn:Hp; [ exact H | ].
  destruct H as (H1 & H2 & H3).
  unfold one_guard. cbn -[pending]. rewrite pending_app.
  change (pending SafetyTimeout [_]) with 1%nat.
  assert (pending SafetyTimeout (tasks s) <> (p0 + 1)%nat).
  { intros E. specialize (H3 E). congruence. }
  repeat split; auto. lia.
Qed.

Lemma handleAudioChunk_guard p0 d : preserves (one_guard p0) (handleAudioChunk d).
Proof.
  apply (pres_ext _ _ _ (handleAudioChunk_blocks d)).
  pres_steps;
    try solve [ unfold enterSpeaking, base64ToPCMFloat32; pres_steps; guard_side ].
  - apply enqueueAndPlay_guard.
  - intros s H. apply armSafetyTimeout_guard, H.
Qed.

Lemma chunk_step_guard p0 e s s' :
  chunk_event s e = true -> step e s = Some s' ->
  one_guard p0 s -> one_guard p0 s'.
Proof.
  intros He Hstep H.
  destruct e as [ | | data | | | | | n | dt | st | p ]; try discriminate He;
    cbn [step] in Hstep.
  - injection Hstep as <-.
    destruct data; try discriminate He; cbn [handleWebSocketMessage].
    apply handleAudioChunk_guard, H.
  - cbn in He. unfold nth_callback in He.
    destruct (nth_error (tasks s) n) as [t|] eqn:Hn; [ | discriminate ].
    destruct (due t <=? clock s); [ | discriminate ].
    injection Hstep as <-.
    apply Callback_eqb_eq in He. rewrite <- He. cbn [runCallback].
    apply (pres_processBufferedChunks _ (one_guard_playback p0)).
    destruct H as (H1 & H2 & H3). unfold one_guard. cbn -[pending].
    rewrite (pending_remove_nth SafetyTimeout n (tasks s) t Hn)
      by (rewrite <- He; reflexivity).
    repeat split; assumption.
  - destruct (0 <=? dt); [ | discriminate ]. injection Hstep as <-.
    unfold advance. cbn. destruct H as (H1 & H2 & H3).
    destruct (audioPlaybackContext s) as [c|] eqn:Ec; [ | congruence ].
    destruct (ctxState c); unfold one_guard; cbn -[pending]; rewrite ?Ec;
      repeat split; auto; discriminate.
  - destruct H as (H1 & H2 & H3).
    destruct (audioPlaybackContext s) as [c|] eqn:Ec; [ | congruence ].
    injection Hstep as <-. unfold one_guard. cbn -[pending].
    repeat split; auto. discriminate.
  - injection Hstep as <-. exact H.
Qed.

Lemma chunk_run_guard p0 es s s' :
  run_if chunk_event es s = Some s' -> one_guard p0 s -> one_guard p0 s'.
Proof.
  revert s. induction es as [|e es IH]; intros s; cbn.
  - intros [= <-]. auto.
  - destruct (chunk_event s e) eqn:He; [ | discriminate ].
    destruct (step e s) as [s1|] eqn:Hstep; [ | discriminate ].
    intros Hrun H. apply (IH s1 Hrun).
    exact (chunk_step_guard p0 e s s1 He Hstep H).
Qed.

Lemma quiet_refl s : quiet s s.
Proof.
  repeat split. exists []. rewrite app_nil_r. split; reflexivity.
Qed.

Lemma quiet_emit s0 e s :
  quiet_effect e = true -> quiet s0 s ->
  quiet s0 (set_trace (trace s ++ [e]) s).
Proof.
  intros He H. unfold quiet in *. cbn.
  destruct H as (H1 & H2 & H3 & H4 & H5 & H6 & H7 & H8 & H9 & l & Hl & Hq).
  repeat split; try assumption.
  exists (l ++ [e]). rewrite Hl, app_assoc, forallb_app, Hq. cbn. rewrite He.
  split; reflexivity.
Qed.

Ltac quiet_side :=
  first [ assumption | apply quiet_emit; [ reflexivity | assumption ] ].

Lemma enterSpeaking_quiet s0 : preserves (quiet s0) enterSpeaking.
Proof. unfold enterSpeaking. pres_steps; quiet_side. Qed.

Lemma base64_quiet s0 d : preserves (quiet s0) (base64ToPCMFloat32 d).
Proof. unfold base64ToPCMFloat32. pres_steps; quiet_side. Qed.

Lemma enterSpeaking_flag s :
  wavHeaderProcessed (exec enterSpeaking s) = wavHeaderProcessed s.
Proof.
  unfold enterSpeaking. run_monad.
  destruct (negb (Phase_eqb (conversationState s) Speaking)); reflexivity.
Qed.

(** handleAudioChunk as its two last blocks applied to a state that
    differs quietly from the one it started in. *)
Lemma handleAudioChunk_exec d s :
  exists sb,
    quiet s sb /\
    exec (handleAudioChunk d) s
    = exec armSafetyTimeout
        (exec match fst (base64ToPCMFloat32 d s) with
              | Some ((_ :: _) as pcm) => enqueueAndPlay pcm
              | _ => ret tt
              end sb).
Proof.
  exists (exec (base64ToPCMFloat32 d) (exec enterSpeaking s)). split.
  - apply base64_quiet, enterSpeaking_quiet, quiet_refl.
  - unfold exec at 1. rewrite handleAudioChunk_blocks.
    rewrite <- (base64_result d _ _ (enterSpeaking_flag s)).
    reflexivity.
Qed.

Lemma enqueueAndPlay_buffering pcm s :
  isBuffering s = true -> (List.length (audioBufferQueue s) < 2)%nat ->
  exec (enqueueAndPlay pcm) s
  = set_audioBufferQueue (audioBufferQueue s ++ [pcm]) s.
Proof.
  intros Hb Hq. unfold enqueueAndPlay. run_monad. cbn. rewrite Hb.
  destruct (audioBufferQueue s) as [|a [|b q]]; cbn in *; try reflexivity; lia.
Qed.

Lemma first_chunk_arms_guard d s :
  isAudioPlaying s = false -> isBuffering s = true ->
  (List.length (audioBufferQueue s) < 2)%nat ->
  tasks (exec (handleAudioChunk d) s)
    = tasks s ++ [{| due := clock s + 15000; callback := SafetyTimeout |}] /\
  isAudioPlaying (exec (handleAudioChunk d) s) = true.
Proof.
  intros Hp Hb Hq.
  destruct (handleAudioChunk_exec d s) as (sb & Hquiet & ->).
  destruct Hquiet as (_ & _ & Q3 & Q4 & Q5 & _ & Q7 & Q8 & _).
  rewrite armSafetyTimeout_effect.
  assert (Hmid : forall m : M unit,
            (m = ret tt \/ exists pcm, m = enqueueAndPlay pcm) ->
            isAudioPlaying (exec m sb) = false /\
            tasks (exec m sb) = tasks s /\ clock (exec m sb) = clock s).
  { intros m [-> | [pcm ->]].
    - cbn. repeat split; congruence.
    - rewrite enqueueAndPlay_buffering by congruence. cbn. repeat split; congruence. }
  match goal with
  | |- context [exec ?m sb] =>
      destruct (Hmid m) as (M1 & M2 & M3);
        [ destruct (fst (base64ToPCMFloat32 d s)) as [[|x l]|]; eauto | ]
  end.
  rewrite M1. cbn. rewrite M2, M3. split; reflexivity.
Qed.

Lemma extends_refl P s : extends_with P s s.
Proof. exists []. rewrite app_nil_r. split; reflexivity. Qed.

Lemma extends_emit P s0 e s :
  P e = true -> extends_with P s0 s ->
  extends_with P s0 (set_trace (trace s ++ [e]) s).
Proof.
  intros He (l & Hl & Hp). exists (l ++ [e]). cbn.
  rewrite Hl, app_assoc, forallb_app, Hp. cbn. rewrite He. split; reflexivity.
Qed.

Lemma scheduleChunk_emits s0 chunk :
  preserves (extends_with scheduler_effect s0) (scheduleChunkAtPlayhead chunk).
Proof.
  unfold scheduleChunkAtPlayhead. pres_steps;
    first [ assumption | apply extends_emit; [ reflexivity | assumption ] ].
Qed.

Lemma shift_emits s0 : preserves (extends_with scheduler_effect s0) shift.
Proof. intros s H. unfold shift. destruct (audioBufferQueue s); exact H. Qed.

Lemma scheduleLoop_emits s0 n :
  preserves (extends_with scheduler_effect s0) (scheduleLoop n).
Proof.
  induction n; cbn [scheduleLoop]; pres_steps;
    auto using shift_emits, scheduleChunk_emits.
Qed.

Lemma processBufferedChunks_emits s :
  extends_with scheduler_effect s (exec processBufferedChunks s).
Proof.
  unfold processBufferedChunks, exec, bind, get. cbn [fst snd].
  apply scheduleLoop_emits, extends_refl.
Qed.

Lemma scheduler_effects_no_log x l :
  scheduler_effect (Log x) = false ->
  forallb scheduler_effect l = true -> count_log x l = 0%nat.
Proof.
  intros Hx. induction l as [|e l IH]; [ reflexivity | ].
  cbn [forallb]. intros H. apply andb_prop in H. destruct H as [He Hl].
  unfold count_log in *. cbn [filter].
  destruct (is_log x e) eqn:E; [ | apply IH, Hl ].
  destruct e; try discriminate E. cbn in E.
  destruct x, l0; try discriminate E; discriminate.
Qed.

Lemma handleAudioComplete_effect n s :
  conversationState (exec (handleAudioComplete n) s) = conversationState s /\
  tasks (exec (handleAudioComplete n) s)
    = tasks s ++ [{| due := clock s + waitTime n; callback := DrainTimeout |}] /\
  exists l, trace (exec (handleAudioComplete n) s) = trace s ++ l.
Proof.
  unfold handleAudioComplete. rewrite exec_get_bind. rewrite !exec_bind.
  set (s2 := exec (when _ processBufferedChunks) s).
  assert (H2 : only_playback s s2 /\ extends_with scheduler_effect s s2).
  { subst s2. destruct (0 <? _)%nat; cbn [when].
    - split; [ apply processBufferedChunks_playback | apply processBufferedChunks_emits ].
    - split; [ apply only_playback_refl | apply extends_refl ]. }
  destruct H2 as [Hop (l & Hl & _)]. unfold only_playback in Hop.
  repeat match goal with H : _ /\ _ |- _ => destruct H end.
  clearbody s2. cbn. repeat split.
  - congruence.
  - congruence.
  - exists (l ++ [Status "🔊 AI finishing response..."]).
    rewrite Hl, <- app_assoc. reflexivity.
Qed.

Lemma guard_fires s :
  conversationState s = Speaking -> isConversationActive s = true ->
  conversationState (exec safetyTimeout s) = Speaking /\
  (exists l, trace (exec safetyTimeout s) = trace s ++ Log SafetyForcing :: l) /\
  tasks (exec safetyTimeout s)
    = tasks s ++ [{| due := clock s + waitTime (Z.of_nat (List.length (audioBufferQueue s)) + 1);
                     callback := DrainTimeout |}].
Proof.
  intros Hs Ha. unfold safetyTimeout. rewrite exec_get_bind, Hs, Ha.
  cbn [Phase_eqb andb when]. rewrite exec_bind.
  destruct (handleAudioComplete_effect
              (Z.of_nat (List.length (audioBufferQueue s)) + 1)
              (exec (emit (Log SafetyForcing)) s)) as (H1 & H2 & l & H3).
  rewrite H1, H2, H3. cbn. repeat split.
  - exact Hs.
  - exists l. rewrite <- app_assoc. reflexivity.
Qed.

Lemma guard_idle s :
  conversationState s <> Speaking \/ isConversationActive s = false ->
  exec safetyTimeout s = s.
Proof.
  intros H. unfold safetyTimeout. rewrite exec_get_bind.
  destruct H as [H | H].
  - destruct (conversationState s); try reflexivity. congruence.
  - rewrite H, andb_false_r. reflexivity.
Qed.

Lemma quiet_no_starts l : forallb quiet_effect l = true -> starts l = [].
Proof.
  induction l as [|e l IH]; [ reflexivity | ].
  cbn [forallb]. intros H. apply andb_prop in H. destruct H as [He Hl].
  destruct e; cbn; try (apply IH, Hl). discriminate He.
Qed.

Lemma quiet_no_log x l :
  quiet_effect (Log x) = false ->
  forallb quiet_effect l = true -> count_log x l = 0%nat.
Proof.
  intros Hx. induction l as [|e l IH]; [ reflexivity | ].
  cbn [forallb]. intros H. apply andb_prop in H. destruct H as [He Hl].
  unfold count_log in *. cbn [filter].
  destruct (is_log x e) eqn:E; [ | apply IH, Hl ].
  destruct e; try discriminate E. cbn in E.
  destruct x, l0; try discriminate E; discriminate.
Qed.

Lemma buffering_inv_quiet base r s s' :
  quiet s s' -> buffering_inv base r s -> buffering_inv base r s'.
Proof.
  intros (Q1 & Q2 & Q3 & Q4 & Q5 & Q6 & Q7 & Q8 & Q9 & l & Hl & Hq)
         (Hctx & new & Ht & H).
  split; [ congruence | ].
  exists (new ++ l). split; [ rewrite Hl, Ht, app_assoc; reflexivity | ].
  rewrite starts_app, count_log_app, (quiet_no_starts l Hq),
    (quiet_no_log BufferThresholdReached l eq_refl Hq), Q3, Q4, Q7.
  rewrite app_nil_r, Nat.add_0_r. exact H.
Qed.

Lemma buffering_inv_arm base r s :
  buffering_inv base r s -> buffering_inv base r (exec armSafetyTimeout s).
Proof.
  intros H. rewrite armSafetyTimeout_effect.
  destruct (isAudioPlaying s); [ exact H | ].
  destruct H as (Hctx & new & Ht & H).
  split; [ exact Hctx | ]. exists new. split; [ exact Ht | ].
  cbn -[pending]. rewrite pending_app.
  change (pending ResumeThenProcess [_]) with 0%nat. rewrite Nat.add_0_r. exact H.
Qed.

Lemma startBufferedPlayback_with_context s :
  audioPlaybackContext s <> None ->
  isBuffering (exec startBufferedPlayback s) = isBuffering s /\
  audioPlaybackContext (exec startBufferedPlayback s) = audioPlaybackContext s /\
  extends_with scheduler_effect s (exec startBufferedPlayback s).
Proof.
  intros Hctx. unfold startBufferedPlayback. rewrite exec_get_bind.
  destruct (audioPlaybackContext s) as [ctx|] eqn:E; [ | congruence ].
  destruct (is_suspended ctx).
  - cbn. repeat split; auto. apply (extends_refl scheduler_effect s).
  - pose proof (processBufferedChunks_playback s) as Hop.
    unfold only_playback in Hop.
    repeat match goal with H : _ /\ _ |- _ => destruct H end.
    repeat split; try congruence. apply processBufferedChunks_emits.
Qed.

Lemma buffering_inv_enqueue base r pcm s :
  buffering_inv base r s ->
  buffering_inv base (S r) (exec (enqueueAndPlay pcm) s).
Proof.
  intros (Hctx & new & Ht & H).
  unfold enqueueAndPlay. rewrite exec_bind, exec_get_bind.
  set (s1 := exec (modify _) s).
  assert (Hb1 : isBuffering s1 = isBuffering s) by reflexivity.
  assert (Hq1 : List.length (audioBufferQueue s1) = S (List.length (audioBufferQueue s))).
  { subst s1. cbn. rewrite length_app. cbn. lia. }
  assert (Hc1 : audioPlaybackContext s1 = audioPlaybackContext s) by reflexivity.
  assert (Ht1 : trace s1 = trace s) by reflexivity.
  assert (Hk1 : tasks s1 = tasks s) by reflexivity.
  clearbody s1. rewrite Hb1, Hq1.
  destruct H as [(Hb & Hlen & Hr & Hst & Hcnt & Hpend) | (Hr & Hb & Hcnt)].
  - rewrite Hb, Hlen. cbn [andb negb].
    destruct (Nat.leb_spec bufferThreshold (S r)) as [Hge | Hlt].
    + rewrite !exec_bind.
      set (s3 := exec (modify (set_isAudioPlaying true)) _).
      destruct (startBufferedPlayback_with_context s3) as (B1 & B2 & l & Hl & Hp).
      { subst s3. cbn. congruence. }
      split; [ rewrite B2; subst s3; cbn; congruence | ].
      exists (new ++ Log BufferThresholdReached :: l). split.
      { rewrite Hl. subst s3. cbn. rewrite Ht1, Ht, <- !app_assoc. reflexivity. }
      right. split; [ exact Hge | ]. split; [ rewrite B1; reflexivity | ].
      rewrite count_log_app, Hcnt.
      change (Log BufferThresholdReached :: l) with ([Log BufferThresholdReached] ++ l).
      rewrite count_log_app,
        (scheduler_effects_no_log BufferThresholdReached l eq_refl Hp).
      reflexivity.
    + cbn. split; [ congruence | ]. exists new.
      split; [ congruence | ]. left.
      rewrite Hb1, Hq1, Hk1, Hb, Hlen. repeat split; auto.
  - rewrite Hb. cbn [andb negb Nat.ltb Nat.leb].
    pose proof (processBufferedChunks_playback s1) as Hop.
    destruct (processBufferedChunks_emits s1) as (l & Hl & Hp).
    unfold only_playback in Hop.
    repeat match goal with H : _ /\ _ |- _ => destruct H end.
    split; [ congruence | ].
    exists (new ++ l). split; [ rewrite Hl, Ht1, Ht, app_assoc; reflexivity | ].
    right. split; [ lia | ]. split; [ congruence | ].
    rewrite count_log_app,
      (scheduler_effects_no_log BufferThresholdReached l eq_refl Hp). lia.
Qed.

Lemma buffering_inv_chunk base r i d s :
  buffering_inv base r s ->
  buffering_inv base
    ((if accepted s (WsMessage (audio_chunk i d)) then 1 else 0) + r)%nat
    (exec (handleAudioChunk d) s).
Proof.
  intros H. destruct (handleAudioChunk_exec d s) as (sb & Hq & ->).
  apply buffering_inv_arm. cbn [accepted].
  pose proof (buffering_inv_quiet base r s sb Hq H) as Hb.
  destruct (fst (base64ToPCMFloat32 d s)) as [[|x l]|].
  - exact Hb.
  - apply buffering_inv_enqueue, Hb.
  - exact Hb.
Qed.

Lemma buffering_inv_step base r e s s' :
  chunk_event s e = true -> step e s = Some s' ->
  buffering_inv base r s ->
  buffering_inv base ((if accepted s e then 1 else 0) + r)%nat s'.
Proof.
  intros He Hstep H.
  destruct e as [ | | data | | | | | n | dt | st | p ]; try discriminate He;
    cbn [step] in Hstep.
  - injection Hstep as <-.
    destruct data; try discriminate He. cbn [handleWebSocketMessage].
    apply buffering_inv_chunk, H.
  - cbn in He. unfold nth_callback in He.
    destruct (nth_error (tasks s) n) as [t|] eqn:Hn; [ | discriminate ].
    destruct (due t <=? clock s); [ | discriminate ].
    injection Hstep as <-. cbn [accepted Nat.add].
    pose proof (pending_positive ResumeThenProcess n (tasks s) t Hn He) as Hpos.
    apply Callback_eqb_eq in He. rewrite <- He. cbn [runCallback].
    destruct H as (Hctx & new & Ht & [(Hb & Hlen & Hr & Hst & Hcnt & Hpend) | (Hr & Hb & Hcnt)]);
      [ lia | ].
    set (s1 := set_tasks _ s).
    pose proof (processBufferedChunks_playback s1) as Hop.
    destruct (processBufferedChunks_emits s1) as (l & Hl & Hp).
    unfold only_playback in Hop.
    repeat match goal with H : _ /\ _ |- _ => destruct H end.
    split; [ subst s1; cbn in *; congruence | ].
    exists (new ++ l). split; [ rewrite Hl; subst s1; cbn; rewrite Ht, app_assoc; reflexivity | ].
    right. split; [ exact Hr | ]. split; [ subst s1; cbn in *; congruence | ].
    rewrite count_log_app,
      (scheduler_effects_no_log BufferThresholdReached l eq_refl Hp). lia.
  - destruct (0 <=? dt); [ | discriminate ]. injection Hstep as <-.
    cbn [accepted Nat.add]. unfold advance. cbn.
    destruct H as (Hctx & H).
    destruct (audioPlaybackContext s) as [c|] eqn:Ec; [ | congruence ].
    destruct (ctxState c); (split; [ cbn; rewrite ?Ec; discriminate | exact H ]).
  - destruct H as (Hctx & H). cbn [accepted Nat.add].
    destruct (audioPlaybackContext s) as [c|] eqn:Ec; [ | congruence ].
    injection Hstep as <-. split; [ discriminate | exact H ].
  - injection Hstep as <-. exact H.
Qed.

Lemma buffering_inv_run base es : forall r s s',
  run_if chunk_event es s = Some s' ->
  buffering_inv base r s ->
  buffering_inv base (received es s + r)%nat s'.
Proof.
  induction es as [|e es IH]; intros r s s'; cbn.
  - intros [= <-]. auto.
  - destruct (chunk_event s e) eqn:He; [ | discriminate ].
    destruct (step e s) as [s1|] eqn:Hstep; [ | discriminate ].
    intros Hrun H.
    pose proof (buffering_inv_step base r e s s1 He Hstep H) as H1.
    specialize (IH _ s1 s' Hrun H1).
    replace ((if accepted s e then 1 else 0) + received es s1 + r)%nat
      with (received es s1 + ((if accepted s e then 1 else 0) + r))%nat by lia.
    exact IH.
Qed.

(** C2 (amended). From a reset playback state that has a playback context
    (buffering, empty queue, no resume continuation pending), along a run
    of audio chunks: while fewer than [bufferThreshold] chunks have been
    pushed on the queue nothing is scheduled, the threshold line is not
    logged and the scheduler is still buffering; once [bufferThreshold]
    chunks have been pushed the threshold line has been logged exactly
    once and buffering is over. *)
Theorem playback_waits_for_threshold s es s' :
  audioPlaybackContext s <> None ->
  isBuffering s = true -> audioBufferQueue s = [] ->
  pending ResumeThenProcess (tasks s) = 0%nat ->
  run_if chunk_event es s = Some s' ->
  ((received es s < bufferThreshold)%nat ->
   starts (emitted s s') = [] /\
   count_log BufferThresholdReached (emitted s s') = 0%nat /\
   isBuffering s' = true) /\
  ((bufferThreshold <= received es s)%nat ->
   count_log BufferThresholdReached (emitted s s') = 1%nat /\
   isBuffering s' = false).
Proof.
  intros Hctx Hb Hq Hp Hrun.
  assert (H0 : buffering_inv (trace s) 0 s).
  { split; [ exact Hctx | ]. exists []. rewrite app_nil_r. split; [ reflexivity | ].
    left. rewrite Hq. unfold bufferThreshold. repeat split; auto. }
  pose proof (buffering_inv_run (trace s) es 0 s s' Hrun H0) as (_ & new & Ht & H).
  rewrite Nat.add_0_r in H. rewrite (emitted_app s s' new Ht).
  split; intros Hr.
  - destruct H as [(H1 & H2 & H3 & H4 & H5 & H6) | (H1 & _)]; [ auto | lia ].
  - destruct H as [(H1 & H2 & H3 & _) | (H1 & H2 & H3)]; [ lia | auto ].
Qed.

(** C3 (amended). The guard timer.  An audio chunk handled while nothing is
    playing and the scheduler is buffering below the threshold arms it,
    due 15000 ms later; with a playback context in place a run of audio
    chunks arms at most one.  When it runs in an active Speaking session
    it logs the forcing line, leaves the phase Speaking and arms a drain
    timer due [waitTime (queue length + 1)] later; when the phase is not
    Speaking or the session is not active it changes nothing.  Handling
    [audio_complete] leaves the pending guard timers pending.  The drain
    delay lies between 2000 and 5000 ms, and the drain timer moves an
    active Speaking session to Listening and no other. *)
Theorem guard_armed_once_not_cancelled :
  (forall d s,
     isAudioPlaying s = false -> isBuffering s = true ->
     (List.length (audioBufferQueue s) < 2)%nat ->
     tasks (exec (handleAudioChunk d) s)
       = tasks s ++ [{| due := clock s + 15000; callback := SafetyTimeout |}]) /\
  (forall s es s',
     audioPlaybackContext s <> None ->
     run_if chunk_event es s = Some s' ->
     (pending SafetyTimeout (tasks s') <= pending SafetyTimeout (tasks s) + 1)%nat) /\
  (forall s,
     conversationState s = Speaking -> isConversationActive s = true ->
     conversationState (exec safetyTimeout s) = Speaking /\
     (exists l, trace (exec safetyTimeout s) = trace s ++ Log SafetyForcing :: l) /\
     tasks (exec safetyTimeout s)
       = tasks s ++
         [{| due := clock s + waitTime (Z.of_nat (List.length (audioBufferQueue s)) + 1);
             callback := DrainTimeout |}]) /\
  (forall s,
     conversationState s <> Speaking \/ isConversationActive s = false ->
     exec safetyTimeout s = s) /\
  (forall n s,
     pending SafetyTimeout (tasks (exec (handleAudioComplete n) s))
       = pending SafetyTimeout (tasks s)) /\
  (forall n, 2000 <= waitTime n <= 5000) /\
  (forall s,
     conversationState (exec drainTimeout s)
       = if isConversationActive s && Phase_eqb (conversationState s) Speaking
         then Listening else conversationState s).
Proof.
  split; [ | split; [ | split; [ | split; [ | split; [ | split ] ] ] ] ].
  - intros d s Hp Hb Hq. apply first_chunk_arms_guard; assumption.
  - intros s es s' Hctx Hrun.
    assert (H0 : one_guard (pending SafetyTimeout (tasks s)) s).
    { split; [ exact Hctx | ]. split; intros; lia. }
    destruct (chunk_run_guard _ es s s' Hrun H0) as (_ & H & _). exact H.
  - exact guard_fires.
  - exact guard_idle.
  - intros n s. destruct (handleAudioComplete_effect n s) as (_ & -> & _).
    rewrite pending_app. cbn. lia.
  - exact waitTime_bounds.
  - exact drainTimeout_phase.
Qed.
End Playback.

(* ================================================================== *)
(** ** The drain delay *)
(* ================================================================== *)

Module Completion.

Import Agent Observe Invariant Scenario.
Local Open Scope Z_scope.
Local Open Scope agent_scope.
Import Frame Transitions Playback.

Lemma drains_playback D s s' :
  only_playback s s' -> drains_not_before D s -> drains_not_before D s'.
Proof.
  unfold only_playback, drains_not_before. intros H.
  repeat match goal with H : _ /\ _ |- _ => destruct H end.
  congruence.
Qed.

Lemma drains_add D t s :
  callback t <> DrainTimeout -> drains_not_before D s ->
  drains_not_before D (set_tasks (tasks s ++ [t]) s).
Proof.
  intros Ht H. unfold drains_not_before in *. cbn. apply Forall_app. split; [ exact H | ].
  constructor; [ | constructor ]. intros E. contradiction.
Qed.

Lemma drains_remove D n s :
  drains_not_before D s -> drains_not_before D (set_tasks (remove_nth n (tasks s)) s).
Proof.
  unfold drains_not_before. cbn. generalize (tasks s). clear s.
  induction n as [|n IH]; intros [|x l] H; cbn; try constructor.
  - inversion H; assumption.
  - inversion H; assumption.
  - apply IH. inversion H; assumption.
Qed.

Ltac drains_side :=
  first
    [ assumption
    | apply drains_add; [ discriminate | assumption ]
    | apply pres_processBufferedChunks; apply drains_playback ].

Lemma handleWebSocketMessage_drains D data :
  (forall n, data <> audio_complete n) ->
  preserves (drains_not_before D) (handleWebSocketMessage data).
Proof.
  intros Hd. destruct data; try (exfalso; eapply Hd; reflexivity);
    unfold_handlers; pres_steps; drains_side.
Qed.

Lemma runCallback_drains D cb :
  cb <> SafetyTimeout -> preserves (drains_not_before D) (runCallback cb).
Proof.
  intros Hcb. destruct cb; try congruence; unfold_handlers;
    pres_steps; drains_side.
Qed.

Lemma handleConversationButton_drains D :
  preserves (drains_not_before D) handleConversationButton.
Proof. unfold_handlers; pres_steps; drains_side. Qed.

Lemma onopen_drains D : preserves (drains_not_before D) onopen.
Proof. unfold_handlers; pres_steps; drains_side. Qed.

Lemma onclose_drains D : preserves (drains_not_before D) onclose.
Proof. unfold_handlers; pres_steps; drains_side. Qed.

Lemma onerror_drains D : preserves (drains_not_before D) onerror.
Proof. unfold_handlers; pres_steps; drains_side. Qed.

Lemma setupAudioRecording_drains D granted :
  preserves (drains_not_before D) (setupAudioRecording granted).
Proof. unfold_handlers; pres_steps; drains_side. Qed.

Lemma onaudioprocess_drains D samples :
  preserves (drains_not_before D) (onaudioprocess samples).
Proof. unfold_handlers; pres_steps; drains_side. Qed.

Lemma no_completion_step_drains D e s s' :
  no_completion s e = true -> step e s = Some s' ->
  drains_not_before D s -> drains_not_before D s'.
Proof.
  intros He Hstep H.
  assert (Hready : forall r, drains_not_before D (setReadyState r s)).
  { intros r. unfold setReadyState. destruct (websocket s); exact H. }
  destruct e as [ | | data | | | granted | samples | n | dt | st | p ];
    cbn [step] in Hstep.
  - injection Hstep as <-. apply handleConversationButton_drains, H.
  - injection Hstep as <-. apply onopen_drains, Hready.
  - injection Hstep as <-. apply handleWebSocketMessage_drains; [ | exact H ].
    intros n ->. discriminate He.
  - injection Hstep as <-. apply onclose_drains, Hready.
  - injection Hstep as <-. apply onerror_drains, H.
  - injection Hstep as <-. apply setupAudioRecording_drains, H.
  - injection Hstep as <-. apply onaudioprocess_drains, H.
  - cbn in He. unfold nth_callback in He.
    destruct (nth_error (tasks s) n) as [t|]; [ | discriminate ].
    destruct (due t <=? clock s); [ | discriminate ].
    injection Hstep as <-.
    apply runCallback_drains.
    + intros E. rewrite E in He. discriminate.
    + apply drains_remove, H.
  - destruct (0 <=? dt); [ | discriminate ]. injection Hstep as <-.
    unfold advance. cbn.
    destruct (audioPlaybackContext s) as [c|]; [ destruct (ctxState c) | ]; exact H.
  - destruct (audioPlaybackContext s); injection Hstep as <-; exact H.
  - injection Hstep as <-. exact H.
Qed.

Lemma no_completion_run_drains D es s s' :
  run_if no_completion es s = Some s' ->
  drains_not_before D s -> drains_not_before D s'.
Proof.
  revert s. induction es as [|e es IH]; intros s; cbn.
  - intros [= <-]. auto.
  - destruct (no_completion s e) eqn:He; [ | discriminate ].
    destruct (step e s) as [s1|] eqn:Hstep; [ | discriminate ].
    intros Hrun H. apply (IH s1 Hrun).
    exact (no_completion_step_drains D e s s1 He Hstep H).
Qed.

Lemma resume_not_before_delay n s es sa e sb :
  pending DrainTimeout (tasks s) = 0%nat ->
  run_if no_completion es (exec (handleAudioComplete n) s) = Some sa ->
  step e sa = Some sb ->
  conversationState sa = Speaking -> conversationState sb = Listening ->
  clock s + waitTime n <= clock sa.
Proof.
  intros Hp Hrun Hstep Hsa Hsb.
  assert (H0 : drains_not_before (clock s + waitTime n) (exec (handleAudioComplete n) s)).
  { unfold drains_not_before. destruct (handleAudioComplete_effect n s) as (_ & -> & _).
    apply Forall_app. split.
    - eapply Forall_impl; [ | exact (pending_none _ _ Hp) ].
      intros t Ht E. contradiction.
    - constructor; [ | constructor ]. cbn. intros _. lia. }
  pose proof (no_completion_run_drains _ es _ sa Hrun H0) as Ha.
  destruct (to_listening_only_by_drain e sa sb Hstep Hsa Hsb)
    as (k & t & _ & Hk & Hcb & Hdue & _).
  unfold drains_not_before in Ha. rewrite Forall_forall in Ha.
  specialize (Ha t (nth_error_In _ _ Hk) Hcb). lia.
Qed.

(** With [total_chunks = 4]: the drain timer cannot run 3999 ms after the
    message, the phase is still Speaking then, and it is Listening once
    the timer has run at 4000 ms. *)
Example drain_scenario_total_chunks_4 :
  run (first_response ++
       [WsMessage (audio_chunk 0 (silence 48)); WsMessage (audio_complete 4);
        Elapse 3999; Fire 1]) fresh = None /\
  option_map conversationState
    (run (first_response ++
          [WsMessage (audio_chunk 0 (silence 48)); WsMessage (audio_complete 4);
           Elapse 3999]) fresh) = Some Speaking /\
  option_map conversationState
    (run (first_response ++
          [WsMessage (audio_chunk 0 (silence 48)); WsMessage (audio_complete 4);
           Elapse 4000; Fire 1]) fresh) = Some Listening.
Proof. repeat split; vm_compute; reflexivity. Qed.
End Completion.

(* ================================================================== *)
(** ** Runs of the concrete sessions *)
(* ================================================================== *)

Module Runs.

Import Agent Observe Invariant Scenario.
Local Open Scope Z_scope.
Local Open Scope agent_scope.
Import Frame Transitions Playback Completion.

(** The three intervals: equal durations of 100/44100 s, the first at the
    playhead 0.1, each next one where the previous ends. *)
Example three_chunks_scenario :
  map snd (starts (emitted responding responded))
    = [(100 # 44100)%Q; (100 # 44100)%Q; (100 # 44100)%Q] /\
  (match map fst (starts (emitted responding responded)) with
   | [a; b; c] => (a == 1 # 10 /\ b == a + (100 # 44100) /\ c == b + (100 # 44100))%Q
   | _ => False
   end).
Proof. split; [ vm_compute; reflexivity | ]. vm_compute. repeat split; reflexivity. Qed.

(** C2 on the same three chunks. *)
Lemma three_chunks_reach_threshold :
  (audioPlaybackContext responding <> None /\
   isBuffering responding = true /\ audioBufferQueue responding = [] /\
   pending ResumeThenProcess (tasks responding) = 0%nat /\
   run_if chunk_event three_chunks responding = Some responded) /\
  (((received three_chunks responding < bufferThreshold)%nat ->
    starts (emitted responding responded) = [] /\
    count_log BufferThresholdReached (emitted responding responded) = 0%nat /\
    isBuffering responded = true) /\
   ((bufferThreshold <= received three_chunks responding)%nat ->
    count_log BufferThresholdReached (emitted responding responded) = 1%nat /\
    isBuffering responded = false)).
Proof.
  refine ((fun H => conj H _) _).
  - exact (playback_waits_for_threshold responding three_chunks responded
             (proj1 H) (proj1 (proj2 H)) (proj1 (proj2 (proj2 H)))
             (proj1 (proj2 (proj2 (proj2 H)))) (proj2 (proj2 (proj2 (proj2 H))))).
  - by_running.
Defined.

(** All three chunks are pushed; after two of them nothing is scheduled,
    after the third all three are. *)
Example three_chunks_counted :
  received three_chunks responding = 3%nat /\
  received (firstn 2 three_chunks) responding = 2%nat /\
  option_map (fun s => starts (emitted responding s))
    (run_if chunk_event (firstn 2 three_chunks) responding) = Some [] /\
  option_map (fun s => List.length (starts (emitted responding s)))
    (run_if chunk_event three_chunks responding) = Some 3%nat.
Proof. by_running. Qed.

(** C2, counterexample.  A response of a single chunk: [audio_complete]
    schedules it although one chunk only was ever pushed, and the phase
    ends, back in Listening, without the threshold line having been
    logged. *)
Lemma playback_below_threshold :
  received short_response fresh = 1%nat /\
  observe (fun s => List.length (starts (trace s))) short_response = Some 1%nat /\
  observe (fun s => count_log BufferThresholdReached (trace s)) short_response
    = Some 0%nat /\
  observe conversationState short_response = Some Listening.
Proof. by_running. Qed.

(** C3, counterexample.  First run: the completion arrives at 14000 ms and
    is handled; at 15000 ms the phase is still Speaking (the drain is due
    at 19000 ms), the guard runs, logs the forcing line and arms a second
    drain timer.  Second run: audio without [chat_started]; the playback
    re-initialisation at the third chunk clears the playing flag, a second
    guard is armed, and both run in the same Speaking phase. *)
Lemma guard_fires_after_completion :
  (In (WsMessage (audio_complete 10)) late_completion /\
   observe conversationState late_completion = Some Speaking /\
   observe (fun s => count_log SafetyForcing (trace s)) late_completion = Some 0%nat /\
   observe (fun s => count_log SafetyForcing (trace s)) (late_completion ++ [Fire 0])
     = Some 1%nat /\
   observe (fun s => pending DrainTimeout (tasks s)) (late_completion ++ [Fire 0])
     = Some 2%nat) /\
  (observe conversationState unannounced_audio = Some Speaking /\
   observe (fun s => pending SafetyTimeout (tasks s)) unannounced_audio = Some 2%nat /\
   observe conversationState (unannounced_audio ++ [Fire 0]) = Some Speaking /\
   observe (fun s => count_log SafetyForcing (trace s))
     (unannounced_audio ++ [Fire 0; Fire 0]) = Some 2%nat).
Proof.
  split.
  - split; [ unfold late_completion; apply in_or_app; right; cbn; auto | ].
    by_running.
  - by_running.
Qed.


(** C7, counterexample.  After the transport error has torn the session
    down, a guard and a drain timer are still pending and a chunk is still
    queued; when the drain timer runs it clears the playing flag. *)
Lemma teardown_keeps_timers_and_queue :
  observe conversationState interrupted_response = Some Idle /\
  observe (fun s => isSome (audioPlaybackContext s)) interrupted_response = Some false /\
  observe (fun s => pending SafetyTimeout (tasks s)) interrupted_response = Some 1%nat /\
  observe (fun s => pending DrainTimeout (tasks s)) interrupted_response = Some 1%nat /\
  observe (fun s => List.length (audioBufferQueue s)) interrupted_response = Some 1%nat /\
  observe isAudioPlaying interrupted_response = Some true /\
  observe isAudioPlaying (interrupted_response ++ [Elapse 2000; Fire 1]) = Some false.
Proof. by_running. Qed.

(** The turn of the user ends: the phase is Processing and the history
    holds the one turn. *)
Example turn_complete_scenario :
  observe conversationState connect = Some Listening /\
  observe conversationState
    (connect ++ [WsMessage (turn_complete "What's the weather")]) = Some Processing /\
  observe chatHistory
    (connect ++ [WsMessage (turn_complete "What's the weather")])
    = Some [{| sender := "user"; message := "What's the weather"; timestamp := 0 |}].
Proof. by_running. Qed.

(** The channel closes on the active session: Idle, and one notice. *)
Example channel_close_scenario :
  observe isConversationActive connect = Some true /\
  observe conversationState (connect ++ [WsClose]) = Some Idle /\
  observe (fun s => notices (trace s)) (connect ++ [WsClose]) = Some 1%nat.
Proof. by_running. Qed.
End Runs.

(* ================================================================== *)
(** ** Laws of the sample conversions *)
(* ================================================================== *)

Module PcmLaws.

Import Pcm Wire PcmFacts.
Local Open Scope Q_scope.

(** The argument of the [Int16Array] store in the capture loop. *)
Lemma clamped_bounds (x : Q) :
  inject_Z (-32768) <= Qmax (inject_Z (-32768)) (Qmin (inject_Z 32767) (x * inject_Z 32768)) /\
  Qmax (inject_Z (-32768)) (Qmin (inject_Z 32767) (x * inject_Z 32768)) <= inject_Z 32767.
Proof.
  split.
  - apply Q.le_max_l.
  - apply Q.max_lub; [ discriminate | apply Q.le_min_l ].
Qed.

Lemma floatToInt16_truncate (x : Q) :
  floatToInt16 x
  = truncate (Qmax (inject_Z (-32768)) (Qmin (inject_Z 32767) (x * inject_Z 32768))).
Proof.
  unfold floatToInt16. destruct (clamped_bounds x) as [H1 H2].
  apply toInt16_in_range; assumption.
Qed.

Lemma truncate_inject (z : Z) : truncate (inject_Z z) = z.
Proof. unfold truncate, inject_Z. cbn. apply Z.quot_1_r. Qed.

Lemma truncate_mono (a b : Q) : a <= b -> (truncate a <= truncate b)%Z.
Proof.
  intros H.
  destruct (Qlt_le_dec a 0) as [Ha | Ha], (Qlt_le_dec b 0) as [Hb | Hb].
  - rewrite !truncate_nonpos by (apply Qlt_le_weak; assumption).
    apply Qceiling_resp_le, H.
  - rewrite truncate_nonpos by (apply Qlt_le_weak; assumption).
    rewrite truncate_nonneg by assumption.
    apply Z.le_trans with 0%Z.
    + change 0%Z with (Qceiling 0). apply Qceiling_resp_le, Qlt_le_weak, Ha.
    + change 0%Z with (Qfloor 0). apply Qfloor_resp_le, Hb.
  - exfalso. apply (Qlt_irrefl 0). apply Qle_lt_trans with a; [ exact Ha | ].
    apply Qle_lt_trans with b; assumption.
  - rewrite !truncate_nonneg by assumption. apply Qfloor_resp_le, H.
Qed.

Lemma truncate_Qeq (a b : Q) : a == b -> truncate a = truncate b.
Proof.
  intros H. apply Z.le_antisymm; apply truncate_mono; rewrite H; apply Qle_refl.
Qed.

(** X1. The capture conversion never wraps around: whatever the (finite)
    sample, the value stored in the [Int16Array] lies in
    [-32768, 32767]; a sample of 1 or more is stored as 32767 and a
    sample of -1 or less as -32768. *)
Theorem floatToInt16_saturates (x : Q) :
  int16 (floatToInt16 x) /\
  (1 <= x -> floatToInt16 x = 32767%Z) /\
  (x <= -1 -> floatToInt16 x = (-32768)%Z).
Proof.
  rewrite floatToInt16_truncate. destruct (clamped_bounds x) as [H1 H2].
  split; [ | split ].
  - apply (truncate_bounds (-32768) 32767); [ lia | assumption | assumption ].
  - intros Hx. rewrite <- (truncate_inject 32767) at 2. apply truncate_Qeq.
    rewrite Q.min_l.
    + apply Q.max_r. discriminate.
    + clear H1 H2. unfold inject_Z. lra.
  - intros Hx. rewrite <- (truncate_inject (-32768)) at 2. apply truncate_Qeq.
    apply Q.max_l. apply Qle_trans with (x * inject_Z 32768).
    + apply Q.le_min_r.
    + clear H1 H2. unfold inject_Z. lra.
Qed.

(** X2. Decoding a 16-bit value for playback ([int16 / 32768]) and
    putting the result through the capture conversion gives the value
    back, exactly. *)
Theorem decode_then_encode (v : Z) :
  int16 v -> floatToInt16 (int16ToFloat v) = v.
Proof.
  intros [Hl Hu]. rewrite floatToInt16_truncate.
  rewrite <- (truncate_inject v) at 2. apply truncate_Qeq.
  assert (E : int16ToFloat v * inject_Z 32768 == inject_Z v).
  { unfold int16ToFloat. field. }
  rewrite E. rewrite Zle_Qle in Hl, Hu.
  rewrite Q.min_r by exact Hu. apply Q.max_r. exact Hl.
Qed.

Lemma decode_then_encode_witness :
  int16 (-32768) /\ floatToInt16 (int16ToFloat (-32768)) = (-32768)%Z.
Proof.
  refine ((fun H => conj H (decode_then_encode (-32768) H)) _).
  unfold int16. lia.
Defined.

(** X3. The capture conversion is monotone: a larger sample is never
    stored as a smaller integer. *)
Theorem floatToInt16_monotone (x y : Q) :
  x <= y -> (floatToInt16 x <= floatToInt16 y)%Z.
Proof.
  intros H. rewrite !floatToInt16_truncate. apply truncate_mono.
  apply Q.max_le_compat_l. apply Q.min_le_compat_l.
  unfold inject_Z. lra.
Qed.

Local Open Scope Z_scope.

Lemma byte_range (b : byte) : 0 <= Z.of_N (Byte.to_N b) <= 255.
Proof. pose proof (Byte.to_N_bounded b). lia. Qed.

Lemma byte_of_Z_inj (a b : byte) :
  Z.of_N (Byte.to_N a) = Z.of_N (Byte.to_N b) -> a = b.
Proof.
  intros H. apply N2Z.inj in H.
  pose proof (Byte.of_to_N a) as Ha. rewrite H, Byte.of_to_N in Ha. congruence.
Qed.

(** X4. The decoder reads two bytes as a signed 16-bit value, low
    byte first: the value lies in [-32768, 32767], its residue modulo 256
    is the first byte, the next eight bits are the second byte, and it is
    negative exactly when the top bit of the second byte is set. *)
Theorem getInt16LE_twos_complement (lo hi : byte) :
  int16 (getInt16LE lo hi) /\
  (getInt16LE lo hi) mod 256 = Z.of_N (Byte.to_N lo) /\
  (getInt16LE lo hi / 256) mod 256 = Z.of_N (Byte.to_N hi) /\
  (getInt16LE lo hi < 0 <-> 128 <= Z.of_N (Byte.to_N hi)).
Proof.
  unfold getInt16LE, int16.
  pose proof (byte_range lo) as Hlo. pose proof (byte_range hi) as Hhi.
  set (a := Z.of_N (Byte.to_N lo)) in *. set (b := Z.of_N (Byte.to_N hi)) in *.
  clearbody a b. cbv zeta.
  destruct (Z.leb_spec 32768 (a + 256 * b)) as [H | H].
  - assert (E : a + 256 * b - 65536 = a + 256 * (b - 256)) by lia.
    rewrite E. repeat split; try lia.
    + rewrite Z.mul_comm, Z.mod_add by lia. apply Z.mod_small. lia.
    + rewrite Z.mul_comm, Z.div_add by lia. rewrite Z.div_small by lia.
      cbn. assert (E2 : b - 256 = b + (-1) * 256) by lia.
      rewrite E2, Z.mod_add by lia. apply Z.mod_small. lia.
  - repeat split; try lia.
    + rewrite Z.mul_comm, Z.mod_add by lia. apply Z.mod_small. lia.
    + rewrite Z.mul_comm, Z.div_add by lia. rewrite Z.div_small by lia.
      cbn. apply Z.mod_small. lia.
Qed.

Lemma getInt16LE_int16 lo hi : -32768 <= getInt16LE lo hi <= 32767.
Proof.
  unfold getInt16LE.
  pose proof (byte_range lo) as Hlo. pose proof (byte_range hi) as Hhi.
  cbv zeta. destruct (Z.leb_spec 32768 (Z.of_N (Byte.to_N lo) + 256 * Z.of_N (Byte.to_N hi))); lia.
Qed.

Lemma int16ToFloat_normalized v : int16 v -> normalized (int16ToFloat v).
Proof.
  intros [Hl Hu]. unfold normalized, int16ToFloat.
  rewrite Zle_Qle in Hl, Hu. unfold inject_Z in *.
  assert (Hdiv : forall t, (t / (32768 # 1) == t * (1 # 32768))%Q) by reflexivity.
  rewrite !Hdiv. split; lra.
Qed.

(** Induction over a byte string two bytes at a time. *)
Lemma pairs_ind (P : list byte -> Prop) :
  P [] -> (forall x, P [x]) -> (forall lo hi rest, P rest -> P (lo :: hi :: rest)) ->
  forall b, P b.
Proof.
  intros H0 H1 H2.
  assert (H : forall b, P b /\ forall x, P (x :: b)).
  { induction b as [|y b [IH1 IH2]]; split; auto. }
  intros b. apply H.
Qed.

Lemma samples_outcome (b : list byte) :
  match samples b with
  | None => Nat.odd (List.length b) = true
  | Some l =>
      Nat.even (List.length b) = true /\
      List.length b = (2 * List.length l)%nat /\
      Forall normalized l
  end.
Proof.
  induction b as [ | x | lo hi rest IH ] using pairs_ind.
  - cbn. repeat split; constructor.
  - reflexivity.
  - cbn [samples]. destruct (samples rest) as [l|].
    + destruct IH as (He & Hlen & Hall). repeat split.
      * cbn [List.length]. rewrite Nat.even_succ_succ. exact He.
      * cbn [List.length]. lia.
      * constructor; [ | exact Hall ].
        apply int16ToFloat_normalized, getInt16LE_int16.
    + cbn [List.length]. rewrite Nat.odd_succ_succ. exact IH.
Qed.

Lemma floatToInt16_monotone_witness :
  (1 # 3 <= 1 # 2)%Q /\ floatToInt16 (1 # 3) <= floatToInt16 (1 # 2).
Proof.
  refine ((fun H => conj H (floatToInt16_monotone (1 # 3) (1 # 2) H)) _).
  unfold Qle. cbn. lia.
Defined.

End PcmLaws.

(* ================================================================== *)
(** ** Decoding, batches and chunks that are not played *)
(* ================================================================== *)

Module SchedulerLaws.

Import Agent Observe Invariant Scenario Wire Batch Moments.
Local Open Scope Z_scope.
Local Open Scope agent_scope.
Import Frame Transitions Playback.

Lemma chunk_duration_nonneg chunk : (0 <= chunk_duration chunk)%Q.
Proof. unfold chunk_duration, Qle. cbn [Qnum Qden]. lia. Qed.

(** *** Decoding a payload *)

(** X5. What base64ToPCMFloat32 returns.  It returns [null] when
    [atob] rejects the text, when the payload is shorter than the offset
    (44 for the first payload after a reset, 0 afterwards), or when an odd
    number of bytes follows the offset.  Otherwise it returns one sample
    for every two bytes after the offset, each of them in [-1, 1). *)
Theorem decode_outcome (s : State) (b : list byte) :
  fst (base64ToPCMFloat32 None s) = None /\
  match fst (base64ToPCMFloat32 (Some b) s) with
  | None =>
      (List.length b < (if wavHeaderProcessed s then 0 else 44))%nat \/
      Nat.odd (List.length b - (if wavHeaderProcessed s then 0 else 44)) = true
  | Some float32Array =>
      (List.length b
       = (if wavHeaderProcessed s then 0 else 44) + 2 * List.length float32Array)%nat /\
      Forall normalized float32Array
  end.
Proof.
  split; [ reflexivity | ].
  destruct (base64_decodeAt b s) as [-> _]. unfold decodeAt.
  set (offset := if wavHeaderProcessed s then 0%nat else 44%nat).
  destruct (Nat.ltb_spec (List.length b) offset) as [Hlt | Hge]; [ left; exact Hlt | ].
  pose proof (PcmLaws.samples_outcome (skipn offset b)) as H.
  rewrite length_skipn in H.
  destruct (Pcm.samples (skipn offset b)) as [l|].
  - destruct H as (_ & Hlen & Hall). split; [ lia | exact Hall ].
  - right. exact H.
Qed.

(** *** Never in the past *)

Lemma ahead_emit now base e s :
  is_start e = false -> ahead_of now base s ->
  ahead_of now base (set_trace (trace s ++ [e]) s).
Proof.
  intros He (new & Ht & Hall). exists (new ++ [e]). cbn.
  rewrite Ht, app_assoc, starts_app, (starts_other e He), app_nil_r.
  split; [ reflexivity | exact Hall ].
Qed.

Lemma ahead_start now base w d s :
  (now < w)%Q -> (0 <= w)%Q -> ahead_of now base s ->
  ahead_of now base (set_trace (trace s ++ [Start w d]) s).
Proof.
  intros Hw H0 (new & Ht & Hall). exists (new ++ [Start w d]). cbn.
  rewrite Ht, app_assoc, starts_app. split; [ reflexivity | ].
  apply Forall_app. split; [ exact Hall | ].
  constructor; [ | constructor ]. cbn. split; assumption.
Qed.

Lemma ahead_frame now base s s' :
  trace s' = trace s -> ahead_of now base s -> ahead_of now base s'.
Proof. intros E (new & Ht & Hall). exists new. rewrite E. split; assumption. Qed.

Lemma scheduleChunk_ahead ctx base chunk s :
  audioPlaybackContext s = Some ctx ->
  ahead_of (currentTime ctx) base s ->
  ahead_of (currentTime ctx) base (exec (scheduleChunkAtPlayhead chunk) s).
Proof.
  intros Hctx H. unfold scheduleChunkAtPlayhead. run_monad. rewrite Hctx.
  destruct (is_closed ctx); [ apply ahead_emit; [ reflexivity | exact H ] | ].
  destruct chunk as [[|x l]|];
    try (apply ahead_emit; [ reflexivity | exact H ]).
  destruct (Qle_bool (audioPlayheadTime s) (currentTime ctx)) eqn:Hsnap; cbn.
  - destruct (Qle_bool 0 (currentTime ctx + (1 # 100))) eqn:Hpos; cbn.
    + apply Qle_bool_iff in Hpos.
      apply (ahead_frame _ _ (set_trace (trace s ++ [Start (currentTime ctx + (1 # 100)) (Z.of_nat (S (List.length l)) # AUDIO_SAMPLE_RATE)]) s));
        [ reflexivity | ].
      apply ahead_start; [ lra | exact Hpos | exact H ].
    + apply (ahead_frame _ _ (set_trace (trace s ++ [Log SchedulingError]) s));
        [ reflexivity | ].
      apply ahead_emit; [ reflexivity | exact H ].
  - apply Qle_bool_false in Hsnap.
    destruct (Qle_bool 0 (audioPlayheadTime s)) eqn:Hpos; cbn.
    + apply Qle_bool_iff in Hpos.
      apply (ahead_frame _ _ (set_trace (trace s ++ [Start (audioPlayheadTime s) (Z.of_nat (S (List.length l)) # AUDIO_SAMPLE_RATE)]) s));
        [ reflexivity | ].
      apply ahead_start; [ exact Hsnap | exact Hpos | exact H ].
    + apply ahead_emit; [ reflexivity | exact H ].
Qed.

Lemma scheduleChunk_context chunk s :
  audioPlaybackContext (exec (scheduleChunkAtPlayhead chunk) s) = audioPlaybackContext s.
Proof.
  pose proof (scheduleChunkAtPlayhead_playback s chunk s (only_playback_refl s)) as H.
  unfold only_playback in H. tauto.
Qed.

Lemma shift_state s :
  exec shift s = set_audioBufferQueue (tl (audioBufferQueue s)) s \/ exec shift s = s.
Proof. unfold shift, exec. destruct (audioBufferQueue s); cbn; auto. Qed.

Lemma scheduleLoop_ahead ctx base n : forall s,
  audioPlaybackContext s = Some ctx ->
  ahead_of (currentTime ctx) base s ->
  ahead_of (currentTime ctx) base (exec (scheduleLoop n) s).
Proof.
  induction n as [|n IH]; intros s Hctx H; [ exact H | ].
  cbn [scheduleLoop]. rewrite !exec_bind. apply IH.
  - rewrite scheduleChunk_context.
    unfold shift, exec. destruct (audioBufferQueue s); exact Hctx.
  - apply scheduleChunk_ahead.
    + unfold shift, exec. destruct (audioBufferQueue s); exact Hctx.
    + unfold shift, exec. destruct (audioBufferQueue s); exact H.
Qed.

Lemma ahead_initial now s : ahead_of now (trace s) s.
Proof. exists []. rewrite app_nil_r. split; [ reflexivity | constructor ]. Qed.

(** X6. No chunk is scheduled in the past: every start time that one
    call of processBufferedChunks hands to [source.start] is later than
    the clock of the playback context, and not negative. *)
Theorem nothing_scheduled_in_the_past s ctx :
  audioPlaybackContext s = Some ctx ->
  Forall (fun iv => (currentTime ctx < fst iv)%Q /\ (0 <= fst iv)%Q)
         (starts (emitted s (exec processBufferedChunks s))).
Proof.
  intros Hctx.
  assert (H : ahead_of (currentTime ctx) (trace s) (exec processBufferedChunks s)).
  { unfold processBufferedChunks. rewrite exec_get_bind.
    apply scheduleLoop_ahead; [ exact Hctx | apply ahead_initial ]. }
  destruct H as (new & Ht & Hall). rewrite (emitted_app _ _ _ Ht). exact Hall.
Qed.

(** On an underrun the two queued chunks start just after the clock. *)
Lemma underrun_snaps_forward :
  audioPlaybackContext two_queued = Some {| ctxState := running; currentTime := 500 # 1000 |} /\
  Forall (fun iv => ((500 # 1000) < fst iv)%Q /\ (0 <= fst iv)%Q)
         (starts (emitted two_queued (exec processBufferedChunks two_queued))).
Proof.
  refine ((fun H => conj H (nothing_scheduled_in_the_past two_queued _ H)) _).
  vm_compute. reflexivity.
Defined.

Example underrun_snaps_forward_starts :
  audioPlayheadTime two_queued = (1 # 10)%Q /\
  map fst (starts (emitted two_queued (exec processBufferedChunks two_queued)))
    = [(51000 # 100000)%Q; (2259100000 # 4410000000)%Q].
Proof. by_running. Qed.

(** *** The playhead only moves forward *)

Lemma scheduleChunk_playhead p chunk :
  preserves (playhead_from p) (scheduleChunkAtPlayhead chunk).
Proof.
  intros s H. unfold playhead_from in *. unfold scheduleChunkAtPlayhead. run_monad.
  destruct (audioPlaybackContext s) as [ctx|]; [ | exact H ].
  destruct (is_closed ctx); [ exact H | ].
  destruct chunk as [[|x l]|]; try exact H.
  pose proof (chunk_duration_nonneg (x :: l)) as Hd. unfold chunk_duration in Hd.
  set (d := (Z.of_nat (List.length (x :: l)) # AUDIO_SAMPLE_RATE)%Q) in *. clearbody d.
  destruct (Qle_bool (audioPlayheadTime s) (currentTime ctx)) eqn:Hsnap; cbn.
  - apply Qle_bool_iff in Hsnap.
    destruct (Qle_bool 0 (currentTime ctx + (1 # 100))); cbn; lra.
  - destruct (Qle_bool 0 (audioPlayheadTime s)); cbn; lra.
Qed.

Lemma shift_playhead p : preserves (playhead_from p) shift.
Proof. intros s H. unfold shift. destruct (audioBufferQueue s); exact H. Qed.

Lemma scheduleLoop_playhead p n : preserves (playhead_from p) (scheduleLoop n).
Proof.
  induction n; cbn [scheduleLoop]; pres_steps;
    auto using shift_playhead, scheduleChunk_playhead.
Qed.

(** X7. Scheduling never moves the playhead backwards, whether the
    chunk is scheduled, refused for want of a context, or fails. *)
Theorem playhead_never_moves_back s :
  (forall chunk,
     (audioPlayheadTime s <= audioPlayheadTime (exec (scheduleChunkAtPlayhead chunk) s))%Q) /\
  (audioPlayheadTime s <= audioPlayheadTime (exec processBufferedChunks s))%Q.
Proof.
  split.
  - intros chunk. apply (scheduleChunk_playhead (audioPlayheadTime s) chunk s).
    apply Qle_refl.
  - unfold processBufferedChunks. rewrite exec_get_bind.
    apply (scheduleLoop_playhead (audioPlayheadTime s) _ s). apply Qle_refl.
Qed.

(** *** Batches *)

Lemma scheduleChunk_queue chunk s :
  audioBufferQueue (exec (scheduleChunkAtPlayhead chunk) s) = audioBufferQueue s.
Proof.
  unfold scheduleChunkAtPlayhead. run_monad.
  destruct (audioPlaybackContext s) as [ctx|]; [ | reflexivity ].
  destruct (is_closed ctx); [ reflexivity | ].
  destruct chunk as [[|x l]|]; try reflexivity.
  destruct (Qle_bool (audioPlayheadTime s) (currentTime ctx)); cbn;
    match goal with |- context [Qle_bool 0 ?p] => destruct (Qle_bool 0 p) end;
    reflexivity.
Qed.

Lemma scheduleLoop_queue n : forall s,
  audioBufferQueue (exec (scheduleLoop n) s) = skipn n (audioBufferQueue s).
Proof.
  induction n as [|n IH]; intros s; [ reflexivity | ].
  cbn [scheduleLoop]. rewrite !exec_bind, IH, scheduleChunk_queue.
  unfold shift, exec. destruct (audioBufferQueue s) as [|c q] eqn:Hq; cbn [snd].
  - rewrite Hq. destruct n; reflexivity.
  - reflexivity.
Qed.

Lemma skipn_min {A} (l : list A) k :
  skipn (Nat.min (List.length l) k) l = skipn k l.
Proof.
  destruct (Nat.le_ge_cases (List.length l) k) as [H | H].
  - rewrite Nat.min_l by exact H. rewrite !skipn_all2; auto.
  - rewrite Nat.min_r by exact H. reflexivity.
Qed.

Lemma firstn_min {A} (l : list A) k :
  firstn (Nat.min (List.length l) k) l = firstn k l.
Proof.
  destruct (Nat.le_ge_cases (List.length l) k) as [H | H].
  - rewrite Nat.min_l by exact H. rewrite !firstn_all2; auto.
  - rewrite Nat.min_r by exact H. reflexivity.
Qed.

Lemma snap_ahead now p d :
  (0 <= d)%Q -> snap now (snap now p + d) = (snap now p + d)%Q.
Proof.
  intros Hd. unfold snap at 1.
  destruct (Qle_bool (snap now p + d) now) eqn:E; [ | reflexivity ].
  exfalso. apply Qle_bool_iff in E. unfold snap in E.
  destruct (Qle_bool p now) eqn:Hp.
  - lra.
  - apply Qle_bool_false in Hp. lra.
Qed.

Lemma scheduleLoop_fifo ctx n : forall s,
  audioPlaybackContext s = Some ctx -> is_closed ctx = false ->
  (0 <= currentTime ctx)%Q -> no_empty_chunk s ->
  (n <= List.length (audioBufferQueue s))%nat ->
  (exists l,
     trace (exec (scheduleLoop n) s) = trace s ++ l /\
     List.length l = n /\
     starts l = back_to_back (snap (currentTime ctx) (audioPlayheadTime s))
                  (firstn n (audioBufferQueue s))) /\
  ((0 < n)%nat ->
   audioPlayheadTime (exec (scheduleLoop n) s)
   = finish (snap (currentTime ctx) (audioPlayheadTime s))
       (firstn n (audioBufferQueue s))).
Proof.
  induction n as [|n IH]; intros s Hctx Hopen Hnow Hne Hlen.
  - split; [ | lia ]. exists []. rewrite app_nil_r. repeat split.
  - cbn [scheduleLoop]. rewrite !exec_bind.
    destruct (audioBufferQueue s) as [|c q] eqn:Hq; [ cbn in Hlen; lia | ].
    unfold no_empty_chunk in Hne. rewrite Hq in Hne.
    assert (Hc : c <> []) by (inversion Hne; assumption).
    assert (Hrest : Forall (fun chunk => chunk <> []) q) by (inversion Hne; assumption).
    destruct c as [|x c]; [ congruence | ].
    assert (Hf : fst (shift s) = Some (x :: c)).
    { unfold shift. rewrite Hq. reflexivity. }
    assert (He : exec shift s = set_audioBufferQueue q s).
    { unfold shift, exec. rewrite Hq. reflexivity. }
    rewrite Hf, He.
    set (s1 := set_audioBufferQueue q s).
    destruct (schedule_at_playhead s1 ctx x c Hctx Hopen Hnow) as [Ht Hp].
    set (s2 := exec (scheduleChunkAtPlayhead (Some (x :: c))) s1) in *.
    assert (Hq2 : audioBufferQueue s2 = q) by (subst s2; apply scheduleChunk_queue).
    assert (Hp2 : audioPlayheadTime s2
                  = (snap (currentTime ctx) (audioPlayheadTime s)
                     + chunk_duration (x :: c))%Q) by exact Hp.
    destruct (IH s2) as ((l & Hl & Hlen2 & Hd) & Hend).
    + subst s2. rewrite scheduleChunk_context. exact Hctx.
    + exact Hopen.
    + exact Hnow.
    + unfold no_empty_chunk. rewrite Hq2. exact Hrest.
    + rewrite Hq2. cbn in Hlen. lia.
    + rewrite Hp2, (snap_ahead _ _ _ (chunk_duration_nonneg (x :: c))), Hq2 in Hd, Hend.
      split.
      * eexists (_ :: l). rewrite Hl, Ht. cbn [trace s1 set_audioBufferQueue].
        rewrite <- app_assoc. cbn [app]. split; [ reflexivity | ].
        split; [ cbn; lia | ].
        cbn [starts firstn back_to_back]. rewrite Hd. reflexivity.
      * intros _. cbn [firstn]. unfold finish. cbn [fold_left].
        destruct n as [|n]; [ exact Hp2 | ].
        apply Hend. lia.
Qed.

(** X8. On an open playback context whose clock is not negative,
    one call of processBufferedChunks takes the first five chunks of the
    queue (all of them when there are fewer) and schedules them in queue
    order, back to back: the first at the playhead, or at [now + 0.01]
    when the playhead is not ahead of the clock, each next one where the
    one before it ends.  It emits nothing else, leaves the rest of the
    queue in place, and leaves the playhead where the last of them
    ends. *)
Theorem batch_plays_first_five_back_to_back s ctx :
  audioPlaybackContext s = Some ctx -> is_closed ctx = false ->
  (0 <= currentTime ctx)%Q -> no_empty_chunk s ->
  audioBufferQueue (exec processBufferedChunks s) = skipn 5 (audioBufferQueue s) /\
  starts (emitted s (exec processBufferedChunks s))
    = back_to_back (snap (currentTime ctx) (audioPlayheadTime s))
        (firstn 5 (audioBufferQueue s)) /\
  List.length (emitted s (exec processBufferedChunks s))
    = Nat.min (List.length (audioBufferQueue s)) 5 /\
  audioPlayheadTime (exec processBufferedChunks s)
    = match audioBufferQueue s with
      | [] => audioPlayheadTime s
      | _ => finish (snap (currentTime ctx) (audioPlayheadTime s))
               (firstn 5 (audioBufferQueue s))
      end.
Proof.
  intros Hctx Hopen Hnow Hne.
  unfold processBufferedChunks. rewrite exec_get_bind.
  split; [ rewrite scheduleLoop_queue; apply skipn_min | ].
  destruct (scheduleLoop_fifo ctx (Nat.min (List.length (audioBufferQueue s)) 5) s
              Hctx Hopen Hnow Hne (Nat.le_min_l _ _)) as ((l & Hl & Hlen & Hd) & Hend).
  rewrite (emitted_app _ _ _ Hl).
  split; [ rewrite Hd, firstn_min; reflexivity | ].
  split; [ exact Hlen | ].
  destruct (audioBufferQueue s) as [|c q] eqn:Hq; [ reflexivity | ].
  rewrite <- Hq in *. rewrite Hend, firstn_min; [ reflexivity | ].
  rewrite Hq. cbn. lia.
Qed.

Lemma two_queued_batch :
  (audioPlaybackContext two_queued = Some {| ctxState := running; currentTime := 500 # 1000 |} /\
   no_empty_chunk two_queued) /\
  audioBufferQueue (exec processBufferedChunks two_queued)
    = skipn 5 (audioBufferQueue two_queued) /\
  starts (emitted two_queued (exec processBufferedChunks two_queued))
    = back_to_back (snap (500 # 1000) (audioPlayheadTime two_queued))
        (firstn 5 (audioBufferQueue two_queued)) /\
  List.length (emitted two_queued (exec processBufferedChunks two_queued))
    = Nat.min (List.length (audioBufferQueue two_queued)) 5 /\
  audioPlayheadTime (exec processBufferedChunks two_queued)
    = match audioBufferQueue two_queued with
      | [] => audioPlayheadTime two_queued
      | _ => finish (snap (500 # 1000) (audioPlayheadTime two_queued))
               (firstn 5 (audioBufferQueue two_queued))
      end.
Proof.
  refine ((fun H => conj H
             (batch_plays_first_five_back_to_back two_queued _ (proj1 H) _ _ (proj2 H))) _).
  - reflexivity.
  - unfold Qle. cbn. lia.
  - split; [ vm_compute; reflexivity | ].
    unfold no_empty_chunk.
    replace (audioBufferQueue two_queued)
      with [repeat (Pcm.int16ToFloat 0) 100; repeat (Pcm.int16ToFloat 0) 100]
      by (vm_compute; reflexivity).
    repeat constructor; discriminate.
Defined.

(** Of seven queued chunks one batch schedules five and leaves two. *)
Example seven_queued_batch :
  map (@List.length Q) (audioBufferQueue seven_queued)
    = [100; 100; 50; 100; 50; 100; 50]%nat /\
  map (@List.length Q) (audioBufferQueue (exec processBufferedChunks seven_queued))
    = [100; 50]%nat /\
  map snd (starts (emitted seven_queued (exec processBufferedChunks seven_queued)))
    = [100 # 44100; 100 # 44100; 50 # 44100; 100 # 44100; 50 # 44100]%Q.
Proof. by_running. Qed.

(** *** Without a playback context *)

Lemma scheduleChunk_unusable chunk s :
  usable s = false ->
  exec (scheduleChunkAtPlayhead chunk) s
  = set_trace (trace s ++ [Log ContextUnavailable]) s.
Proof.
  unfold usable, scheduleChunkAtPlayhead. run_monad.
  destruct (audioPlaybackContext s) as [ctx|]; [ | reflexivity ].
  destruct (is_closed ctx); [ reflexivity | discriminate ].
Qed.

Lemma scheduleLoop_unusable n : forall s,
  usable s = false -> (n <= List.length (audioBufferQueue s))%nat ->
  trace (exec (scheduleLoop n) s) = trace s ++ repeat (Log ContextUnavailable) n /\
  audioPlayheadTime (exec (scheduleLoop n) s) = audioPlayheadTime s.
Proof.
  induction n as [|n IH]; intros s Hu Hlen.
  - cbn. rewrite app_nil_r. split; reflexivity.
  - cbn [scheduleLoop]. rewrite !exec_bind.
    destruct (audioBufferQueue s) as [|c q] eqn:Hq; [ cbn in Hlen; lia | ].
    assert (He : exec shift s = set_audioBufferQueue q s).
    { unfold shift, exec. rewrite Hq. reflexivity. }
    rewrite He. set (s1 := set_audioBufferQueue q s).
    assert (Hu1 : usable s1 = false) by exact Hu.
    rewrite (scheduleChunk_unusable _ s1 Hu1).
    destruct (IH (set_trace (trace s1 ++ [Log ContextUnavailable]) s1)) as [Ht Hp].
    + exact Hu.
    + cbn in *. lia.
    + rewrite Ht, Hp. cbn. rewrite <- app_assoc. split; reflexivity.
Qed.

(** X9. While there is no playback context, or a closed one, a call
    of processBufferedChunks still takes up to five chunks off the queue:
    each is reported as unschedulable and lost, nothing is scheduled and
    the playhead stays where it is. *)
Theorem batch_without_context_discards s :
  usable s = false ->
  audioBufferQueue (exec processBufferedChunks s) = skipn 5 (audioBufferQueue s) /\
  emitted s (exec processBufferedChunks s)
    = repeat (Log ContextUnavailable) (Nat.min (List.length (audioBufferQueue s)) 5) /\
  audioPlayheadTime (exec processBufferedChunks s) = audioPlayheadTime s.
Proof.
  intros Hu. unfold processBufferedChunks. rewrite exec_get_bind.
  split; [ rewrite scheduleLoop_queue; apply skipn_min | ].
  destruct (scheduleLoop_unusable (Nat.min (List.length (audioBufferQueue s)) 5) s
              Hu (Nat.le_min_l _ _)) as [Ht Hp].
  split; [ apply emitted_app; exact Ht | exact Hp ].
Qed.

Lemma torn_down_batch :
  usable torn_down = false /\
  audioBufferQueue (exec processBufferedChunks torn_down)
    = skipn 5 (audioBufferQueue torn_down) /\
  emitted torn_down (exec processBufferedChunks torn_down)
    = repeat (Log ContextUnavailable)
        (Nat.min (List.length (audioBufferQueue torn_down)) 5) /\
  audioPlayheadTime (exec processBufferedChunks torn_down) = audioPlayheadTime torn_down.
Proof.
  refine ((fun H => conj H (batch_without_context_discards torn_down H)) _).
  vm_compute. reflexivity.
Defined.

Example torn_down_batch_loses_two :
  List.length (audioBufferQueue torn_down) = 2%nat /\
  audioBufferQueue (exec processBufferedChunks torn_down) = [] /\
  starts (emitted torn_down (exec processBufferedChunks torn_down)) = [].
Proof. by_running. Qed.

(** *** Chunks that are not played *)

(** X10. An audio_chunk whose payload does not decode to at least one
    sample is dropped: the phase becomes Speaking, and the queue, the
    playhead, the buffering flag and the playback context are as before;
    nothing is scheduled. *)
Theorem undecodable_chunk_is_dropped i d s :
  accepted s (WsMessage (audio_chunk i d)) = false ->
  conversationState (exec (handleWebSocketMessage (audio_chunk i d)) s) = Speaking /\
  audioBufferQueue (exec (handleWebSocketMessage (audio_chunk i d)) s) = audioBufferQueue s /\
  audioPlayheadTime (exec (handleWebSocketMessage (audio_chunk i d)) s) = audioPlayheadTime s /\
  isBuffering (exec (handleWebSocketMessage (audio_chunk i d)) s) = isBuffering s /\
  audioPlaybackContext (exec (handleWebSocketMessage (audio_chunk i d)) s)
    = audioPlaybackContext s /\
  starts (emitted s (exec (handleWebSocketMessage (audio_chunk i d)) s)) = [].
Proof.
  intros Hacc. cbn [handleWebSocketMessage].
  split; [ apply handleAudioChunk_speaking | ].
  destruct (handleAudioChunk_exec d s) as (sb & Hquiet & ->).
  assert (Hmid : match fst (base64ToPCMFloat32 d s) with
                 | Some ((_ :: _) as pcm) => enqueueAndPlay pcm
                 | _ => ret tt
                 end = ret tt).
  { cbn [accepted] in Hacc.
    destruct (fst (base64ToPCMFloat32 d s)) as [[|x l]|];
      [ reflexivity | discriminate | reflexivity ]. }
  rewrite Hmid. change (exec (ret tt) sb) with sb.
  destruct Hquiet as (Q1 & Q2 & Q3 & Q4 & Q5 & Q6 & Q7 & Q8 & Q9 & l & Hl & Hq).
  rewrite armSafetyTimeout_effect.
  destruct (isAudioPlaying sb);
    rewrite (emitted_app s _ l) by exact Hl;
    rewrite (quiet_no_starts l Hq); cbn; repeat split; assumption.
Qed.

Lemma short_payload_is_dropped :
  accepted responding (WsMessage (audio_chunk 0 (silence 1))) = false /\
  conversationState (exec (handleWebSocketMessage (audio_chunk 0 (silence 1))) responding)
    = Speaking /\
  audioBufferQueue (exec (handleWebSocketMessage (audio_chunk 0 (silence 1))) responding)
    = audioBufferQueue responding /\
  audioPlayheadTime (exec (handleWebSocketMessage (audio_chunk 0 (silence 1))) responding)
    = audioPlayheadTime responding /\
  isBuffering (exec (handleWebSocketMessage (audio_chunk 0 (silence 1))) responding)
    = isBuffering responding /\
  audioPlaybackContext (exec (handleWebSocketMessage (audio_chunk 0 (silence 1))) responding)
    = audioPlaybackContext responding /\
  starts (emitted responding
            (exec (handleWebSocketMessage (audio_chunk 0 (silence 1))) responding)) = [].
Proof.
  refine ((fun H => conj H (undecodable_chunk_is_dropped 0 (silence 1) responding H)) _).
  vm_compute. reflexivity.
Defined.

(** A payload of exactly the header, an odd-length one and one that
    [atob] rejects are dropped; the second and third are logged. *)
Example dropped_payloads :
  observe (fun s => (List.length (audioBufferQueue s), count_log DecodeError (trace s)))
    (first_response ++ [WsMessage (audio_chunk 0 (silence 44))]) = Some (0, 0)%nat /\
  observe (fun s => (List.length (audioBufferQueue s), count_log DecodeError (trace s)))
    (first_response ++ [WsMessage (audio_chunk 0 (silence 47))]) = Some (0, 1)%nat /\
  observe (fun s => (List.length (audioBufferQueue s), count_log DecodeError (trace s)))
    (first_response ++ [WsMessage (audio_chunk 0 None)]) = Some (0, 1)%nat /\
  observe (fun s => (List.length (audioBufferQueue s), count_log DecodeError (trace s)))
    (first_response ++ [WsMessage (audio_chunk 0 None);
                        WsMessage (audio_chunk 1 (silence 48))]) = Some (1, 1)%nat.
Proof. by_running. Qed.

(** X11. When the chunk that reaches the threshold arrives while no
    playback context exists (no [chat_started] came before the audio),
    startBufferedPlayback creates the context and resets the scheduler:
    the buffered chunks are discarded unplayed, the scheduler is buffering
    again with the header flag cleared, and a guard timer is armed. *)
Theorem threshold_without_context_starts_over d s pcm ctx :
  audioPlaybackContext s = None -> newPlaybackContext (platform s) = Some ctx ->
  isBuffering s = true -> (2 <= List.length (audioBufferQueue s))%nat ->
  fst (base64ToPCMFloat32 d s) = Some pcm -> pcm <> [] ->
  audioBufferQueue (exec (handleAudioChunk d) s) = [] /\
  audioPlaybackContext (exec (handleAudioChunk d) s) = Some ctx /\
  isBuffering (exec (handleAudioChunk d) s) = true /\
  wavHeaderProcessed (exec (handleAudioChunk d) s) = false /\
  starts (emitted s (exec (handleAudioChunk d) s)) = [] /\
  tasks (exec (handleAudioChunk d) s)
    = tasks s ++ [{| due := clock s + 15000; callback := SafetyTimeout |}].
Proof.
  intros Hctx Hnew Hbuf Hlen Hpcm Hne.
  destruct (handleAudioChunk_exec d s) as (sb & Hquiet & ->).
  rewrite Hpcm. destruct pcm as [|x pcm]; [ congruence | ].
  destruct Hquiet as (Q1 & Q2 & Q3 & Q4 & Q5 & Q6 & Q7 & Q8 & Q9 & l & Hl & Hq).
  rewrite armSafetyTimeout_effect.
  assert (Hmid : exists l2,
            let sc := exec (enqueueAndPlay (x :: pcm)) sb in
            audioBufferQueue sc = [] /\ audioPlaybackContext sc = Some ctx /\
            isBuffering sc = true /\ wavHeaderProcessed sc = false /\
            isAudioPlaying sc = false /\ tasks sc = tasks sb /\ clock sc = clock sb /\
            trace sc = trace sb ++ l2 /\ starts l2 = []).
  { exists [Log BufferThresholdReached; Log ContextNull].
    unfold enqueueAndPlay, startBufferedPlayback, initializeAudioPlayback,
      resetAudioPlaybackState.
    destruct (audioBufferQueue s) as [|a [|b q]] eqn:Hq0; cbn in Hlen; try lia.
    assert (E : List.length (q ++ [x :: pcm]) = S (List.length q))
      by (rewrite length_app; cbn; lia).
    run_monad. cbn. rewrite Q4, Hbuf, Q3. cbn. rewrite E. cbn. rewrite Q1, Hctx. cbn.
    rewrite Q9, Hnew. cbn. rewrite Q1, Hctx. cbn.
    repeat split. rewrite <- app_assoc. reflexivity. }
  destruct Hmid as (l2 & H1 & H2 & H3 & H4 & H5 & H6 & H7 & H8 & H9).
  cbv zeta in *. rewrite H5.
  rewrite (emitted_app s _ (l ++ l2))
    by (cbn; rewrite H8, Hl, app_assoc; reflexivity).
  rewrite starts_app, (quiet_no_starts l Hq), H9. cbn.
  rewrite H6, H7, Q7, Q8. repeat split; assumption.
Qed.

Lemma unannounced_audio_starts_over :
  (audioPlaybackContext unannounced = None /\
   newPlaybackContext (platform unannounced)
     = Some {| ctxState := running; currentTime := 0 |} /\
   isBuffering unannounced = true /\
   (2 <= List.length (audioBufferQueue unannounced))%nat /\
   fst (base64ToPCMFloat32 (silence 4) unannounced)
     = Some [Pcm.int16ToFloat 0; Pcm.int16ToFloat 0] /\
   [Pcm.int16ToFloat 0; Pcm.int16ToFloat 0] <> []) /\
  audioBufferQueue (exec (handleAudioChunk (silence 4)) unannounced) = [] /\
  audioPlaybackContext (exec (handleAudioChunk (silence 4)) unannounced)
    = Some {| ctxState := running; currentTime := 0 |} /\
  isBuffering (exec (handleAudioChunk (silence 4)) unannounced) = true /\
  wavHeaderProcessed (exec (handleAudioChunk (silence 4)) unannounced) = false /\
  starts (emitted unannounced (exec (handleAudioChunk (silence 4)) unannounced)) = [] /\
  tasks (exec (handleAudioChunk (silence 4)) unannounced)
    = tasks unannounced
      ++ [{| due := clock unannounced + 15000; callback := SafetyTimeout |}].
Proof.
  refine ((fun H =>
             conj H
               (threshold_without_context_starts_over (silence 4) unannounced _ _
                  (proj1 H) (proj1 (proj2 H)) (proj1 (proj2 (proj2 H)))
                  (proj1 (proj2 (proj2 (proj2 H))))
                  (proj1 (proj2 (proj2 (proj2 (proj2 H)))))
                  (proj2 (proj2 (proj2 (proj2 (proj2 H))))))) _).
  split; [ vm_compute; reflexivity | ].
  split; [ vm_compute; reflexivity | ].
  split; [ vm_compute; reflexivity | ].
  split; [ vm_compute; lia | ].
  split; [ vm_compute; reflexivity | discriminate ].
Defined.

End SchedulerLaws.

(* ================================================================== *)
(** ** Invariants of sessions and the transition table *)
(* ================================================================== *)

Module SessionLaws.

Import Agent Observe Invariant Scenario Wire Batch Moments Session.
Local Open Scope Z_scope.
Local Open Scope agent_scope.
Import Frame Transitions Playback.

(** *** Invariants of runs *)

Lemma run_invariant (I : State -> Prop) :
  (forall e s s', step e s = Some s' -> I s -> I s') ->
  forall es s s', run es s = Some s' -> I s -> I s'.
Proof.
  intros Hstep es. induction es as [|e es IH]; intros s s' Hrun Hs.
  - cbn in Hrun. injection Hrun as <-. exact Hs.
  - cbn [run] in Hrun. destruct (step e s) as [s1|] eqn:He; [ | discriminate ].
    apply (IH s1 s' Hrun). apply (Hstep e s s1 He Hs).
Qed.

(** An invariant of every callback, and of what the runtime itself does
    to the state, is an invariant of every step. *)
Lemma step_invariant (I : State -> Prop) :
  preserves I handleConversationButton ->
  preserves I onopen ->
  (forall data, preserves I (handleWebSocketMessage data)) ->
  preserves I onclose ->
  preserves I onerror ->
  (forall granted, preserves I (setupAudioRecording granted)) ->
  (forall inputData, preserves I (onaudioprocess inputData)) ->
  (forall n s t, nth_error (tasks s) n = Some t -> I s ->
     I (exec (runCallback (callback t)) (set_tasks (remove_nth n (tasks s)) s))) ->
  (forall r s, I s -> I (setReadyState r s)) ->
  (forall dt s, I s -> I (advance dt s)) ->
  (forall c s, I s -> I (set_audioPlaybackContext c s)) ->
  (forall p s, I s -> I (set_platform p s)) ->
  forall e s s', step e s = Some s' -> I s -> I s'.
Proof.
  intros Hclick Hopen Hmsg Hclose Herr Hmedia Haudio Hfire Hready Hadv Hctx Hplat
         e s s' Hstep Hs.
  destruct e; cbn [step] in Hstep.
  - injection Hstep as <-. apply Hclick, Hs.
  - injection Hstep as <-. apply Hopen, Hready, Hs.
  - injection Hstep as <-. apply Hmsg, Hs.
  - injection Hstep as <-. apply Hclose, Hready, Hs.
  - injection Hstep as <-. apply Herr, Hs.
  - injection Hstep as <-. apply Hmedia, Hs.
  - injection Hstep as <-. apply Haudio, Hs.
  - destruct (nth_error (tasks s) n) as [t|] eqn:Hn; [ | discriminate ].
    destruct (due t <=? clock s); [ | discriminate ].
    injection Hstep as <-. apply (Hfire n s t Hn Hs).
  - destruct (0 <=? dt); [ | discriminate ]. injection Hstep as <-. apply Hadv, Hs.
  - destruct (audioPlaybackContext s); injection Hstep as <-; [ apply Hctx, Hs | exact Hs ].
  - injection Hstep as <-. apply Hplat, Hs.
Qed.

(** Unfolds the handlers down to their statements, keeping the calls of
    resetToIdle, endConversation, startConversation and
    processBufferedChunks as they are. *)
Ltac unfold_callers :=
  cbv delta [handleWebSocketMessage handleTranscriptMessage handleTurnComplete
             handleChatStarted handleAudioChunk handleLLMResponseComplete
             handleChatComplete handleAudioComplete
             startBufferedPlayback initializeAudioPlayback resetAudioPlaybackState
             base64ToPCMFloat32 addMessageToChat
             onclose onerror onopen setupAudioRecording onaudioprocess
             handleConversationButton goodbyeTimeout closeConnections
             safetyTimeout drainTimeout runCallback
             emit updateStatus updateLiveTranscript setTimeout thenRun] ;
  cbv beta iota zeta.

(** *** An active session is in a turn *)

Lemma active_in_turn_frame s s' :
  conversationState s' = conversationState s ->
  isConversationActive s' = isConversationActive s ->
  active_in_turn s -> active_in_turn s'.
Proof. unfold active_in_turn. intros -> ->. auto. Qed.

Ltac side_active :=
  match goal with
  | H : active_in_turn ?s |- active_in_turn _ =>
      first [ exact H
            | apply (active_in_turn_frame s); [ reflexivity | reflexivity | exact H ]
            | unfold active_in_turn; cbn; intros; reflexivity
            | unfold active_in_turn in *; cbn in *; congruence ]
  end.

Lemma resetToIdle_active : preserves active_in_turn resetToIdle.
Proof.
  intros s _. destruct (resetToIdle_effect s) as (_ & H & _).
  unfold active_in_turn. fold (exec resetToIdle s). rewrite H. discriminate.
Qed.

Lemma endConversation_active : preserves active_in_turn endConversation.
Proof.
  intros s _. unfold active_in_turn, endConversation. run_monad. cbn.
  destruct (is_open (websocket s)); cbn; discriminate.
Qed.

Lemma startConversation_active : preserves active_in_turn startConversation.
Proof.
  intros s _. unfold active_in_turn, startConversation, connectToLLMWebSocket.
  run_monad. cbn. destruct (is_open (websocket s)); cbn; reflexivity.
Qed.

Lemma processBufferedChunks_active : preserves active_in_turn processBufferedChunks.
Proof.
  apply pres_processBufferedChunks. intros s s' H.
  apply active_in_turn_frame; unfold only_playback in H; tauto.
Qed.

Ltac active_calls :=
  first [ apply resetToIdle_active | apply endConversation_active
        | apply startConversation_active | apply processBufferedChunks_active
        | side_active ].

Lemma active_in_turn_step e s s' :
  step e s = Some s' -> active_in_turn s -> active_in_turn s'.
Proof.
  apply step_invariant.
  - unfold_callers; pres_steps; active_calls.
  - unfold_callers; pres_steps; active_calls.
  - intros data. destruct data; unfold_callers; pres_steps; active_calls.
  - unfold_callers; pres_steps; active_calls.
  - unfold_callers; pres_steps; active_calls.
  - intros granted. unfold_callers; pres_steps; active_calls.
  - intros inputData. unfold_callers; pres_steps; active_calls.
  - intros n s0 t _ H.
    assert (H0 : active_in_turn (set_tasks (remove_nth n (tasks s0)) s0)) by exact H.
    revert H0. generalize (set_tasks (remove_nth n (tasks s0)) s0).
    change (preserves active_in_turn (runCallback (callback t))).
    destruct (callback t); unfold_callers; pres_steps; active_calls.
  - intros r s0 H. unfold setReadyState. destruct (websocket s0); exact H.
  - intros dt s0 H. unfold advance.
    destruct (audioPlaybackContext _) as [c|]; [ destruct (ctxState c) | ]; exact H.
  - intros c s0 H. exact H.
  - intros p s0 H. exact H.
Qed.

(** X12. In every state the client can reach, an active session is in
    the Listening, Processing or Speaking phase; in the Idle and Ending
    phases the session is inactive. *)
Theorem active_session_is_in_a_turn k p es s :
  run es (initial k p) = Some s ->
  isConversationActive s = true ->
  in_turn (conversationState s) = true.
Proof.
  intros Hrun. apply (run_invariant active_in_turn active_in_turn_step es _ s Hrun).
  unfold active_in_turn. cbn. discriminate.
Qed.

Lemma connected_session_in_turn :
  (run connect (initial no_keys browser) = Some (after connect fresh) /\
   isConversationActive (after connect fresh) = true) /\
  in_turn (conversationState (after connect fresh)) = true.
Proof.
  refine ((fun H => conj H
             (active_session_is_in_a_turn no_keys browser connect _ (proj1 H) (proj2 H))) _).
  split; vm_compute; reflexivity.
Defined.

(** The converse fails: audio that arrives after the user ended the
    conversation puts the inactive session into the Speaking phase. *)
Example speaking_while_inactive :
  observe (fun s => (conversationState s, isConversationActive s))
    (connect ++ [Click; WsMessage (audio_chunk 0 (silence 48))])
    = Some (Speaking, false).
Proof. by_running. Qed.

(** *** Idle means disconnected *)

Lemma idle_disconnected_frame s s' :
  conversationState s' = conversationState s -> websocket s' = websocket s ->
  idle_disconnected s -> idle_disconnected s'.
Proof. unfold idle_disconnected. intros -> ->. auto. Qed.

Ltac side_idle :=
  match goal with
  | H : idle_disconnected ?s |- idle_disconnected _ =>
      first [ exact H
            | apply (idle_disconnected_frame s); [ reflexivity | reflexivity | exact H ]
            | unfold idle_disconnected; cbn; intros; first [ reflexivity | discriminate ]
            | unfold idle_disconnected in *; cbn in *; congruence ]
  end.

Lemma resetToIdle_idle : preserves idle_disconnected resetToIdle.
Proof.
  intros s _. destruct (resetToIdle_effect s) as (_ & _ & _ & H & _).
  unfold idle_disconnected. fold (exec resetToIdle s). rewrite H. reflexivity.
Qed.

Lemma endConversation_idle : preserves idle_disconnected endConversation.
Proof.
  intros s _. unfold idle_disconnected, endConversation. run_monad. cbn.
  destruct (is_open (websocket s)); cbn; discriminate.
Qed.

Lemma startConversation_idle : preserves idle_disconnected startConversation.
Proof.
  intros s _. unfold idle_disconnected, startConversation, connectToLLMWebSocket.
  run_monad. cbn. destruct (is_open (websocket s)); cbn; discriminate.
Qed.

Lemma processBufferedChunks_idle : preserves idle_disconnected processBufferedChunks.
Proof.
  apply pres_processBufferedChunks. intros s s' H.
  apply idle_disconnected_frame; unfold only_playback in H; tauto.
Qed.

Ltac idle_calls :=
  first [ apply resetToIdle_idle | apply endConversation_idle
        | apply startConversation_idle | apply processBufferedChunks_idle
        | side_idle ].

Lemma idle_disconnected_step e s s' :
  step e s = Some s' -> idle_disconnected s -> idle_disconnected s'.
Proof.
  apply step_invariant.
  - unfold_callers; pres_steps; idle_calls.
  - unfold_callers; pres_steps; idle_calls.
  - intros data. destruct data; unfold_callers; pres_steps; idle_calls.
  - unfold_callers; pres_steps; idle_calls.
  - unfold_callers; pres_steps; idle_calls.
  - intros granted. unfold_callers; pres_steps; idle_calls.
  - intros inputData. unfold_callers; pres_steps; idle_calls.
  - intros n s0 t _ H.
    assert (H0 : idle_disconnected (set_tasks (remove_nth n (tasks s0)) s0)) by exact H.
    revert H0. generalize (set_tasks (remove_nth n (tasks s0)) s0).
    change (preserves idle_disconnected (runCallback (callback t))).
    destruct (callback t); unfold_callers; pres_steps; idle_calls.
  - intros r s0 H. unfold setReadyState.
    destruct (websocket s0) eqn:Hw; [ | exact H ].
    unfold idle_disconnected in *. cbn. intros Hidle.
    rewrite (H Hidle) in Hw. discriminate.
  - intros dt s0 H. unfold advance.
    destruct (audioPlaybackContext _) as [c|]; [ destruct (ctxState c) | ]; exact H.
  - intros c s0 H. exact H.
  - intros p s0 H. exact H.
Qed.

(** X13. In every reachable state with the phase Idle there is no
    socket, so the button always takes the branch of startConversation
    that empties the history and opens a new connection: the phase is
    Listening, the session active, the history empty and the socket
    connecting. *)
Theorem conversation_starts_from_scratch k p es s :
  run es (initial k p) = Some s ->
  conversationState s = Idle ->
  websocket s = None /\
  conversationState (exec handleConversationButton s) = Listening /\
  isConversationActive (exec handleConversationButton s) = true /\
  chatHistory (exec handleConversationButton s) = [] /\
  websocket (exec handleConversationButton s) = Some CONNECTING /\
  emitted s (exec handleConversationButton s) = [Status "🔌 Connecting to AI..."].
Proof.
  intros Hrun Hidle.
  assert (Hw : websocket s = None).
  { apply (run_invariant idle_disconnected idle_disconnected_step es _ s Hrun);
      [ | exact Hidle ].
    unfold idle_disconnected. reflexivity. }
  split; [ exact Hw | ].
  unfold handleConversationButton. rewrite exec_get_bind, Hidle.
  unfold startConversation, connectToLLMWebSocket. run_monad. cbn. rewrite Hw. cbn.
  repeat split. apply emitted_app. reflexivity.
Qed.

Lemma restart_after_error :
  (run (connect ++ [WsError]) (initial no_keys browser)
     = Some (after (connect ++ [WsError]) fresh) /\
   conversationState (after (connect ++ [WsError]) fresh) = Idle) /\
  websocket (after (connect ++ [WsError]) fresh) = None /\
  conversationState (exec handleConversationButton (after (connect ++ [WsError]) fresh))
    = Listening /\
  isConversationActive (exec handleConversationButton (after (connect ++ [WsError]) fresh))
    = true /\
  chatHistory (exec handleConversationButton (after (connect ++ [WsError]) fresh)) = [] /\
  websocket (exec handleConversationButton (after (connect ++ [WsError]) fresh))
    = Some CONNECTING /\
  emitted (after (connect ++ [WsError]) fresh)
          (exec handleConversationButton (after (connect ++ [WsError]) fresh))
    = [Status "🔌 Connecting to AI..."].
Proof.
  refine ((fun H => conj H
             (conversation_starts_from_scratch no_keys browser (connect ++ [WsError]) _
                (proj1 H) (proj2 H))) _).
  split; vm_compute; reflexivity.
Defined.

(** *** The Ending phase has a way out *)

Lemma ending_has_goodbye_frame s s' :
  conversationState s' = conversationState s -> tasks s' = tasks s ->
  ending_has_goodbye s -> ending_has_goodbye s'.
Proof. unfold ending_has_goodbye. intros -> ->. auto. Qed.

Lemma ending_has_goodbye_arm s t :
  ending_has_goodbye s -> ending_has_goodbye (set_tasks (tasks s ++ [t]) s).
Proof.
  unfold ending_has_goodbye. cbn -[pending]. intros H Hend. rewrite pending_app.
  specialize (H Hend). lia.
Qed.

Ltac side_ending :=
  match goal with
  | H : ending_has_goodbye ?s |- ending_has_goodbye _ =>
      first [ exact H
            | apply (ending_has_goodbye_frame s); [ reflexivity | reflexivity | exact H ]
            | apply ending_has_goodbye_arm; exact H
            | unfold ending_has_goodbye; cbn; intros; discriminate
            | unfold ending_has_goodbye in *; cbn in *; congruence ]
  end.

Lemma resetToIdle_ending : preserves ending_has_goodbye resetToIdle.
Proof.
  intros s _. destruct (resetToIdle_effect s) as (H & _).
  unfold ending_has_goodbye. fold (exec resetToIdle s). rewrite H. discriminate.
Qed.

Lemma endConversation_ending : preserves ending_has_goodbye endConversation.
Proof.
  intros s _. unfold ending_has_goodbye, endConversation. run_monad. cbn -[pending].
  intros _. destruct (is_open (websocket s)); cbn -[pending];
    rewrite pending_app; cbn; lia.
Qed.

Lemma startConversation_ending : preserves ending_has_goodbye startConversation.
Proof.
  intros s _. unfold ending_has_goodbye, startConversation, connectToLLMWebSocket.
  run_monad. cbn. destruct (is_open (websocket s)); cbn; discriminate.
Qed.

Lemma processBufferedChunks_ending : preserves ending_has_goodbye processBufferedChunks.
Proof.
  apply pres_processBufferedChunks. intros s s' H.
  apply ending_has_goodbye_frame; unfold only_playback in H; tauto.
Qed.

Ltac ending_calls :=
  first [ apply resetToIdle_ending | apply endConversation_ending
        | apply startConversation_ending | apply processBufferedChunks_ending
        | side_ending ].

Lemma runCallback_ending cb :
  cb <> GoodbyeTimeout -> preserves ending_has_goodbye (runCallback cb).
Proof.
  intros Hcb. destruct cb; try congruence; unfold_callers; pres_steps; ending_calls.
Qed.

Lemma ending_has_goodbye_step e s s' :
  step e s = Some s' -> ending_has_goodbye s -> ending_has_goodbye s'.
Proof.
  apply step_invariant.
  - unfold_callers; pres_steps; ending_calls.
  - unfold_callers; pres_steps; ending_calls.
  - intros data. destruct data; unfold_callers; pres_steps; ending_calls.
  - unfold_callers; pres_steps; ending_calls.
  - unfold_callers; pres_steps; ending_calls.
  - intros granted. unfold_callers; pres_steps; ending_calls.
  - intros inputData. unfold_callers; pres_steps; ending_calls.
  - intros n s0 t Hn H.
    destruct (Callback_eqb GoodbyeTimeout (callback t)) eqn:Hcb.
    + apply Callback_eqb_eq in Hcb. rewrite <- Hcb.
      unfold ending_has_goodbye, runCallback, goodbyeTimeout.
      rewrite !exec_bind.
      match goal with
      | |- conversationState (exec (updateStatus ?m) (exec resetToIdle ?x)) = _ -> _ =>
          destruct (resetToIdle_effect x) as (Hidle & _);
          change (conversationState (exec (updateStatus m) (exec resetToIdle x)))
            with (conversationState (exec resetToIdle x))
      end.
      rewrite Hidle. discriminate.
    + apply runCallback_ending.
      * intros E. rewrite E in Hcb. discriminate.
      * unfold ending_has_goodbye in *. cbn -[pending].
        rewrite (pending_remove_nth _ _ _ _ Hn Hcb). exact H.
  - intros r s0 H. unfold setReadyState. destruct (websocket s0); exact H.
  - intros dt s0 H. unfold advance.
    destruct (audioPlaybackContext _) as [c|]; [ destruct (ctxState c) | ]; exact H.
  - intros c s0 H. exact H.
  - intros p s0 H. exact H.
Qed.

Lemma pending_exists cb ts :
  (0 < pending cb ts)%nat ->
  exists n t, nth_error ts n = Some t /\ callback t = cb.
Proof.
  induction ts as [|t ts IH]; [ unfold pending; cbn; lia | ].
  destruct (Callback_eqb cb (callback t)) eqn:E.
  - intros _. exists 0%nat, t. split; [ reflexivity | ].
    symmetry. apply Callback_eqb_eq. exact E.
  - unfold pending in *. cbn [filter]. rewrite E. intros H.
    destruct (IH H) as (n & t' & Hn & Hc).
    exists (S n), t'. split; assumption.
Qed.

(** X14. In every reachable state with the phase Ending the button
    does nothing at all, and a goodbye timer is pending; whenever that
    timer runs the phase becomes Idle. *)
Theorem ending_phase_has_a_way_out k p es s :
  run es (initial k p) = Some s ->
  conversationState s = Ending ->
  exec handleConversationButton s = s /\
  exists n t,
    nth_error (tasks s) n = Some t /\ callback t = GoodbyeTimeout /\
    forall s1, conversationState (exec (runCallback (callback t)) s1) = Idle.
Proof.
  intros Hrun Hend.
  assert (Hp : (0 < pending GoodbyeTimeout (tasks s))%nat).
  { apply (run_invariant ending_has_goodbye ending_has_goodbye_step es _ s Hrun);
      [ | exact Hend ].
    unfold ending_has_goodbye. cbn. discriminate. }
  split.
  - unfold handleConversationButton. rewrite exec_get_bind, Hend. reflexivity.
  - destruct (pending_exists _ _ Hp) as (n & t & Hn & Hc).
    exists n, t. repeat split; try assumption.
    intros s1. rewrite Hc. unfold runCallback, goodbyeTimeout. rewrite !exec_bind.
    destruct (resetToIdle_effect (exec closeConnections s1)) as (Hidle & _).
    exact Hidle.
Qed.

Lemma ending_after_click :
  (run (connect ++ [Click]) (initial no_keys browser)
     = Some (after (connect ++ [Click]) fresh) /\
   conversationState (after (connect ++ [Click]) fresh) = Ending) /\
  exec handleConversationButton (after (connect ++ [Click]) fresh)
    = after (connect ++ [Click]) fresh /\
  exists n t,
    nth_error (tasks (after (connect ++ [Click]) fresh)) n = Some t /\
    callback t = GoodbyeTimeout /\
    forall s1, conversationState (exec (runCallback (callback t)) s1) = Idle.
Proof.
  refine ((fun H => conj H
             (ending_phase_has_a_way_out no_keys browser (connect ++ [Click]) _
                (proj1 H) (proj2 H))) _).
  split; vm_compute; reflexivity.
Defined.

(** *** The transition table *)

Lemma processBufferedChunks_phase p : preserves (phase_is p) processBufferedChunks.
Proof.
  apply pres_processBufferedChunks. unfold phase_is, only_playback.
  intros s s' H. destruct H as (H & _). congruence.
Qed.

Ltac side_phase :=
  first [ apply processBufferedChunks_phase
        | match goal with
          | H : phase_is _ _ |- phase_is _ _ =>
              first [ exact H | unfold phase_is in *; cbn in *; congruence ]
          end ].

Lemma exec_phase {A} (m : M A) s :
  preserves (phase_is (conversationState s)) m ->
  conversationState (exec m s) = conversationState s.
Proof. intros H. apply (H s). reflexivity. Qed.

(** X15. The transition table of the code.  The button leads from Idle
    to Listening and from Listening, Processing and Speaking to Ending;
    [turn_complete] leads to Processing and [audio_chunk] to Speaking from
    every phase; a close of the channel on an active session, a channel
    error and a refused microphone lead to Idle; the drain timer leads an
    active Speaking session to Listening and the goodbye timer leads to
    Idle.  Every other event, and each of these in every other case,
    leaves the phase as it is. *)
Theorem phase_changes e s s' :
  step e s = Some s' -> conversationState s' = phase_after e s.
Proof.
  intros Hstep. destruct e; cbn [step] in Hstep; cbn [phase_after].
  - injection Hstep as <-. unfold handleConversationButton. rewrite exec_get_bind.
    destruct (conversationState s) eqn:Hp; try reflexivity; try exact Hp;
      try (unfold endConversation; run_monad; cbn;
           destruct (is_open (websocket s)); reflexivity).
    unfold startConversation, connectToLLMWebSocket. run_monad. cbn.
    destruct (is_open (websocket s)); reflexivity.
  - injection Hstep as <-.
    transitivity (conversationState (setReadyState OPEN s)).
    + apply exec_phase. unfold_handlers; pres_steps; side_phase.
    + unfold setReadyState. destruct (websocket s); reflexivity.
  - injection Hstep as <-.
    destruct data; try reflexivity;
      try (apply exec_phase; unfold_handlers; pres_steps; side_phase).
    apply handleAudioChunk_speaking.
  - injection Hstep as <-. unfold onclose. rewrite exec_get_bind.
    assert (E : isConversationActive (setReadyState CLOSED s) = isConversationActive s /\
                conversationState (setReadyState CLOSED s) = conversationState s)
      by (unfold setReadyState; destruct (websocket s); split; reflexivity).
    destruct E as [-> E2].
    destruct (isConversationActive s); cbn [when]; [ | exact E2 ].
    rewrite exec_bind.
    match goal with
    | |- conversationState (exec resetToIdle ?x) = _ =>
        destruct (resetToIdle_effect x) as (H & _); exact H
    end.
  - injection Hstep as <-. unfold onerror. rewrite exec_bind.
    match goal with
    | |- conversationState (exec resetToIdle ?x) = _ =>
        destruct (resetToIdle_effect x) as (H & _); exact H
    end.
  - injection Hstep as <-. destruct granted as [c|]; [ reflexivity | ].
    cbn [setupAudioRecording]. rewrite exec_bind.
    match goal with
    | |- conversationState (exec resetToIdle ?x) = _ =>
        destruct (resetToIdle_effect x) as (H & _); exact H
    end.
  - injection Hstep as <-.
    apply exec_phase. unfold_handlers; pres_steps; side_phase.
  - destruct (nth_error (tasks s) n) as [t|]; [ | discriminate ].
    destruct (due t <=? clock s); [ | discriminate ].
    injection Hstep as <-.
    set (s0 := set_tasks (remove_nth n (tasks s)) s).
    change (conversationState s) with (conversationState s0).
    change (isConversationActive s) with (isConversationActive s0).
    destruct (callback t); cbn [runCallback].
    + apply exec_phase. unfold_handlers; pres_steps; side_phase.
    + apply drainTimeout_phase.
    + unfold goodbyeTimeout. rewrite !exec_bind.
      match goal with
      | |- conversationState (exec (updateStatus _) (exec resetToIdle ?x)) = _ =>
          destruct (resetToIdle_effect x) as (H & _); exact H
      end.
    + apply exec_phase. side_phase.
  - destruct (0 <=? dt); [ | discriminate ]. injection Hstep as <-.
    unfold advance.
    destruct (audioPlaybackContext _) as [c|]; [ destruct (ctxState c) | ]; reflexivity.
  - destruct (audioPlaybackContext s); injection Hstep as <-; reflexivity.
  - injection Hstep as <-. reflexivity.
Qed.

Lemma drain_returns_to_listening :
  step (Fire 1) (after (first_response
                        ++ [WsMessage (audio_chunk 0 (silence 48));
                            WsMessage (audio_complete 1); Elapse 2000]) fresh)
    = Some (after short_response fresh) /\
  conversationState (after short_response fresh)
    = phase_after (Fire 1)
        (after (first_response
                ++ [WsMessage (audio_chunk 0 (silence 48));
                    WsMessage (audio_complete 1); Elapse 2000]) fresh).
Proof.
  refine ((fun H => conj H (phase_changes _ _ _ H)) _).
  vm_compute. reflexivity.
Defined.

Example phases_of_a_conversation :
  observe conversationState [] = Some Idle /\
  observe conversationState connect = Some Listening /\
  observe conversationState first_response = Some Processing /\
  observe conversationState (first_response ++ three_chunks) = Some Speaking /\
  observe conversationState short_response = Some Listening /\
  observe conversationState (short_response ++ [Click]) = Some Ending /\
  observe conversationState (short_response ++ [Click; Elapse 8000; Fire 1]) = Some Idle.
Proof. by_running. Qed.

(** *** The history *)

Lemma processBufferedChunks_history h : preserves (history_is h) processBufferedChunks.
Proof.
  apply pres_processBufferedChunks. unfold history_is, only_playback.
  intros s s' H. destruct H as (_ & _ & _ & _ & H & _). congruence.
Qed.

Ltac side_history :=
  first [ apply processBufferedChunks_history
        | match goal with
          | H : history_is _ _ |- history_is _ _ =>
              first [ exact H | unfold history_is in *; cbn in *; congruence ]
          end ].

Lemma exec_history {A} (m : M A) s :
  preserves (history_is (chatHistory s)) m -> chatHistory (exec m s) = chatHistory s.
Proof. intros H. apply (H s). reflexivity. Qed.

(** X16. The history is append-only within a conversation:
    [turn_complete] appends one user turn and [llm_response_complete] one
    turn of the assistant, both stamped with the current time; the button
    empties it when it starts a conversation; no other event touches it. *)
Theorem history_changes e s s' :
  step e s = Some s' -> chatHistory s' = history_after e s.
Proof.
  intros Hstep. destruct e; cbn [step] in Hstep; cbn [history_after].
  - injection Hstep as <-. unfold handleConversationButton. rewrite exec_get_bind.
    destruct (conversationState s) eqn:Hp; cbn [Phase_eqb andb];
      try (destruct (is_open (websocket s)) eqn:Hw; cbn [negb andb]);
      try reflexivity;
      try (unfold endConversation; run_monad; cbn; rewrite ?Hw; reflexivity).
    + unfold startConversation. run_monad. cbn. rewrite Hw. reflexivity.
    + unfold startConversation, connectToLLMWebSocket. run_monad. cbn.
      rewrite Hw. reflexivity.
  - injection Hstep as <-.
    transitivity (chatHistory (setReadyState OPEN s)).
    + apply exec_history. unfold_handlers; pres_steps; side_history.
    + unfold setReadyState. destruct (websocket s); reflexivity.
  - injection Hstep as <-.
    destruct data; try reflexivity;
      apply exec_history; unfold_handlers; pres_steps; side_history.
  - injection Hstep as <-.
    transitivity (chatHistory (setReadyState CLOSED s)).
    + apply exec_history. unfold_handlers; pres_steps; side_history.
    + unfold setReadyState. destruct (websocket s); reflexivity.
  - injection Hstep as <-.
    apply exec_history. unfold_handlers; pres_steps; side_history.
  - injection Hstep as <-.
    apply exec_history. unfold_handlers; pres_steps; side_history.
  - injection Hstep as <-.
    apply exec_history. unfold_handlers; pres_steps; side_history.
  - destruct (nth_error (tasks s) n) as [t|]; [ | discriminate ].
    destruct (due t <=? clock s); [ | discriminate ].
    injection Hstep as <-.
    change (chatHistory s) with (chatHistory (set_tasks (remove_nth n (tasks s)) s)).
    apply exec_history.
    destruct (callback t); unfold_handlers; pres_steps; side_history.
  - destruct (0 <=? dt); [ | discriminate ]. injection Hstep as <-.
    unfold advance.
    destruct (audioPlaybackContext _) as [c|]; [ destruct (ctxState c) | ]; reflexivity.
  - destruct (audioPlaybackContext s); injection Hstep as <-; reflexivity.
  - injection Hstep as <-. reflexivity.
Qed.

Lemma turn_complete_history :
  step (WsMessage (turn_complete "What's the weather")) (after connect fresh)
    = Some (after (connect ++ [WsMessage (turn_complete "What's the weather")]) fresh) /\
  chatHistory (after (connect ++ [WsMessage (turn_complete "What's the weather")]) fresh)
    = history_after (WsMessage (turn_complete "What's the weather")) (after connect fresh).
Proof.
  refine ((fun H => conj H (history_changes _ _ _ H)) _).
  vm_compute. reflexivity.
Defined.

(** *** Timers *)

Lemma tasks_from_frame base now s s' :
  clock s' = clock s -> tasks s' = tasks s ->
  tasks_from base now s -> tasks_from base now s'.
Proof. unfold tasks_from. intros -> ->. auto. Qed.

Lemma tasks_from_arm base now cb delay s :
  0 <= delay -> tasks_from base now s ->
  tasks_from base now
    (set_tasks (tasks s ++ [{| due := clock s + delay; callback := cb |}]) s).
Proof.
  intros Hd (Hc & armed & Ht & Hall). split; [ exact Hc | ].
  exists (armed ++ [{| due := clock s + delay; callback := cb |}]). cbn.
  rewrite Ht, app_assoc. split; [ reflexivity | ].
  apply Forall_app. split; [ exact Hall | ].
  constructor; [ cbn; lia | constructor ].
Qed.

Lemma processBufferedChunks_tasks base now :
  preserves (tasks_from base now) processBufferedChunks.
Proof.
  apply pres_processBufferedChunks. intros s s' H.
  apply tasks_from_frame; unfold only_playback in H; tauto.
Qed.

Ltac side_tasks :=
  first [ apply processBufferedChunks_tasks
        | match goal with
          | H : tasks_from _ _ ?s |- tasks_from _ _ _ =>
              first [ exact H
                    | apply (tasks_from_frame _ _ s); [ reflexivity | reflexivity | exact H ]
                    | apply tasks_from_arm;
                        [ first [ lia
                                | match goal with
                                  | |- 0 <= waitTime ?n =>
                                      pose proof (waitTime_bounds n); lia
                                  end ]
                        | exact H ] ]
          end ].

Lemma exec_tasks {A} (m : M A) s :
  preserves (tasks_from (tasks s) (clock s)) m ->
  exists armed,
    tasks (exec m s) = tasks s ++ armed /\ Forall (fun t => clock s <= due t) armed.
Proof.
  intros H. destruct (H s) as (_ & armed & Ht & Hall).
  - split; [ reflexivity | ]. exists []. rewrite app_nil_r. split; [ reflexivity | constructor ].
  - exists armed. split; assumption.
Qed.

(** X17. No callback cancels a timer: after any event the pending
    tasks are those there were (less the one that ran, for a timer event)
    followed by the ones the callback armed, and none of these is due
    before the time of the event. *)
Theorem timers_are_never_cancelled e s s' :
  step e s = Some s' ->
  exists armed,
    tasks s' = tasks_kept e s ++ armed /\
    Forall (fun t => clock s <= due t) armed.
Proof.
  intros Hstep. destruct e; cbn [step] in Hstep; cbn [tasks_kept].
  - injection Hstep as <-.
    apply exec_tasks. unfold_handlers; pres_steps; side_tasks.
  - injection Hstep as <-.
    assert (E : tasks (setReadyState OPEN s) = tasks s /\
                clock (setReadyState OPEN s) = clock s)
      by (unfold setReadyState; destruct (websocket s); split; reflexivity).
    destruct E as [<- <-].
    apply exec_tasks. unfold_handlers; pres_steps; side_tasks.
  - injection Hstep as <-.
    apply exec_tasks. destruct data; unfold_handlers; pres_steps; side_tasks.
  - injection Hstep as <-.
    assert (E : tasks (setReadyState CLOSED s) = tasks s /\
                clock (setReadyState CLOSED s) = clock s)
      by (unfold setReadyState; destruct (websocket s); split; reflexivity).
    destruct E as [<- <-].
    apply exec_tasks. unfold_handlers; pres_steps; side_tasks.
  - injection Hstep as <-.
    apply exec_tasks. unfold_handlers; pres_steps; side_tasks.
  - injection Hstep as <-.
    apply exec_tasks. unfold_handlers; pres_steps; side_tasks.
  - injection Hstep as <-.
    apply exec_tasks. unfold_handlers; pres_steps; side_tasks.
  - destruct (nth_error (tasks s) n) as [t|]; [ | discriminate ].
    destruct (due t <=? clock s); [ | discriminate ].
    injection Hstep as <-.
    change (remove_nth n (tasks s))
      with (tasks (set_tasks (remove_nth n (tasks s)) s)) at 2.
    change (clock s) with (clock (set_tasks (remove_nth n (tasks s)) s)).
    apply exec_tasks.
    destruct (callback t); unfold_handlers; pres_steps; side_tasks.
  - destruct (Z.leb_spec 0 dt); [ | discriminate ]. injection Hstep as <-.
    exists []. rewrite app_nil_r. split; [ | constructor ].
    unfold advance.
    destruct (audioPlaybackContext _) as [c|]; [ destruct (ctxState c) | ]; reflexivity.
  - exists []. rewrite app_nil_r. split; [ | constructor ].
    destruct (audioPlaybackContext s); injection Hstep as <-; reflexivity.
  - injection Hstep as <-. exists []. rewrite app_nil_r. split; [ reflexivity | constructor ].
Qed.

Lemma teardown_keeps_the_timers :
  step WsError (after late_completion fresh)
    = Some (after (late_completion ++ [WsError]) fresh) /\
  exists armed,
    tasks (after (late_completion ++ [WsError]) fresh)
      = tasks_kept WsError (after late_completion fresh) ++ armed /\
    Forall (fun t => clock (after late_completion fresh) <= due t) armed.
Proof.
  refine ((fun H => conj H (timers_are_never_cancelled _ _ _ H)) _).
  vm_compute. reflexivity.
Defined.

(** *** Captured audio *)

Lemma extends_trans P Q s0 s s' :
  (forall e, Q e = true -> P e = true) ->
  extends_with Q s s' -> extends_with P s0 s -> extends_with P s0 s'.
Proof.
  intros HPQ (l2 & H2 & F2) (l1 & H1 & F1). exists (l1 ++ l2).
  rewrite H2, H1, app_assoc, forallb_app, F1. split; [ reflexivity | ].
  cbn. apply forallb_forall. intros e He.
  apply HPQ. apply (proj1 (forallb_forall _ _) F2 e He).
Qed.

Lemma processBufferedChunks_no_frame s0 :
  preserves (extends_with no_frame s0) processBufferedChunks.
Proof.
  intros s H. apply (extends_trans no_frame scheduler_effect s0 s).
  - intros [ | | | | | [] ]; cbn; congruence.
  - apply processBufferedChunks_emits.
  - exact H.
Qed.

Ltac side_no_frame :=
  first [ apply processBufferedChunks_no_frame
        | assumption
        | apply extends_emit; [ reflexivity | assumption ]
        | match goal with
          | H : extends_with _ _ _ |- extends_with _ _ _ => exact H
          end ].

Lemma exec_no_frame {A} (m : M A) s :
  preserves (extends_with no_frame s) m ->
  filter is_frame (emitted s (exec m s)) = [].
Proof.
  intros H. destruct (H s (extends_refl _ s)) as (l & Hl & Hf).
  fold (exec m s) in Hl. rewrite (emitted_app _ _ _ Hl). clear Hl.
  induction l as [|e l IH]; [ reflexivity | ].
  cbn in Hf. apply andb_prop in Hf. destruct Hf as [He Hf].
  cbn. unfold no_frame in He. destruct (is_frame e); [ discriminate | ].
  apply IH. exact Hf.
Qed.

(** X18. Captured audio leaves the client only from the audio
    callback, and only while the phase is Listening and the socket is
    open: then the callback sends one frame, the block converted sample by
    sample; in every other state, and on every other event, no frame is
    sent and the block is discarded. *)
Theorem frames_only_while_listening e s s' :
  step e s = Some s' ->
  filter is_frame (emitted s s')
  = match e with
    | AudioProcess inputData => frame_of inputData s
    | _ => []
    end.
Proof.
  intros Hstep. destruct e; cbn [step] in Hstep.
  - injection Hstep as <-.
    apply exec_no_frame. unfold_handlers; pres_steps; side_no_frame.
  - injection Hstep as <-.
    assert (E : emitted s (exec onopen (setReadyState OPEN s))
                = emitted (setReadyState OPEN s) (exec onopen (setReadyState OPEN s)))
      by (unfold emitted, setReadyState; destruct (websocket s); reflexivity).
    rewrite E.
    apply exec_no_frame. unfold_handlers; pres_steps; side_no_frame.
  - injection Hstep as <-.
    apply exec_no_frame. destruct data; unfold_handlers; pres_steps; side_no_frame.
  - injection Hstep as <-.
    assert (E : emitted s (exec onclose (setReadyState CLOSED s))
                = emitted (setReadyState CLOSED s) (exec onclose (setReadyState CLOSED s)))
      by (unfold emitted, setReadyState; destruct (websocket s); reflexivity).
    rewrite E.
    apply exec_no_frame. unfold_handlers; pres_steps; side_no_frame.
  - injection Hstep as <-.
    apply exec_no_frame. unfold_handlers; pres_steps; side_no_frame.
  - injection Hstep as <-.
    apply exec_no_frame. unfold_handlers; pres_steps; side_no_frame.
  - injection Hstep as <-. unfold frame_of, onaudioprocess. run_monad.
    destruct (Phase_eqb (conversationState s) Listening); cbn;
      [ destruct (is_open (websocket s)); cbn | ];
      first [ rewrite (emitted_app s _ [SendFrame (map Pcm.floatToInt16 inputData)])
                by reflexivity; reflexivity
            | rewrite (emitted_same s s) by reflexivity; reflexivity ].
  - destruct (nth_error (tasks s) n) as [t|]; [ | discriminate ].
    destruct (due t <=? clock s); [ | discriminate ].
    injection Hstep as <-.
    change (emitted s) with (emitted (set_tasks (remove_nth n (tasks s)) s)).
    apply exec_no_frame.
    destruct (callback t); unfold_handlers; pres_steps; side_no_frame.
  - destruct (0 <=? dt); [ | discriminate ]. injection Hstep as <-.
    rewrite emitted_same; [ reflexivity | ]. unfold advance.
    destruct (audioPlaybackContext _) as [c|]; [ destruct (ctxState c) | ]; reflexivity.
  - rewrite emitted_same; [ reflexivity | ].
    destruct (audioPlaybackContext s); injection Hstep as <-; reflexivity.
  - injection Hstep as <-. rewrite emitted_same; reflexivity.
Qed.

Lemma frame_sent_while_listening :
  step (AudioProcess [1 # 2; - (1 # 2)]%Q) (after connect fresh)
    = Some (after (connect ++ [AudioProcess [1 # 2; - (1 # 2)]%Q]) fresh) /\
  filter is_frame
    (emitted (after connect fresh)
             (after (connect ++ [AudioProcess [1 # 2; - (1 # 2)]%Q]) fresh))
  = frame_of [1 # 2; - (1 # 2)]%Q (after connect fresh).
Proof.
  refine ((fun H => conj H (frames_only_while_listening _ _ _ H)) _).
  vm_compute. reflexivity.
Defined.

(** A block captured while listening is sent; the same block captured
    while the response is being prepared is not. *)
Example capture_is_gated :
  observe (fun s => filter is_frame (trace s))
    (connect ++ [AudioProcess [1 # 2; - (1 # 2)]%Q])
    = Some [SendFrame [16384; -16384]] /\
  observe (fun s => filter is_frame (trace s))
    (first_response ++ [AudioProcess [1 # 2; - (1 # 2)]%Q]) = Some [].
Proof. by_running. Qed.

(** *** The queue *)

Lemma scheduleLoop_decoded n : preserves queue_is_decoded (scheduleLoop n).
Proof.
  intros s H. unfold queue_is_decoded in *.
  change (snd (scheduleLoop n s)) with (exec (scheduleLoop n) s).
  rewrite SchedulerLaws.scheduleLoop_queue.
  revert H. generalize (audioBufferQueue s). clear s.
  induction n as [|n IH]; intros q H; [ exact H | ].
  destruct q as [|c q]; [ constructor | ].
  cbn [skipn]. apply IH. inversion H; assumption.
Qed.

Lemma processBufferedChunks_decoded : preserves queue_is_decoded processBufferedChunks.
Proof.
  intros s H. unfold processBufferedChunks, bind, get. cbn [fst snd].
  apply scheduleLoop_decoded, H.
Qed.

Ltac side_decoded :=
  first [ apply processBufferedChunks_decoded
        | match goal with
          | H : queue_is_decoded _ |- queue_is_decoded _ =>
              first [ exact H | unfold queue_is_decoded in *; cbn; constructor ]
          end ].

Lemma enqueueAndPlay_decoded pcm :
  pcm <> [] -> Forall normalized pcm ->
  preserves queue_is_decoded (enqueueAndPlay pcm).
Proof.
  intros Hne Hnorm. unfold enqueueAndPlay.
  apply pres_bind.
  - apply pres_modify. intros s H. unfold queue_is_decoded in *. cbn.
    apply Forall_app. split; [ exact H | ].
    constructor; [ split; assumption | constructor ].
  - intros _. unfold_handlers. pres_steps; side_decoded.
Qed.

Lemma decoded_samples d s pcm :
  fst (base64ToPCMFloat32 d s) = Some pcm -> Forall normalized pcm.
Proof.
  destruct d as [b|]; [ | discriminate ].
  destruct (base64_decodeAt b s) as [-> _]. unfold decodeAt.
  destruct (_ <? _)%nat; [ discriminate | ].
  pose proof (PcmLaws.samples_outcome
                (skipn (if wavHeaderProcessed s then 0 else 44)%nat b)) as H.
  intros E. rewrite E in H. tauto.
Qed.

Lemma handleAudioChunk_decoded d : preserves queue_is_decoded (handleAudioChunk d).
Proof.
  intros s H. change (snd (handleAudioChunk d s)) with (exec (handleAudioChunk d) s).
  destruct (handleAudioChunk_exec d s) as (sb & Hquiet & ->).
  destruct Hquiet as (_ & _ & Q3 & _).
  assert (Hsb : queue_is_decoded sb) by (unfold queue_is_decoded in *; rewrite Q3; exact H).
  assert (Hmid : queue_is_decoded
                   (exec match fst (base64ToPCMFloat32 d s) with
                         | Some ((_ :: _) as pcm) => enqueueAndPlay pcm
                         | _ => ret tt
                         end sb)).
  { destruct (fst (base64ToPCMFloat32 d s)) as [[|x l]|] eqn:E; try exact Hsb.
    apply enqueueAndPlay_decoded;
      [ discriminate | apply (decoded_samples d s); exact E | exact Hsb ]. }
  revert Hmid. generalize (exec match fst (base64ToPCMFloat32 d s) with
                                | Some ((_ :: _) as pcm) => enqueueAndPlay pcm
                                | _ => ret tt
                                end sb).
  intros s1 H1. rewrite armSafetyTimeout_effect.
  destruct (isAudioPlaying s1); exact H1.
Qed.

Lemma queue_is_decoded_step e s s' :
  step e s = Some s' -> queue_is_decoded s -> queue_is_decoded s'.
Proof.
  apply step_invariant.
  - unfold_handlers; pres_steps; side_decoded.
  - unfold_handlers; pres_steps; side_decoded.
  - intros data. destruct data;
      try (cbn [handleWebSocketMessage]; apply handleAudioChunk_decoded);
      unfold_handlers; pres_steps; side_decoded.
  - unfold_handlers; pres_steps; side_decoded.
  - unfold_handlers; pres_steps; side_decoded.
  - intros granted. unfold_handlers; pres_steps; side_decoded.
  - intros inputData. unfold_handlers; pres_steps; side_decoded.
  - intros n s0 t _ H.
    assert (H0 : queue_is_decoded (set_tasks (remove_nth n (tasks s0)) s0)) by exact H.
    revert H0. generalize (set_tasks (remove_nth n (tasks s0)) s0).
    change (preserves queue_is_decoded (runCallback (callback t))).
    destruct (callback t); unfold_handlers; pres_steps; side_decoded.
  - intros r s0 H. unfold setReadyState. destruct (websocket s0); exact H.
  - intros dt s0 H. unfold advance.
    destruct (audioPlaybackContext _) as [c|]; [ destruct (ctxState c) | ]; exact H.
  - intros c s0 H. exact H.
  - intros p s0 H. exact H.
Qed.

(** X19. In every reachable state each chunk of the playback queue
    holds at least one sample, and every sample lies in [-1, 1). *)
Theorem queue_holds_decoded_chunks k p es s :
  run es (initial k p) = Some s ->
  no_empty_chunk s /\
  Forall (Forall normalized) (audioBufferQueue s).
Proof.
  intros Hrun.
  assert (H : queue_is_decoded s).
  { apply (run_invariant queue_is_decoded queue_is_decoded_step es _ s Hrun).
    constructor. }
  unfold queue_is_decoded in H. unfold no_empty_chunk.
  split; eapply Forall_impl; try exact H; cbn; intros c Hc; tauto.
Qed.

Lemma queue_of_two_is_decoded :
  run (first_response ++ [WsMessage (audio_chunk 0 (silence 244));
                          WsMessage (audio_chunk 1 (silence 200)); Elapse 500])
      (initial no_keys browser) = Some two_queued /\
  no_empty_chunk two_queued /\
  Forall (Forall normalized) (audioBufferQueue two_queued).
Proof.
  refine ((fun H => conj H (queue_holds_decoded_chunks no_keys browser _ _ H)) _).
  vm_compute. reflexivity.
Defined.

(** *** Messages that only report *)

Lemma same_but_trace_refl s : same_but_trace s s.
Proof. repeat split. Qed.

Lemma same_but_trace_emit s0 e s :
  same_but_trace s0 s -> same_but_trace s0 (set_trace (trace s ++ [e]) s).
Proof. intros H. exact H. Qed.

(** X20. The messages that only report ([connection],
    [session_opened], [transcript], [error], [conversation_ended] and
    messages of unknown type) change nothing but what is shown: the phase,
    the session, the connections, the history, the scheduler and the
    timers are as before.  In particular a server [error] does not end
    the session and [conversation_ended] does not close the channel. *)
Theorem informational_messages_change_nothing data s :
  informational data = true ->
  same_but_trace s (exec (handleWebSocketMessage data) s) /\
  exists shown, trace (exec (handleWebSocketMessage data) s) = trace s ++ shown.
Proof.
  intros Hinf.
  assert (H : preserves (fun s' => same_but_trace s s' /\
                                   exists shown, trace s' = trace s ++ shown)
                        (handleWebSocketMessage data)).
  { destruct data; try discriminate; unfold_handlers; pres_steps;
      match goal with
      | H : _ /\ _ |- _ =>
          first [ exact H
                | destruct H as [H1 [shown H2]]; split;
                  [ exact H1 | eexists; cbn; rewrite H2, <- app_assoc; reflexivity ] ]
      end. }
  apply (H s). split; [ apply same_but_trace_refl | ].
  exists []. rewrite app_nil_r. reflexivity.
Qed.

Lemma server_error_changes_nothing :
  informational (error "quota exceeded") = true /\
  same_but_trace responded (exec (handleWebSocketMessage (error "quota exceeded")) responded) /\
  exists shown,
    trace (exec (handleWebSocketMessage (error "quota exceeded")) responded)
    = trace responded ++ shown.
Proof.
  refine ((fun H => conj H
             (informational_messages_change_nothing (error "quota exceeded") responded H)) _).
  reflexivity.
Defined.

(** *** Teardown *)

Lemma closeConnections_state s :
  exec closeConnections s
  = set_audioPlaybackContext None (set_websocket None (set_audioContext None s)).
Proof.
  destruct s as [cs ws ac act ch keys apc pht q buf play hdr plat clk ts tr].
  unfold closeConnections. run_monad. cbn.
  destruct ac, ws, apc; reflexivity.
Qed.

Lemma resetToIdle_state s :
  exec resetToIdle s
  = set_audioPlaybackContext None
      (set_websocket None
         (set_audioContext None
            (set_isConversationActive false (set_conversationState Idle s)))).
Proof.
  unfold resetToIdle. rewrite !exec_bind, closeConnections_state. reflexivity.
Qed.

(** X21. Tearing down twice is tearing down once: resetToIdle and
    closeConnections applied after resetToIdle change nothing,
    closeConnections before resetToIdle adds nothing, and the close event
    that follows a channel error leaves the state as the error left it. *)
Theorem teardown_is_idempotent s :
  exec resetToIdle (exec resetToIdle s) = exec resetToIdle s /\
  exec closeConnections (exec resetToIdle s) = exec resetToIdle s /\
  exec resetToIdle (exec closeConnections s) = exec resetToIdle s /\
  step WsClose (exec onerror s) = Some (exec onerror s).
Proof.
  repeat split.
  - rewrite !resetToIdle_state. reflexivity.
  - rewrite closeConnections_state, !resetToIdle_state. reflexivity.
  - rewrite !resetToIdle_state, closeConnections_state. reflexivity.
  - cbn [step]. f_equal. unfold onerror. rewrite !exec_bind.
    set (s1 := exec (updateStatus "❌ Connection error") s).
    rewrite resetToIdle_state. reflexivity.
Qed.

(** *** Denied microphone *)

(** X22. When the microphone is refused, the session is reset: the
    phase is Idle, the session inactive, the socket and both audio
    contexts are released, the history is kept, and the one thing shown
    is the reason. *)
Theorem microphone_denial_resets s :
  conversationState (exec (setupAudioRecording None) s) = Idle /\
  isConversationActive (exec (setupAudioRecording None) s) = false /\
  audioContext (exec (setupAudioRecording None) s) = None /\
  websocket (exec (setupAudioRecording None) s) = None /\
  audioPlaybackContext (exec (setupAudioRecording None) s) = None /\
  chatHistory (exec (setupAudioRecording None) s) = chatHistory s /\
  emitted s (exec (setupAudioRecording None) s) = [Status "❌ Microphone access denied"].
Proof.
  cbn [setupAudioRecording]. rewrite exec_bind, resetToIdle_state. cbn.
  repeat split. apply emitted_app. reflexivity.
Qed.

(** *** The button *)

(** X23. The button pressed during a turn ends the conversation: the
    phase is Ending, the session inactive, one goodbye timer is armed 8000
    ms ahead, and the [end_conversation] message is sent if and only if
    the socket is open.  Pressing it again changes nothing: no second
    timer, no second message. *)
Theorem button_ends_the_conversation_once s :
  in_turn (conversationState s) = true ->
  conversationState (exec handleConversationButton s) = Ending /\
  isConversationActive (exec handleConversationButton s) = false /\
  tasks (exec handleConversationButton s)
    = tasks s ++ [{| due := clock s + 8000; callback := GoodbyeTimeout |}] /\
  emitted s (exec handleConversationButton s)
    = Status "👋 AI saying goodbye..."
      :: (if is_open (websocket s) then [SendJson end_conversation] else []) /\
  exec handleConversationButton (exec handleConversationButton s)
    = exec handleConversationButton s.
Proof.
  intros Hturn.
  assert (E : exec handleConversationButton s = exec endConversation s).
  { unfold handleConversationButton. rewrite exec_get_bind.
    destruct (conversationState s); try discriminate; reflexivity. }
  rewrite E.
  assert (Hend : conversationState (exec endConversation s) = Ending).
  { unfold endConversation. run_monad. cbn.
    destruct (is_open (websocket s)); reflexivity. }
  repeat split.
  - exact Hend.
  - unfold endConversation. run_monad. cbn.
    destruct (is_open (websocket s)); reflexivity.
  - unfold endConversation. run_monad. cbn.
    destruct (is_open (websocket s)); reflexivity.
  - apply emitted_app. unfold endConversation. run_monad. cbn.
    destruct (is_open (websocket s)); cbn; rewrite <- ?app_assoc; reflexivity.
  - unfold handleConversationButton at 1. rewrite exec_get_bind, Hend. reflexivity.
Qed.

Lemma button_while_speaking :
  in_turn (conversationState responded) = true /\
  conversationState (exec handleConversationButton responded) = Ending /\
  isConversationActive (exec handleConversationButton responded) = false /\
  tasks (exec handleConversationButton responded)
    = tasks responded ++ [{| due := clock responded + 8000; callback := GoodbyeTimeout |}] /\
  emitted responded (exec handleConversationButton responded)
    = Status "👋 AI saying goodbye..."
      :: (if is_open (websocket responded) then [SendJson end_conversation] else []) /\
  exec handleConversationButton (exec handleConversationButton responded)
    = exec handleConversationButton responded.
Proof.
  refine ((fun H => conj H (button_ends_the_conversation_once responded H)) _).
  vm_compute. reflexivity.
Defined.

(** *** Initialising playback *)

(** X24. initializeAudioPlayback resets the scheduler when a usable
    context exists, and when it can create one with the sample rate of the
    stream.  When that constructor throws, it installs the context of the
    default constructor (if that one succeeds) and leaves the queue, the
    flags and the playhead untouched. *)
Theorem playback_initialisation s :
  (usable s = true ->
   audioPlaybackContext (exec initializeAudioPlayback s) = audioPlaybackContext s /\
   freshly_reset (exec initializeAudioPlayback s)) /\
  (forall ctx,
     usable s = false -> newPlaybackContext (platform s) = Some ctx ->
     audioPlaybackContext (exec initializeAudioPlayback s) = Some ctx /\
     freshly_reset (exec initializeAudioPlayback s)) /\
  (usable s = false -> newPlaybackContext (platform s) = None ->
   audioPlaybackContext (exec initializeAudioPlayback s)
   = match newFallbackContext (platform s) with
     | Some ctx => Some ctx
     | None => audioPlaybackContext s
     end /\
   scheduler_untouched s (exec initializeAudioPlayback s)).
Proof.
  unfold usable, freshly_reset, scheduler_untouched.
  assert (Hreset : forall s0,
            audioPlaybackContext (exec resetAudioPlaybackState s0)
              = audioPlaybackContext s0 /\
            audioBufferQueue (exec resetAudioPlaybackState s0) = [] /\
            isBuffering (exec resetAudioPlaybackState s0) = true /\
            isAudioPlaying (exec resetAudioPlaybackState s0) = false /\
            wavHeaderProcessed (exec resetAudioPlaybackState s0) = false /\
            audioPlayheadTime (exec resetAudioPlaybackState s0)
            = match audioPlaybackContext s0 with
              | Some ctx => (currentTime ctx + (1 # 10))%Q
              | None => 0%Q
              end).
  { intros s0. unfold resetAudioPlaybackState. run_monad. cbn. repeat split. }
  unfold initializeAudioPlayback. rewrite exec_get_bind. cbv zeta.
  destruct (audioPlaybackContext s) as [c|] eqn:Hc;
    [ destruct (is_closed c) eqn:Hcl | ]; cbn [negb].
  - split; [ discriminate | ]. split.
    + intros ctx _ Hnew. rewrite Hnew, exec_bind.
      destruct (Hreset (exec (modify (set_audioPlaybackContext (Some ctx))) s))
        as (R1 & R2 & R3 & R4 & R5 & R6).
      rewrite R1, R2, R3, R4, R5, R6. cbn. repeat split.
    + intros _ Hnew. rewrite Hnew.
      destruct (newFallbackContext (platform s)); cbn; rewrite ?Hc; repeat split.
  - split; [ | split; discriminate ].
    intros _. destruct (Hreset s) as (R1 & R2 & R3 & R4 & R5 & R6).
    rewrite R1, R2, R3, R4, R5, R6, Hc. repeat split.
  - split; [ discriminate | ]. split.
    + intros ctx _ Hnew. rewrite Hnew, exec_bind.
      destruct (Hreset (exec (modify (set_audioPlaybackContext (Some ctx))) s))
        as (R1 & R2 & R3 & R4 & R5 & R6).
      rewrite R1, R2, R3, R4, R5, R6. cbn. repeat split.
    + intros _ Hnew. rewrite Hnew.
      destruct (newFallbackContext (platform s)); cbn; rewrite ?Hc; repeat split.
Qed.

(** On the fallback browser, a chunk that was queued before
    [chat_started] is still queued after it, and the header skip it
    consumed is not given back. *)
Example fallback_keeps_the_queue :
  option_map (fun s => (usable s, List.length (audioBufferQueue s), wavHeaderProcessed s))
    (run (connect ++ [WsMessage (turn_complete "What's the weather");
                      WsMessage (audio_chunk 0 (silence 48));
                      WsMessage (chat_started "What's the weather")])
         (initial no_keys fallback_browser))
  = Some (true, 1%nat, true) /\
  option_map (fun s => (usable s, List.length (audioBufferQueue s), wavHeaderProcessed s))
    (run (connect ++ [WsMessage (turn_complete "What's the weather");
                      WsMessage (audio_chunk 0 (silence 48));
                      WsMessage (chat_started "What's the weather")])
         (initial no_keys browser))
  = Some (true, 0%nat, false).
Proof. by_running. Qed.

End SessionLaws.

(* ================================================================== *)
(** ** Saving, clearing and sending the keys *)
(* ================================================================== *)

Module SettingsLaws.

Import Agent Observe Invariant Scenario Settings.
Local Open Scope Z_scope.
Local Open Scope agent_scope.
Import Frame.

Lemma orNull_well_kept v : well_kept (orNull v).
Proof. unfold well_kept. destruct v; cbn; congruence. Qed.

Lemma orEmpty_orNull v : orEmpty (orNull v) = v.
Proof. destruct v; reflexivity. Qed.

Lemma truthy_orNull v : truthy (orNull v) = negb (is_empty v).
Proof. destruct v; reflexivity. Qed.

Lemma saved_keys trim p :
  userApiKeys (app (saveApiKeys trim p))
  = {| gemini := orNull (trim (gemini_key (fields p)));
       weather := orNull (trim (weather_key (fields p)));
       murf := orNull (trim (murf_key (fields p)));
       assemblyai := orNull (trim (assemblyai_key (fields p))) |}.
Proof. unfold saveApiKeys. destruct (quotaExceeded p); reflexivity. Qed.

(** X25. Saving the settings keeps each key trimmed, and absent when
    nothing is left of it: no key is ever the empty string.  Opening the
    modal again shows the trimmed values.  The keys go into the session
    storage and the modal closes, unless the storage refuses the item:
    then the keys are still in force for this page, the storage is as it
    was and the modal stays as it is. *)
Theorem saved_keys_are_trimmed trim p :
  well_kept (gemini (userApiKeys (app (saveApiKeys trim p)))) /\
  well_kept (weather (userApiKeys (app (saveApiKeys trim p)))) /\
  well_kept (murf (userApiKeys (app (saveApiKeys trim p)))) /\
  well_kept (assemblyai (userApiKeys (app (saveApiKeys trim p)))) /\
  fields (openSettingsModal (saveApiKeys trim p)) = trimmed trim (fields p) /\
  (quotaExceeded p = false ->
   storedKeys (saveApiKeys trim p) = Some (userApiKeys (app (saveApiKeys trim p))) /\
   modalActive (saveApiKeys trim p) = false) /\
  (quotaExceeded p = true ->
   storedKeys (saveApiKeys trim p) = storedKeys p /\
   modalActive (saveApiKeys trim p) = modalActive p).
Proof.
  unfold openSettingsModal. cbv zeta. cbn [fields]. rewrite saved_keys. cbn.
  rewrite !orEmpty_orNull.
  split; [ apply orNull_well_kept | ].
  split; [ apply orNull_well_kept | ].
  split; [ apply orNull_well_kept | ].
  split; [ apply orNull_well_kept | ].
  split; [ reflexivity | ].
  split; intros Hq; unfold saveApiKeys; rewrite Hq; split; reflexivity.
Qed.

(** X26. When the socket opens after the settings were saved, the
    saved keys are sent, in one message, unless every field was blank
    after trimming: then no message is sent. *)
Theorem saved_keys_are_sent_unless_blank trim p :
  websocket (app (saveApiKeys trim p)) <> None ->
  key_messages (emitted (app (saveApiKeys trim p))
                        (exec onopen (app (saveApiKeys trim p))))
  = if all_empty (trimmed trim (fields p)) then []
    else [userApiKeys (app (saveApiKeys trim p))].
Proof.
  intros Hw. unfold onopen. rewrite exec_get_bind. cbv zeta.
  rewrite saved_keys. cbn [gemini weather murf assemblyai].
  rewrite !truthy_orNull. unfold all_empty, trimmed. cbn [gemini_key weather_key murf_key assemblyai_key].
  destruct (websocket (app (saveApiKeys trim p))) as [r|] eqn:Ew; [ | congruence ].
  destruct (is_empty (trim (gemini_key (fields p)))),
           (is_empty (trim (weather_key (fields p)))),
           (is_empty (trim (murf_key (fields p)))),
           (is_empty (trim (assemblyai_key (fields p)))); cbn [negb orb andb];
    match goal with
    | |- context [emitted ?s (exec (updateStatus ?m) ?s)] =>
        rewrite (emitted_app s (exec (updateStatus m) s) [Status m]) by reflexivity;
        reflexivity
    | |- context [emitted ?s (exec (bind (emit ?e) ?k) ?s)] =>
        rewrite (emitted_app s (exec (bind (emit e) k) s)
                   [e; Status "🎤 Requesting microphone access..."])
          by (unfold exec, bind, emit, updateStatus, modify; cbn;
              rewrite <- app_assoc; reflexivity);
        reflexivity
    end.
Qed.

Lemma typed_key_is_sent :
  websocket (app (saveApiKeys (fun v => v) typing)) <> None /\
  key_messages (emitted (app (saveApiKeys (fun v => v) typing))
                        (exec onopen (app (saveApiKeys (fun v => v) typing))))
  = if all_empty (trimmed (fun v => v) (fields typing)) then []
    else [userApiKeys (app (saveApiKeys (fun v => v) typing))].
Proof.
  refine ((fun H => conj H (saved_keys_are_sent_unless_blank (fun v => v) typing H)) _).
  discriminate.
Defined.

Example typed_key_is_sent_once :
  key_messages (emitted (app (saveApiKeys (fun v => v) typing))
                        (exec onopen (app (saveApiKeys (fun v => v) typing))))
  = [{| gemini := Some "AIza-123"%string; weather := None; murf := None; assemblyai := None |}].
Proof. vm_compute. reflexivity. Qed.

(** X27. Clearing the keys leaves none in the page, none in the
    session storage (so that loading finds none) and none in the fields of
    the modal, and no key message is sent when the socket opens. *)
Theorem cleared_keys_are_gone p :
  userApiKeys (app (clearApiKeys p)) = noKeys /\
  storedKeys (clearApiKeys p) = None /\
  userApiKeys (app (loadSavedApiKeys (clearApiKeys p))) = noKeys /\
  all_empty (fields (clearApiKeys p)) = true /\
  all_empty (fields (openSettingsModal (clearApiKeys p))) = true /\
  key_messages (emitted (app (clearApiKeys p)) (exec onopen (app (clearApiKeys p)))) = [] /\
  emitted (app p) (app (clearApiKeys p)) = [Status "🗑️ All API keys cleared!"].
Proof.
  repeat split.
  - rewrite (emitted_app _ _ [Status "🎤 Requesting microphone access..."])
      by reflexivity.
    reflexivity.
  - apply emitted_app. reflexivity.
Qed.

End SettingsLaws.

(* ================================================================== *)
(** ** Scheduling within one phase, between two resets *)
(* ================================================================== *)

Module InPhase.

Import Agent Observe Invariant Scenario Wire Batch Moments Session.
Local Open Scope Z_scope.
Local Open Scope agent_scope.
Import Frame Transitions Playback.

Lemma resetToIdle_leaves_speaking s :
  conversationState (exec resetToIdle s) <> Speaking.
Proof. destruct (resetToIdle_effect s) as (H & _). rewrite H. discriminate. Qed.

Lemma timeline_ready base r s : timeline base s -> timeline base (setReadyState r s).
Proof. intros H. unfold setReadyState. destruct (websocket s); exact H. Qed.

(** A step that resets nothing and ends in the Speaking phase keeps the
    timeline. *)
Lemma in_phase_step_timeline base e s s' :
  resets_playback e = false -> step e s = Some s' ->
  conversationState s' = Speaking ->
  timeline base s -> timeline base s'.
Proof.
  intros Hreset Hstep Hphase H.
  destruct (speaking_event s e) eqn:He;
    [ exact (speaking_step_timeline base e s s' He Hstep H) | ].
  destruct e as [ | | data | | | granted | inputData | n | dt | st | p ];
    try discriminate He; cbn [step] in Hstep.
  - injection Hstep as <-. revert H. generalize s.
    change (preserves (timeline base) handleConversationButton).
    unfold_handlers; pres_steps; timeline_side.
  - injection Hstep as <-.
    assert (H0 : timeline base (setReadyState OPEN s)) by (apply timeline_ready, H).
    revert H0. generalize (setReadyState OPEN s).
    change (preserves (timeline base) onopen).
    unfold_handlers; pres_steps; timeline_side.
  - injection Hstep as <-. revert H. generalize s.
    change (preserves (timeline base) (handleWebSocketMessage data)).
    destruct data; try discriminate He; try discriminate Hreset;
      unfold_handlers; pres_steps; timeline_side.
  - injection Hstep as <-. revert Hphase.
    unfold onclose. rewrite exec_get_bind.
    destruct (isConversationActive (setReadyState CLOSED s)); cbn [when].
    + rewrite exec_bind. intros Hphase. exfalso. revert Hphase.
      apply resetToIdle_leaves_speaking.
    + intros _. apply timeline_ready, H.
  - exfalso. injection Hstep as <-. revert Hphase.
    unfold onerror. rewrite exec_bind. apply resetToIdle_leaves_speaking.
  - injection Hstep as <-. destruct granted as [c|].
    + revert H. generalize s.
      change (preserves (timeline base) (setupAudioRecording (Some c))).
      unfold_handlers; pres_steps; timeline_side.
    + exfalso. revert Hphase. cbn [setupAudioRecording]. rewrite exec_bind.
      apply resetToIdle_leaves_speaking.
  - injection Hstep as <-. revert H. generalize s.
    change (preserves (timeline base) (onaudioprocess inputData)).
    unfold_handlers; pres_steps; timeline_side.
  - exfalso. cbn in He. unfold nth_callback in He.
    destruct (nth_error (tasks s) n) as [t|]; [ | discriminate ].
    destruct (due t <=? clock s); [ | discriminate ].
    injection Hstep as <-.
    destruct (callback t); try discriminate He.
    revert Hphase. cbn [runCallback]. unfold goodbyeTimeout. rewrite !exec_bind.
    match goal with
    | |- conversationState (exec (updateStatus ?m) (exec resetToIdle ?x)) = _ -> _ =>
        change (conversationState (exec (updateStatus m) (exec resetToIdle x)))
          with (conversationState (exec resetToIdle x))
    end.
    apply resetToIdle_leaves_speaking.
Qed.

Lemma in_phase_run_timeline base es : forall s s',
  run_in_phase es s = Some s' -> timeline base s -> timeline base s'.
Proof.
  induction es as [|e es IH]; intros s s'; cbn [run_in_phase].
  - intros [= <-]. auto.
  - destruct (resets_playback e) eqn:Hreset; [ discriminate | ].
    destruct (step e s) as [s1|] eqn:Hstep; [ | discriminate ].
    destruct (conversationState s1) eqn:Hphase; try discriminate.
    cbn [Phase_eqb]. intros Hrun H. apply (IH s1 s' Hrun).
    exact (in_phase_step_timeline base e s s1 Hreset Hstep Hphase H).
Qed.

(** C1 (amended). Within one Speaking phase and between two resets of the
    playback state, that is along a run of events none of which is a
    [chat_started] or [chat_complete] message and after each of which the
    phase is Speaking, the intervals handed to [source.start] are in
    order: each one ends no later than every later one starts, and starts
    no later; and each one ends at or before the playhead.  A chunk
    scheduled on an open context whose clock is not negative starts at the
    playhead, snapped to [now + 0.01] when the playhead is at or behind
    the clock, and the playhead then advances by that chunk's duration;
    and a batch of the scheduler schedules the chunks it takes from the
    queue by this rule, one where the one before it ends, and leaves the
    playhead where the last of them ends. *)
Theorem intervals_in_order_between_resets s es s' :
  run_in_phase es s = Some s' ->
  trace s' = trace s ++ emitted s s' /\
  non_overlapping (starts (emitted s s')) /\
  Forall (fun iv => (fst iv + snd iv <= audioPlayheadTime s')%Q) (starts (emitted s s')) /\
  (forall st ctx x l,
     audioPlaybackContext st = Some ctx -> is_closed ctx = false ->
     (0 <= currentTime ctx)%Q ->
     trace (exec (scheduleChunkAtPlayhead (Some (x :: l))) st)
       = trace st ++
         [Start (if Qle_bool (audioPlayheadTime st) (currentTime ctx)
                 then currentTime ctx + (1 # 100) else audioPlayheadTime st)%Q
                (Z.of_nat (List.length (x :: l)) # AUDIO_SAMPLE_RATE)] /\
     audioPlayheadTime (exec (scheduleChunkAtPlayhead (Some (x :: l))) st)
       = ((if Qle_bool (audioPlayheadTime st) (currentTime ctx)
           then currentTime ctx + (1 # 100) else audioPlayheadTime st)
          + (Z.of_nat (List.length (x :: l)) # AUDIO_SAMPLE_RATE))%Q) /\
  (forall st ctx,
     audioPlaybackContext st = Some ctx -> is_closed ctx = false ->
     (0 <= currentTime ctx)%Q -> no_empty_chunk st ->
     starts (emitted st (exec processBufferedChunks st))
       = back_to_back (snap (currentTime ctx) (audioPlayheadTime st))
           (firstn 5 (audioBufferQueue st)) /\
     audioPlayheadTime (exec processBufferedChunks st)
       = match audioBufferQueue st with
         | [] => audioPlayheadTime st
         | _ => finish (snap (currentTime ctx) (audioPlayheadTime st))
                  (firstn 5 (audioBufferQueue st))
         end).
Proof.
  intros Hrun.
  destruct (in_phase_run_timeline (trace s) es s s' Hrun (timeline_initial s))
    as (new & Ht & Hno & Hend & _).
  rewrite (emitted_app s s' new Ht).
  split; [ exact Ht | ].
  split; [ exact Hno | ].
  split; [ eapply Forall_impl; [ | exact Hend ]; cbn; intros iv [_ H]; exact H | ].
  split.
  - intros st ctx x l Hctx Hopen Hnow. apply schedule_at_playhead; assumption.
  - intros st ctx Hctx Hopen Hnow Hne.
    unfold processBufferedChunks. rewrite exec_get_bind.
    destruct (SchedulerLaws.scheduleLoop_fifo ctx
                (Nat.min (List.length (audioBufferQueue st)) 5) st
                Hctx Hopen Hnow Hne (Nat.le_min_l _ _))
      as ((l & Hl & _ & Hd) & Hfin).
    rewrite (emitted_app _ _ _ Hl).
    split; [ rewrite Hd, SchedulerLaws.firstn_min; reflexivity | ].
    destruct (audioBufferQueue st) as [|c q] eqn:Hq; [ reflexivity | ].
    rewrite <- Hq in *. rewrite Hfin, SchedulerLaws.firstn_min; [ reflexivity | ].
    rewrite Hq. cbn. lia.
Qed.

(** The three chunks of 100 samples fed to the session whose first
    response has started: the run is within one phase, and the three
    intervals are those of the scenario, 0.1 s, 100/44100 s each. *)
Lemma three_chunks_between_resets :
  run_in_phase three_chunks responding = Some responded /\
  (trace responded = trace responding ++ emitted responding responded /\
   non_overlapping (starts (emitted responding responded)) /\
   Forall (fun iv => (fst iv + snd iv <= audioPlayheadTime responded)%Q)
          (starts (emitted responding responded))) /\
  map (fun iv => (Qred (fst iv), Qred (snd iv))) (starts (emitted responding responded))
    = [(1 # 10, 1 # 441); (451 # 4410, 1 # 441); (461 # 4410, 1 # 441)]%Q.
Proof.
  refine ((fun Hrun => conj Hrun (conj _ _)) _).
  - pose proof (intervals_in_order_between_resets responding three_chunks responded Hrun)
      as (H1 & H2 & H3 & _).
    exact (conj H1 (conj H2 H3)).
  - vm_compute. reflexivity.
  - vm_compute. reflexivity.
Defined.

(** C1, counterexample.  Three chunks, [chat_complete], three more chunks:
    the phase is Speaking after every one of the seven events, and
    [chat_complete] puts the playhead back to [now + 0.1], so that the
    fourth chunk starts where the first did, before the first has ended. *)
Lemma overlap_after_chat_complete :
  map (fun k => option_map conversationState (run (firstn k reset_in_phase) responding))
      [1; 2; 3; 4; 5; 6; 7]%nat
    = repeat (Some Speaking) 7 /\
  option_map (fun s => map (fun iv => (Qred (fst iv), Qred (snd iv)))
                           (starts (emitted responding s)))
             (run reset_in_phase responding)
    = Some [(1 # 10, 1 # 441); (451 # 4410, 1 # 441); (461 # 4410, 1 # 441);
            (1 # 10, 1 # 441); (451 # 4410, 1 # 441); (461 # 4410, 1 # 441)]%Q /\
  ~ non_overlapping (starts (emitted responding (after reset_in_phase responding))).
Proof.
  split; [ vm_compute; reflexivity | ].
  split; [ vm_compute; reflexivity | ].
  intros H.
  assert (E : starts (emitted responding (after reset_in_phase responding))
              = [(1 # 10, 100 # 44100); (45100 # 441000, 100 # 44100);
                 (2033010000 # 19448100000, 100 # 44100);
                 (1 # 10, 100 # 44100); (45100 # 441000, 100 # 44100);
                 (2033010000 # 19448100000, 100 # 44100)]%Q)
    by (vm_compute; reflexivity).
  rewrite E in H. clear E. destruct H as [H _].
  inversion H as [ | ? ? _ H2 ]. inversion H2 as [ | ? ? _ H3 ].
  inversion H3 as [ | ? ? [Hb _] _ ].
  revert Hb. unfold Qle. cbn. lia.
Qed.

End InPhase.

(* ================================================================== *)
(** ** When the drain timers can run *)
(* ================================================================== *)

Module Draining.

Import Agent Observe Invariant Scenario Wire Batch Moments Session.
Local Open Scope Z_scope.
Local Open Scope agent_scope.
Import Frame Transitions Playback Completion.

Lemma drain_floor_arm D cb delay s :
  (cb = DrainTimeout -> 2000 <= delay) -> drain_floor D s ->
  drain_floor D (set_tasks (tasks s ++ [{| due := clock s + delay; callback := cb |}]) s).
Proof.
  intros Hd [H Hc]. split; [ | exact Hc ].
  unfold drains_not_before in *. cbn. apply Forall_app. split; [ exact H | ].
  constructor; [ | constructor ]. cbn. intros E. specialize (Hd E). lia.
Qed.

Lemma drain_floor_playback D s s' :
  only_playback s s' -> drain_floor D s -> drain_floor D s'.
Proof.
  intros Hp [H Hc]. split; [ exact (drains_playback D s s' Hp H) | ].
  unfold only_playback in Hp.
  repeat match goal with H : _ /\ _ |- _ => destruct H end.
  congruence.
Qed.

Lemma drain_floor_remove D n s :
  drain_floor D s -> drain_floor D (set_tasks (remove_nth n (tasks s)) s).
Proof. intros [H Hc]. split; [ apply drains_remove, H | exact Hc ]. Qed.

Ltac floor_side :=
  first
    [ assumption
    | apply drain_floor_arm;
        [ first [ intros E; discriminate E
                | intros _; lia
                | intros _;
                  match goal with
                  | |- 2000 <= waitTime ?n => pose proof (waitTime_bounds n); lia
                  end ]
        | assumption ]
    | apply pres_processBufferedChunks; apply drain_floor_playback ].

Lemma drain_floor_step D e s s' :
  step e s = Some s' -> drain_floor D s -> drain_floor D s'.
Proof.
  intros Hstep H.
  assert (Hready : forall r, drain_floor D (setReadyState r s)).
  { intros r. unfold setReadyState. destruct (websocket s); exact H. }
  destruct e as [ | | data | | | granted | inputData | n | dt | st | p ];
    cbn [step] in Hstep.
  - injection Hstep as <-. revert H. generalize s.
    change (preserves (drain_floor D) handleConversationButton).
    unfold_handlers; pres_steps; floor_side.
  - injection Hstep as <-. generalize (Hready OPEN). generalize (setReadyState OPEN s).
    change (preserves (drain_floor D) onopen).
    unfold_handlers; pres_steps; floor_side.
  - injection Hstep as <-. revert H. generalize s.
    change (preserves (drain_floor D) (handleWebSocketMessage data)).
    destruct data; unfold_handlers; pres_steps; floor_side.
  - injection Hstep as <-. generalize (Hready CLOSED). generalize (setReadyState CLOSED s).
    change (preserves (drain_floor D) onclose).
    unfold_handlers; pres_steps; floor_side.
  - injection Hstep as <-. revert H. generalize s.
    change (preserves (drain_floor D) onerror).
    unfold_handlers; pres_steps; floor_side.
  - injection Hstep as <-. revert H. generalize s.
    change (preserves (drain_floor D) (setupAudioRecording granted)).
    unfold_handlers; pres_steps; floor_side.
  - injection Hstep as <-. revert H. generalize s.
    change (preserves (drain_floor D) (onaudioprocess inputData)).
    unfold_handlers; pres_steps; floor_side.
  - destruct (nth_error (tasks s) n) as [t|]; [ | discriminate ].
    destruct (due t <=? clock s); [ | discriminate ].
    injection Hstep as <-.
    generalize (drain_floor_remove D n s H).
    generalize (set_tasks (remove_nth n (tasks s)) s).
    change (preserves (drain_floor D) (runCallback (callback t))).
    destruct (callback t); unfold_handlers; pres_steps; floor_side.
  - destruct (Z.leb_spec 0 dt) as [Hdt | ]; [ | discriminate ]. injection Hstep as <-.
    destruct H as [H Hc]. unfold advance.
    destruct (audioPlaybackContext _) as [c|]; [ destruct (ctxState c) | ];
      (split; [ exact H | cbn; lia ]).
  - destruct (audioPlaybackContext s); injection Hstep as <-; exact H.
  - injection Hstep as <-. exact H.
Qed.

Lemma drain_floor_run D es : forall s s',
  run es s = Some s' -> drain_floor D s -> drain_floor D s'.
Proof.
  induction es as [|e es IH]; intros s s'; cbn [run].
  - intros [= <-]. auto.
  - destruct (step e s) as [s1|] eqn:Hstep; [ | discriminate ].
    intros Hrun H. apply (IH s1 s' Hrun).
    exact (drain_floor_step D e s s1 Hstep H).
Qed.

(** Whatever happens, the phase does not go from Speaking to Listening
    before the first of: the pending drain timers, and the shortest drain
    delay. *)
Lemma resume_not_before_floor D s es sa e sb :
  drains_not_before D s -> D <= clock s + 2000 ->
  run es s = Some sa -> step e sa = Some sb ->
  conversationState sa = Speaking -> conversationState sb = Listening ->
  D <= clock sa.
Proof.
  intros H0 Hc Hrun Hstep Hsa Hsb.
  destruct (drain_floor_run D es s sa Hrun (conj H0 Hc)) as [Ha _].
  destruct (to_listening_only_by_drain e sa sb Hstep Hsa Hsb)
    as (k & t & _ & Hk & Hcb & Hdue & _).
  unfold drains_not_before in Ha. rewrite Forall_forall in Ha.
  specialize (Ha t (nth_error_In _ _ Hk) Hcb). lia.
Qed.

Lemma resume_not_before_minimum n s es sa e sb :
  pending DrainTimeout (tasks s) = 0%nat ->
  run es (exec (handleAudioComplete n) s) = Some sa ->
  step e sa = Some sb ->
  conversationState sa = Speaking -> conversationState sb = Listening ->
  clock s + 2000 <= clock sa.
Proof.
  intros Hp Hrun Hstep Hsa Hsb.
  destruct (handleAudioComplete_effect n s) as (_ & Ht & _).
  assert (Hclock : clock (exec (handleAudioComplete n) s) = clock s).
  { unfold handleAudioComplete. rewrite exec_get_bind, !exec_bind.
    set (s2 := exec (when _ processBufferedChunks) s).
    assert (H2 : clock s2 = clock s).
    { subst s2. destruct (0 <? _)%nat; cbn [when]; [ | reflexivity ].
      pose proof (processBufferedChunks_playback s) as H.
      unfold only_playback in H. tauto. }
    clearbody s2. cbn. exact H2. }
  apply (resume_not_before_floor (clock s + 2000) (exec (handleAudioComplete n) s)
           es sa e sb); try assumption.
  - unfold drains_not_before. rewrite Ht. apply Forall_app. split.
    + eapply Forall_impl; [ | exact (pending_none _ _ Hp) ].
      intros t Hcb E. contradiction.
    + constructor; [ | constructor ]. cbn. intros _.
      pose proof (waitTime_bounds n). lia.
  - rewrite Hclock. lia.
Qed.

(** C4 (amended). The drain delay for [total_chunks = n] is [n * 1000]
    clamped to [2000, 5000], 4000 for [n = 4].  Handling [audio_complete]
    leaves the phase as it is and arms a drain timer due that delay from
    now.  Any step from Speaking to Listening is a drain timer that is
    due, running in an active session; and a drain timer that runs changes
    the phase, to Listening, only when the session is active and the phase
    Speaking.  The timer that makes the step need not be the one armed for
    this message: the guard timer, and every other [audio_complete], arm
    drain timers of their own.  So, over every run, the step from Speaking
    to Listening comes no earlier than the first pending drain timer, or
    2000 ms from now if that is sooner; with no drain timer pending when
    the message is handled, no earlier than 2000 ms after it; and no
    earlier than the full delay when, besides, no further completion is
    handled and no guard timer runs. *)
Theorem drain_delay_gates_transition :
  (forall n, waitTime n = clamp (n * 1000) 2000 5000) /\
  waitTime 4 = 4000 /\
  (forall n s,
     conversationState (exec (handleAudioComplete n) s) = conversationState s /\
     tasks (exec (handleAudioComplete n) s)
       = tasks s ++ [{| due := clock s + waitTime n; callback := DrainTimeout |}]) /\
  (forall n s es sa e sb,
     pending DrainTimeout (tasks s) = 0%nat ->
     run_if no_completion es (exec (handleAudioComplete n) s) = Some sa ->
     step e sa = Some sb ->
     conversationState sa = Speaking -> conversationState sb = Listening ->
     clock s + waitTime n <= clock sa) /\
  (forall e s s',
     step e s = Some s' ->
     conversationState s = Speaking -> conversationState s' = Listening ->
     exists k t, e = Fire k /\ nth_error (tasks s) k = Some t /\
                 callback t = DrainTimeout /\ due t <= clock s /\
                 isConversationActive s = true) /\
  (forall s,
     conversationState (exec drainTimeout s)
       = if isConversationActive s && Phase_eqb (conversationState s) Speaking
         then Listening else conversationState s) /\
  (forall D s es sa e sb,
     drains_not_before D s -> D <= clock s + 2000 ->
     run es s = Some sa ->
     step e sa = Some sb ->
     conversationState sa = Speaking -> conversationState sb = Listening ->
     D <= clock sa) /\
  (forall n s es sa e sb,
     pending DrainTimeout (tasks s) = 0%nat ->
     run es (exec (handleAudioComplete n) s) = Some sa ->
     step e sa = Some sb ->
     conversationState sa = Speaking -> conversationState sb = Listening ->
     clock s + 2000 <= clock sa).
Proof.
  split; [ exact waitTime_clamp | ].
  split; [ reflexivity | ].
  split.
  { intros n s. destruct (handleAudioComplete_effect n s) as (H1 & H2 & _).
    split; assumption. }
  split; [ exact resume_not_before_delay | ].
  split; [ exact to_listening_only_by_drain | ].
  split; [ exact drainTimeout_phase | ].
  split; [ exact resume_not_before_floor | exact resume_not_before_minimum ].
Qed.

(** C4, counterexample.  The completion for ten chunks is handled at
    14000 ms, with no drain timer pending, and arms a drain timer for
    19000 ms, the delay being 5000 ms.  The guard runs at 15000 ms, in the
    Speaking phase, and arms a drain timer of its own for 17000 ms; when
    that one runs the phase goes from Speaking to Listening, 3000 ms after
    the completion and 2000 ms before its delay is over, with the
    completion's own timer still pending. *)
Lemma transition_before_the_delay :
  nth_error late_completion 7 = Some (WsMessage (audio_complete 10)) /\
  run forced_after_completion fresh = Some (after forced_after_completion fresh) /\
  clock completion_arrives = 14000 /\
  conversationState completion_arrives = Speaking /\
  pending DrainTimeout (tasks completion_arrives) = 0%nat /\
  waitTime 10 = 5000 /\
  step (WsMessage (audio_complete 10)) completion_arrives
    = Some (after (firstn 8 late_completion) fresh) /\
  tasks (after (firstn 8 late_completion) fresh)
    = tasks completion_arrives ++ [{| due := 19000; callback := DrainTimeout |}] /\
  conversationState forced_drain_due = Speaking /\
  clock forced_drain_due = 17000 /\
  step (Fire 1) forced_drain_due = Some (after forced_after_completion fresh) /\
  conversationState (after forced_after_completion fresh) = Listening /\
  tasks (after forced_after_completion fresh)
    = [{| due := 19000; callback := DrainTimeout |}] /\
  ~ (clock completion_arrives + waitTime 10 <= clock forced_drain_due).
Proof.
  repeat match goal with |- _ /\ _ => split end;
    try (vm_compute; reflexivity).
  vm_compute. intros H. apply H. reflexivity.
Qed.

End Draining.
